(** * The vector-clock changes feed of sync_gateway

    A shallow embedding of [VectorMultiChangesFeed], [vectorChangesFeed],
    [appendVectorUserFeed] and [getChangesClock] (package [db]), and the
    properties of the merge loop, the backfill planner and the per-channel
    producer.

    Conventions:
    - [uint16] and [uint64] values are [Z]; the feed never does arithmetic
      on them (only comparisons and maxima), so no wrap-around arises.  The
      only arithmetic is [options.Limit--], guarded by [options.Limit > 0].
    - a [base.SequenceClock] is a pointer in Go.  Clocks live in a [Store]
      and a [SequenceID] holds locations, so that the sharing of a
      triggered-by clock among the entries of one backfill and the pointer
      comparison done by [==] on [SequenceID] are both kept.
    - a Go channel that is written by one producer and then closed is the
      list of the values sent on it.
    - [options.Terminator] is an oracle: the number of sends that go through
      before a [select] takes the terminator branch. *)

From stdpp Require Import gmap strings list pretty.
From Stdlib Require Import ZArith Lia.

Local Open Scope Z_scope.

(** ** Package base: sequence clocks and sets *)

Module base.

(** Modelled from the spec: [base.SequenceClock] and its implementation
    are declared elsewhere in the repository.  A clock is a sparse mapping
    from vbucket number to sequence (absent = 0) with an opaque hashed
    value slot. *)
Record SequenceClockImpl := mkClock {
  value : gmap Z Z;
  hashedValue : string
}.

Definition NewSequenceClockImpl : SequenceClockImpl :=
  {| value := ∅; hashedValue := "" |}.

Definition GetSequence (c : SequenceClockImpl) (vbNo : Z) : Z :=
  default 0 (value c !! vbNo).

(** monotonic-maximum update *)
Definition SetMaxSequence (c : SequenceClockImpl) (vbNo seq : Z)
  : SequenceClockImpl :=
  if GetSequence c vbNo <? seq
  then {| value := <[vbNo := seq]> (value c); hashedValue := hashedValue c |}
  else c.

Definition Copy (c : SequenceClockImpl) : SequenceClockImpl := c.

Definition GetHashedValue (c : SequenceClockImpl) : string := hashedValue c.

Definition SetHashedValue (c : SequenceClockImpl) (h : string)
  : SequenceClockImpl :=
  {| value := value c; hashedValue := h |}.

(** [base.Set] is a Go map from string to the empty struct; a nil set is
    [None]. *)
Abbreviation Set_ := (option (gset string)).

(** Modelled from the spec: the well-known name of the guest principal is
    declared elsewhere in the repository. *)
Definition GuestUsername : string := "GUEST".

End base.

Export base.

(** ** The store of clocks *)

Abbreviation loc := nat.
Abbreviation Store := (list SequenceClockImpl).

Definition alloc (c : SequenceClockImpl) (h : Store) : loc * Store :=
  (length h, h ++ [c]).

(** Reading through a pointer.  A nil pointer ([None]) has no clock behind
    it: the Go code panics there. *)
Definition deref (h : Store) (p : option loc) : option SequenceClockImpl :=
  l ← p; h !! l.

Definition update (h : Store) (l : loc) (f : SequenceClockImpl → SequenceClockImpl)
  : Store :=
  match h !! l with
  | Some c => <[l := f c]> h
  | None => h
  end.

(** ** Package db: the data the feed works on *)

(** Modelled from the spec: the declaration of [SequenceType] is elsewhere in
    the repository; [SeqTypeUndefined] is the zero value that a composite
    literal without [SeqType] gets. *)
Inductive SequenceType := SeqTypeUndefined | IntSequenceType | ClockSequenceType.

(** Modelled from the spec: the declaration of [SequenceID] is elsewhere in
    the repository; these are the fields the feed reads and writes. *)
Record SequenceID := mkSequenceID {
  SeqType : SequenceType;
  TriggeredBy : Z;
  Seq : Z;
  Clock : option loc;
  TriggeredByClock : option loc;
  vbNo : Z;
  TriggeredByVbNo : Z
}.

Global Instance SequenceType_eq_dec : EqDecision SequenceType.
Proof. solve_decision. Defined.

Global Instance SequenceID_eq_dec : EqDecision SequenceID.
Proof. solve_decision. Defined.

(** Go's [==] on two [SequenceID] structs: field by field, the two clocks by
    pointer. *)
Definition SequenceID_eqb (a b : SequenceID) : bool := bool_decide (a = b).

Definition MaxUint64 : Z := 2 ^ 64 - 1.

(** The conversion [uint16(x)]. *)
Definition uint16 (x : Z) : Z := x `mod` 2 ^ 16.

Definition zeroSequenceID : SequenceID :=
  {| SeqType := SeqTypeUndefined; TriggeredBy := 0; Seq := 0; Clock := None;
     TriggeredByClock := None; vbNo := 0; TriggeredByVbNo := 0 |}.

(** Modelled from the spec: [MaxSequenceID] is declared elsewhere in the
    repository; it is the sequence id whose [Seq] is the largest [uint64]. *)
Definition MaxSequenceID : SequenceID :=
  {| SeqType := SeqTypeUndefined; TriggeredBy := 0; Seq := MaxUint64;
     Clock := None; TriggeredByClock := None; vbNo := 0; TriggeredByVbNo := 0 |}.

Definition withClock (c : option loc) (s : SequenceID) : SequenceID :=
  {| SeqType := SeqType s; TriggeredBy := TriggeredBy s; Seq := Seq s;
     Clock := c; TriggeredByClock := TriggeredByClock s; vbNo := vbNo s;
     TriggeredByVbNo := TriggeredByVbNo s |}.

(** Modelled from the spec: [LogEntry] is declared elsewhere in the repository
    ([{id, seq, vbNo, revs, flags}]). *)
Record LogEntry := mkLogEntry {
  DocID : string;
  RevID : string;
  Sequence : Z;
  VbNo : Z;
  Flags : Z
}.

(** Modelled from the spec: [ChangeEntry] is declared elsewhere in the
    repository ([{id, seq, changes, removed, doc, err}]). *)
Record ChangeEntry := mkChangeEntry {
  ceSeq : SequenceID;
  ID : string;
  Changes : list string;
  Removed : Set_;
  Doc : option string;
  Err : string
}.

Definition withSeq (s : SequenceID) (e : ChangeEntry) : ChangeEntry :=
  {| ceSeq := s; ID := ID e; Changes := Changes e; Removed := Removed e;
     Doc := Doc e; Err := Err e |}.

Definition withRemoved (r : Set_) (e : ChangeEntry) : ChangeEntry :=
  {| ceSeq := ceSeq e; ID := ID e; Changes := Changes e; Removed := r;
     Doc := Doc e; Err := Err e |}.

Record ChangesOptions := mkChangesOptions {
  Since : SequenceID;
  Limit : Z;
  Conflicts : bool;
  IncludeDocs : bool;
  Wait : bool;
  Continuous : bool
}.

Definition withSince (s : SequenceID) (o : ChangesOptions) : ChangesOptions :=
  {| Since := s; Limit := Limit o; Conflicts := Conflicts o;
     IncludeDocs := IncludeDocs o; Wait := Wait o; Continuous := Continuous o |}.

Definition withLimit (n : Z) (o : ChangesOptions) : ChangesOptions :=
  {| Since := Since o; Limit := n; Conflicts := Conflicts o;
     IncludeDocs := IncludeDocs o; Wait := Wait o; Continuous := Continuous o |}.

(** [getChangesClock]: the clock a cursor is read through. *)
Definition getChangesClock (sequence : SequenceID) : option loc :=
  match TriggeredByClock sequence with
  | Some l => Some l
  | None => Clock sequence
  end.

(** ** The terminator *)

(** [select { case <-options.Terminator: ... ; case ch <- x: ... }].  The
    oracle is the number of sends still to go through before the terminator
    branch is taken ([None]: it never is).  The result is [None] when the
    terminator branch is taken and the remaining oracle after a send. *)
Abbreviation Terminator := (option nat).

Definition select (t : Terminator) : option Terminator :=
  match t with
  | None => Some None
  | Some O => None
  | Some (S n) => Some (Some n)
  end.

(** ** The per-channel feed *)

(** A call that returns a value and an [error]. *)
Inductive result (A : Type) :=
| Ok (a : A)
| Failed (err : string).
Arguments Ok {A} a.
Arguments Failed {A} err.

Definition clockAt (h : Store) (l : loc) : SequenceClockImpl :=
  default NewSequenceClockImpl (h !! l).

Section PerChannelFeed.

(** [SequenceID.VbucketSequenceBefore] and [makeChangeEntry] are declared
    elsewhere in the repository; the feed is modelled for any such pair. *)
Variable VbucketSequenceBefore : SequenceID → Z → Z → bool.
Variable makeChangeEntry : LogEntry → SequenceID → string → ChangeEntry.

(** The sequence id of a backfill entry. *)
Definition backfillSeqID (options : ChangesOptions) (logEntry : LogEntry)
  : SequenceID :=
  {| SeqType := ClockSequenceType;
     Seq := Sequence logEntry;
     vbNo := VbNo logEntry;
     TriggeredBy := TriggeredBy (Since options);
     TriggeredByVbNo := TriggeredByVbNo (Since options);
     TriggeredByClock := TriggeredByClock (Since options);
     Clock := None |}.

(** The sequence id of an entry sent after the backfill. *)
Definition liveSeqID (logEntry : LogEntry) : SequenceID :=
  {| SeqType := ClockSequenceType;
     Seq := Sequence logEntry;
     vbNo := VbNo logEntry;
     TriggeredBy := 0; TriggeredByVbNo := 0; TriggeredByClock := None;
     Clock := None |}.

Definition isBackfill (tbc : SequenceClockImpl) (logEntry : LogEntry) : bool :=
  Sequence logEntry <=? GetSequence tbc (VbNo logEntry).

Definition isPending (options : ChangesOptions) (logEntry : LogEntry) : bool :=
  VbucketSequenceBefore (Since options) (VbNo logEntry) (Sequence logEntry).

(** The loop "Send backfill first".  It returns the entries sent on the feed,
    and, unless the terminator made the producer return, the log with the
    backfill entries set to nil and what is left of the oracle. *)
Fixpoint sendBackfill (tbc : SequenceClockImpl) (options : ChangesOptions)
    (channel : string) (log : list LogEntry) (t : Terminator)
  : list ChangeEntry * option (list (option LogEntry) * Terminator) :=
  match log with
  | [] => ([], Some ([], t))
  | logEntry :: rest =>
      if isBackfill tbc logEntry && isPending options logEntry then
        match select t with
        | None => ([], None)
        | Some t' =>
            let '(sent, r) := sendBackfill tbc options channel rest t' in
            (makeChangeEntry logEntry (backfillSeqID options logEntry) channel :: sent,
             '(log', t'') ← r; Some (None :: log', t''))
        end
      else
        let '(sent, r) := sendBackfill tbc options channel rest t in
        (sent,
         '(log', t'') ← r;
         Some ((if isBackfill tbc logEntry then None else Some logEntry) :: log', t''))
  end.

(** The loop "Now send any remaining entries". *)
Fixpoint sendRemaining (channel : string) (log : list (option LogEntry))
    (t : Terminator) : list ChangeEntry :=
  match log with
  | [] => []
  | None :: rest => sendRemaining channel rest t
  | Some logEntry :: rest =>
      match select t with
      | None => []
      | Some t' =>
          makeChangeEntry logEntry (liveSeqID logEntry) channel
            :: sendRemaining channel rest t'
      end
  end.

(** The producer goroutine: everything it sends before it closes the feed. *)
Definition feedBody (h : Store) (channel : string) (options : ChangesOptions)
    (log : list LogEntry) (t : Terminator) : list ChangeEntry :=
  match TriggeredByClock (Since options) with
  | Some l =>
      match sendBackfill (clockAt h l) options channel log t with
      | (sent, None) => sent
      | (sent, Some (log', t')) => sent ++ sendRemaining channel log' t'
      end
  | None => sendRemaining channel (Some <$> log) t
  end.

(** [vectorChangesFeed]: [cached] is what [db.changeCache.GetChanges(channel,
    options)] returned.  The producer reads the sequences of the
    triggered-by clock only, which nothing writes while it runs (the merger
    sets the hashed value of that clock, not its sequences), so the feed is
    fixed by the store at the time of the call. *)
Definition vectorChangesFeed (h : Store) (cached : result (list LogEntry))
    (channel : string) (options : ChangesOptions) (t : Terminator)
  : result (list ChangeEntry) :=
  match cached with
  | Failed err => Failed err
  | Ok log =>
      if decide (length log = 0%nat) then Ok []
      else Ok (feedBody h channel options log t)
  end.

End PerChannelFeed.

(** ** The backfill planner *)

(** Modelled from the spec: [channels.VbSequence] is declared elsewhere in the
    repository: a grant [{sequence, vbNo?}]; a nil [VbNo] is a grant recorded
    on the principal document. *)
Record VbSequence := mkVbSequence {
  gVbNo : option Z;
  gSequence : Z
}.

(** [channels.TimedSet], in the order [range] visits it. *)
Abbreviation TimedSet := (list (string * VbSequence)).

(** Modelled from the spec: [channels.AtSequence] is declared elsewhere in the
    repository; every channel is granted at the given sequence, with no
    vbucket. *)
Definition AtSequence (chans : list string) (sequence : Z) : TimedSet :=
  (λ name, (name, {| gVbNo := None; gSequence := sequence |})) <$> chans.

(** [userVbNo] when there is no vbucket on the grant. *)
Definition grantVbNo (userVbNo : Z) (vbSeqAddedAt : VbSequence) : Z :=
  match gVbNo vbSeqAddedAt with
  | None => userVbNo
  | Some vb => vb
  end.

Definition isNewChannel (addedChannels : Set_) (name : string) : bool :=
  match addedChannels with
  | None => false
  | Some added => bool_decide (name ∈ added)
  end.

(** "There's a backfill in progress for SOME channel - check if it's this
    one". *)
Definition backfillInProgress (h : Store) (since : SequenceID)
    (vbAddedAt seqAddedAt : Z) : bool :=
  match TriggeredByClock since with
  | Some l => bool_decide (GetSequence (clockAt h l) vbAddedAt = seqAddedAt)
  | None => false
  end.

(** [getChangesClock(options.Since).GetSequence(vb)]; [None] is the panic of
    a call through a nil clock. *)
Definition sinceSequence (h : Store) (since : SequenceID) (vb : Z) : option Z :=
  c ← deref h (getChangesClock since); Some (GetSequence c vb).

Definition backfillRequired (sinceSeq seqAddedAt : Z) : bool :=
  (0 <? seqAddedAt) && (sinceSeq <? seqAddedAt).

(** The body of the loop over [channelsSince] up to the call of
    [vectorChangesFeed]: the [Since] of [chanOpts] and the store after the
    allocations.  [None] is a panic. *)
Definition planSince (h : Store) (options : ChangesOptions) (userVbNo : Z)
    (addedChannels : Set_) (name : string) (vbSeqAddedAt : VbSequence)
  : option (SequenceID * Store) :=
  let seqAddedAt := gSequence vbSeqAddedAt in
  let vbAddedAt := grantVbNo userVbNo vbSeqAddedAt in
  let inProgress := backfillInProgress h (Since options) vbAddedAt seqAddedAt in
  sinceSeq ← sinceSequence h (Since options) vbAddedAt;
  if isNewChannel addedChannels name
     || (backfillRequired sinceSeq seqAddedAt && negb inProgress)
  then
    (* Case 2.  No backfill in progress, backfill required *)
    let '(clock, h1) := alloc NewSequenceClockImpl h in
    c ← deref h1 (getChangesClock (Since options));
    let '(tbc, h2) := alloc (Copy c) h1 in
    Some ({| SeqType := SeqTypeUndefined;
             Seq := 0;
             vbNo := 0;
             Clock := Some clock;
             TriggeredBy := seqAddedAt;
             TriggeredByVbNo := vbAddedAt;
             TriggeredByClock := Some tbc |}, h2)
  else if inProgress then
    (* Case 3.  Backfill in progress. *)
    let '(clock, h1) := alloc NewSequenceClockImpl h in
    Some ({| SeqType := SeqTypeUndefined;
             Seq := Seq (Since options);
             vbNo := vbNo (Since options);
             Clock := Some clock;
             TriggeredBy := seqAddedAt;
             TriggeredByVbNo := vbAddedAt;
             TriggeredByClock := TriggeredByClock (Since options) |}, h1)
  else
    (* Case 1.  Leave chanOpts.Since set to options.Since. *)
    Some (Since options, h).

(** How the goroutine of [VectorMultiChangesFeed] ends. *)
Inductive Exit :=
| Done          (* the outer loop was left by [break] *)
| Terminated    (* [return] on the terminator *)
| FeedError     (* [return] after [vectorChangesFeed] failed *)
| UserNotFound  (* [return] after the reload of the user failed *)
| Panicked      (* a call through a nil pointer *)
| Parked.       (* still waiting: the environment described no more wake-ups *)

Section Planner.

Variable VbucketSequenceBefore : SequenceID → Z → Z → bool.
Variable makeChangeEntry : LogEntry → SequenceID → string → ChangeEntry.

(** [db.changeCache.GetChanges]; it may read the clocks of the cursor. *)
Variable GetChanges : string → ChangesOptions → Store → result (list LogEntry).
(** The terminator as each producer sees it. *)
Variable feedTerminator : string → Terminator.

(** The loop over [channelsSince]: the feeds opened, or the exit it takes. *)
Fixpoint openFeeds (h : Store) (options : ChangesOptions) (userVbNo : Z)
    (addedChannels : Set_) (channelsSince : TimedSet)
    (feeds : list (list ChangeEntry))
  : Exit + (list (list ChangeEntry) * Store) :=
  match channelsSince with
  | [] => inr (feeds, h)
  | (name, vbSeqAddedAt) :: rest =>
      match planSince h options userVbNo addedChannels name vbSeqAddedAt with
      | None => inl Panicked
      | Some (since, h') =>
          let chanOpts := withSince since options in
          match vectorChangesFeed VbucketSequenceBefore makeChangeEntry h'
                  (GetChanges name chanOpts h') name chanOpts (feedTerminator name) with
          | Failed _ => inl FeedError
          | Ok feed =>
              openFeeds h' options userVbNo addedChannels rest (feeds ++ [feed])
          end
      end
  end.

End Planner.

(** ** The user pseudo-feed *)

(** Modelled from the spec: the principal is declared elsewhere in the
    repository; [Name], [DocID] and [Sequence] are what the feed asks it. *)
Record User := mkUser {
  userName : string;
  userDocID : string;
  userSequence : Z
}.

(** [appendVectorUserFeed]; the [names] are not used by the caller.  [None]
    is a panic. *)
Definition appendVectorUserFeed (h : Store) (user : User)
    (feeds : list (list ChangeEntry)) (options : ChangesOptions) (userVbNo : Z)
  : option (list (list ChangeEntry)) :=
  if 0 <? userSequence user then
    let userSeq := {| SeqType := ClockSequenceType;
                      Seq := userSequence user;
                      vbNo := userVbNo;
                      TriggeredBy := 0; TriggeredByVbNo := 0;
                      TriggeredByClock := None; Clock := None |} in
    sinceSeq ← sinceSequence h (Since options) userVbNo;
    if sinceSeq <? Seq userSeq then
      let name := if decide (userName user = "") then GuestUsername
                  else userName user in
      let entry := {| ceSeq := userSeq;
                      ID := "_user/" +:+ name;
                      Changes := [];
                      Removed := None; Doc := None; Err := "" |} in
      Some (feeds ++ [[entry]])
    else Some feeds
  else Some feeds.

(** ** The merger *)

(** A feed as the merger holds it: [None] once the merger has seen it closed
    and set [feeds[i] = nil]. *)
Abbreviation Feed := (option (list ChangeEntry)).

(** "Read more entries to fill up the current[] array". *)
Fixpoint fillCurrent (current : list (option ChangeEntry)) (feeds : list Feed)
  : list (option ChangeEntry) * list Feed :=
  match current, feeds with
  | cur :: current', feed :: feeds' =>
      let '(cs, fs) := fillCurrent current' feeds' in
      match cur, feed with
      | None, Some (e :: q) => (Some e :: cs, Some q :: fs)
      | None, Some [] => (None :: cs, None :: fs)
      | _, _ => (cur :: cs, feed :: fs)
      end
  | _, _ => (current, feeds)
  end.

(** [base.Set.Union] on two non-nil sets. *)
Definition Union (a b : gset string) : gset string := a ∪ b.

(** "Clear the current entries for the sequence just sent", from index [i]
    on; [m] is the index of [minEntry] (the test [cur != minEntry] compares
    pointers, and each slot holds an entry of its own) and [removed] is
    [minEntry.Removed] so far. *)
Fixpoint clearSent (minSeq : SequenceID) (m : nat) (i : nat)
    (current : list (option ChangeEntry)) (removed : Set_)
  : list (option ChangeEntry) * Set_ :=
  match current with
  | [] => ([], removed)
  | None :: rest =>
      let '(rest', removed') := clearSent minSeq m (S i) rest removed in
      (None :: rest', removed')
  | Some cur :: rest =>
      if SequenceID_eqb (ceSeq cur) minSeq then
        let removed1 :=
          if negb (bool_decide (i = m)) then
            match Removed cur, removed with
            | None, _ => removed
            | Some r, None => Some r
            | Some r, Some r0 => Some (Union r0 r)
            end
          else removed in
        let '(rest', removed') := clearSent minSeq m (S i) rest removed1 in
        (None :: rest', removed')
      else
        let '(rest', removed') := clearSent minSeq m (S i) rest removed in
        (Some cur :: rest', removed')
  end.

(** A call of [db.SequenceHasher.GetHash], for a live entry or for the
    triggered-by clock at a location. *)
Inductive HashCall :=
| HashLive
| HashTriggeredBy (l : loc).

Global Instance HashCall_eq_dec : EqDecision HashCall.
Proof. solve_decision. Defined.

Record MergeState := mkMergeState {
  mFeeds : list Feed;
  mCurrent : list (option ChangeEntry);
  mStore : Store;
  mOptions : ChangesOptions;
  mHashCalls : list HashCall
}.

(** How one run of the inner loop ends. *)
Inductive LoopExit :=
| LoopBreak       (* [break]: no more entries *)
| LoopBreakOuter  (* [break outer]: the limit is reached *)
| LoopReturn      (* [return]: the terminator *)
| LoopPanic       (* a call through a nil clock *)
| LoopFuel.       (* the model ran out of steps; see [mergeLoop_fuel] *)

Section Merger.

(** [SequenceID.Before] is declared elsewhere in the repository. *)
Variable Before : SequenceID → SequenceID → bool.
(** [db.SequenceHasher.GetHash]. *)
Variable GetHash : SequenceClockImpl → result string.
(** Modelled from the spec: [db.addDocToChangeEntry] is declared elsewhere in
    the repository; the document layer attaches a body or the conflicting
    revision ids to the entry. *)
Variable docLayer : ChangeEntry → ChangesOptions → option string * list string.

Definition addDocToChangeEntry (entry : ChangeEntry) (options : ChangesOptions)
  : ChangeEntry :=
  let '(doc, changes) := docLayer entry options in
  {| ceSeq := ceSeq entry; ID := ID entry; Changes := changes;
     Removed := Removed entry; Doc := doc; Err := Err entry |}.

(** "Find the current entry with the minimum sequence", from index [i] on.
    [minEntry] is the slot and the entry it points to. *)
Fixpoint findMin (current : list (option ChangeEntry)) (i : nat)
    (minSeq : SequenceID) (minEntry : option (nat * ChangeEntry))
  : SequenceID * option (nat * ChangeEntry) :=
  match current with
  | [] => (minSeq, minEntry)
  | Some cur :: rest =>
      if Before (ceSeq cur) minSeq
      then findMin rest (S i) (ceSeq cur) (Some (i, cur))
      else findMin rest (S i) minSeq minEntry
  | None :: rest => findMin rest (S i) minSeq minEntry
  end.

(** The clock stamping of [minEntry]: the entry, the store and the calls of
    the hasher.  [None] is a panic. *)
Definition stampClock (h : Store) (cumulativeClock : loc) (minEntry : ChangeEntry)
  : option (ChangeEntry * Store * list HashCall) :=
  let seq := ceSeq minEntry in
  if bool_decide (TriggeredBy seq = 0) then
    (* Update the cumulative clock, and stick it on the entry. *)
    let h1 := update h cumulativeClock (λ c, SetMaxSequence c (vbNo seq) (Seq seq)) in
    let hashed := GetHash (clockAt h1 cumulativeClock) in
    let '(clock, h2) := alloc (mkClock ∅ "") h1 in
    let h3 := match hashed with
              | Failed _ => h2
              | Ok clockHash => update h2 clock (λ c, SetHashedValue c clockHash)
              end in
    Some (withSeq (withClock (Some clock) seq) minEntry, h3, [HashLive])
  else
    tbc ← TriggeredByClock seq;
    if bool_decide (GetHashedValue (clockAt h tbc) = "") then
      let h1 := update h cumulativeClock
                  (λ c, SetMaxSequence c (TriggeredByVbNo seq) (TriggeredBy seq)) in
      let h2 := match GetHash (clockAt h1 cumulativeClock) with
                | Failed _ => h1
                | Ok clockHash => update h1 tbc (λ c, SetHashedValue c clockHash)
                end in
      Some (minEntry, h2, [HashTriggeredBy tbc])
    else Some (minEntry, h, []).

(** "Stop when we hit the limit (if any)": [options.Limit--] when the limit
    is positive, and whether it is zero then. *)
Definition countDown (options : ChangesOptions) : ChangesOptions :=
  if 0 <? Limit options then withLimit (Limit options - 1) options else options.

Definition limitReached (options : ChangesOptions) : bool :=
  (0 <? Limit options) && bool_decide (Limit (countDown options) = 0).

(** [options.Since.Clock = cumulativeClock] *)
Definition advanceSince (cumulativeClock : loc) (options : ChangesOptions)
  : ChangesOptions :=
  withSince (withClock (Some cumulativeClock) (Since options)) options.

(** What one iteration of the inner loop does. *)
Inductive StepResult :=
| StepBreak (st : MergeState)     (* [break]: [minEntry == nil] *)
| StepPanic (st : MergeState)     (* a call through a nil clock *)
| StepReturn (st : MergeState)    (* [return]: the terminator *)
| StepSent (minEntry : ChangeEntry) (t : Terminator) (st : MergeState)
           (stop : bool).         (* [output <- minEntry]; [stop]: [break outer] *)

(** The body of the inner loop. *)
Definition mergeStep (cumulativeClock : loc) (t : Terminator) (st : MergeState)
  : StepResult :=
  let '(current, feeds) := fillCurrent (mCurrent st) (mFeeds st) in
  let options := mOptions st in
  match findMin current 0 MaxSequenceID None with
  | (_, None) =>
      StepBreak (mkMergeState feeds current (mStore st) options (mHashCalls st))
  | (minSeq, Some (m, minEntry0)) =>
      let '(current', removed) :=
        clearSent minSeq m 0 current (Removed minEntry0) in
      let minEntry1 := withRemoved removed minEntry0 in
      let minEntry2 :=
        if IncludeDocs options || Conflicts options
        then addDocToChangeEntry minEntry1 options else minEntry1 in
      match stampClock (mStore st) cumulativeClock minEntry2 with
      | None =>
          StepPanic (mkMergeState feeds current' (mStore st) options (mHashCalls st))
      | Some (minEntry, h, calls) =>
          let hashCalls := mHashCalls st ++ calls in
          match select t with
          | None => StepReturn (mkMergeState feeds current' h options hashCalls)
          | Some t' =>
              if limitReached options then
                StepSent minEntry t'
                  (mkMergeState feeds current' h (countDown options) hashCalls)
                  true
              else
                StepSent minEntry t'
                  (mkMergeState feeds current' h
                     (advanceSince cumulativeClock (countDown options)) hashCalls)
                  false
          end
      end
  end.

(** The inner loop.  It returns the entries written to the output, the
    state it leaves and how it ends. *)
Fixpoint mergeLoop (fuel : nat) (cumulativeClock : loc) (t : Terminator)
    (st : MergeState) : list ChangeEntry * MergeState * LoopExit :=
  match fuel with
  | O => ([], st, LoopFuel)
  | S fuel' =>
      match mergeStep cumulativeClock t st with
      | StepBreak st' => ([], st', LoopBreak)
      | StepPanic st' => ([], st', LoopPanic)
      | StepReturn st' => ([], st', LoopReturn)
      | StepSent minEntry t' st' true => ([minEntry], st', LoopBreakOuter)
      | StepSent minEntry t' st' false =>
          let '(out, st'', exit) := mergeLoop fuel' cumulativeClock t' st' in
          (minEntry :: out, st'', exit)
      end
  end.

(** The entries the merger still has to deal with: the heads it holds and
    what is left in the feeds. *)
Fixpoint countHeads (current : list (option ChangeEntry)) : nat :=
  match current with
  | [] => 0
  | Some _ :: rest => S (countHeads rest)
  | None :: rest => countHeads rest
  end.

Fixpoint countQueued (feeds : list Feed) : nat :=
  match feeds with
  | [] => 0
  | Some q :: rest => length q + countQueued rest
  | None :: rest => countQueued rest
  end.

Definition pending (st : MergeState) : nat :=
  (countHeads (mCurrent st) + countQueued (mFeeds st))%nat.

End Merger.

(** ** The outer loop *)

(** What the goroutine meets during one iteration of the outer loop: the
    answers of the collaborators it calls, and of the terminator. *)
Record World := mkWorld {
  (** [db.user], as reloaded by [checkForUserUpdates] *)
  w_user : option User;
  (** [db.user.FilterToAvailableChannels(chans)] *)
  w_available : TimedSet;
  (** [db.changeCache.GetChanges] *)
  w_GetChanges : string → ChangesOptions → Store → result (list LogEntry);
  (** the terminator in the producer of each channel *)
  w_feedTerminator : string → Terminator;
  (** the terminator at the [select] of the inner loop *)
  w_terminator : Terminator;
  (** [changeWaiter.Wait()] *)
  w_Wait : bool;
  (** "Check whether I was terminated while waiting for a change" *)
  w_terminated : bool;
  (** [db.checkForUserUpdates(userChangeCount, changeWaiter)] *)
  w_checkForUserUpdates : Z → result (Z * Set_)
}.

(** Modelled from the spec: [makeErrorEntry] is declared elsewhere in the
    repository; a synthetic entry with [err] populated. *)
Definition makeErrorEntry (message : string) : ChangeEntry :=
  {| ceSeq := zeroSequenceID; ID := ""; Changes := []; Removed := None;
     Doc := None; Err := message |}.

(** A value written to the [output] channel, with the statement that writes
    it. *)
Inductive Output :=
| Change (entry : ChangeEntry)   (* [case output <- minEntry], in the [select] *)
| Idle                           (* [output <- nil] *)
| Failure (entry : ChangeEntry). (* [output <- &change], the error entry *)

(** The value on the channel. *)
Definition sentValue (o : Output) : option ChangeEntry :=
  match o with
  | Change entry | Failure entry => Some entry
  | Idle => None
  end.

Record OuterState := mkOuterState {
  oStore : Store;
  oOptions : ChangesOptions;
  oUserChangeCount : Z;
  oAddedChannels : Set_;
  oHashCalls : list HashCall
}.

Section OuterLoop.

Variable VbucketSequenceBefore : SequenceID → Z → Z → bool.
Variable makeChangeEntry : LogEntry → SequenceID → string → ChangeEntry.
Variable Before : SequenceID → SequenceID → bool.
Variable GetHash : SequenceClockImpl → result string.
Variable docLayer : ChangeEntry → ChangesOptions → option string * list string.
(** [db.Bucket.VBHash] *)
Variable VBHash : string → Z.

(** The feeds of one iteration: one per channel, and the user pseudo-feed. *)
Definition iterationFeeds (w : World) (chans : list string) (userVbNo : Z)
    (st : OuterState) : Exit + (list (list ChangeEntry) * Store) :=
  let channelsSince :=
    match w_user w with
    | Some user => w_available w
    | None => AtSequence chans 0
    end in
  match openFeeds VbucketSequenceBefore makeChangeEntry (w_GetChanges w)
          (w_feedTerminator w) (oStore st) (oOptions st) userVbNo
          (oAddedChannels st) channelsSince [] with
  | inl exit => inl exit
  | inr (feeds, h) =>
      match w_user w with
      | Some user =>
          match appendVectorUserFeed h user feeds (oOptions st) userVbNo with
          | None => inl Panicked
          | Some feeds' => inr (feeds', h)
          end
      | None => inr (feeds, h)
      end
  end.

(** The inner loop on fresh [current] slots, with the steps it needs. *)
Definition runMerge (cumulativeClock : loc) (t : Terminator)
    (feeds : list (list ChangeEntry)) (h : Store) (options : ChangesOptions)
    (calls : list HashCall) : list ChangeEntry * MergeState * LoopExit :=
  let st := {| mFeeds := Some <$> feeds;
               mCurrent := replicate (length feeds) None;
               mStore := h; mOptions := options; mHashCalls := calls |} in
  mergeLoop Before GetHash docLayer (S (pending st)) cumulativeClock t st.

(** The outer loop, one iteration per world: what is written to [output]
    and how the goroutine ends. *)
Fixpoint outerLoop (worlds : list World) (chans : list string) (userVbNo : Z)
    (changeWaiter : bool) (cumulativeClock : loc) (st : OuterState)
  : list Output * Exit :=
  match worlds with
  | [] => ([], Parked)
  | w :: worlds' =>
      match iterationFeeds w chans userVbNo st with
      | inl exit => ([], exit)
      | inr (feeds, h) =>
          let '(sent, mst, exit) :=
            runMerge cumulativeClock (w_terminator w) feeds h (oOptions st)
              (oHashCalls st) in
          let output := Change <$> sent in
          let options := mOptions mst in
          let sentSomething := bool_decide (sent ≠ []) in
          match exit with
          | LoopReturn => (output, Terminated)
          | LoopPanic | LoopFuel => (output, Panicked)
          | LoopBreakOuter => (output, Done)
          | LoopBreak =>
              if negb (Continuous options) && (sentSomething || negb changeWaiter)
              then (output, Done)
              else
                (* output <- nil *)
                if negb changeWaiter then (output ++ [Idle], Panicked)
                else if negb (w_Wait w) then (output ++ [Idle], Done)
                else if w_terminated w then (output ++ [Idle], Terminated)
                else
                  match w_checkForUserUpdates w (oUserChangeCount st) with
                  | Failed _ =>
                      (output ++ [Idle;
                         Failure (makeErrorEntry
                           "User not found during reload - terminating changes feed")],
                       UserNotFound)
                  | Ok (userChangeCount, addedChannels) =>
                      let '(rest, exit') :=
                        outerLoop worlds' chans userVbNo changeWaiter cumulativeClock
                          {| oStore := mStore mst; oOptions := options;
                             oUserChangeCount := userChangeCount;
                             oAddedChannels := addedChannels;
                             oHashCalls := mHashCalls mst |} in
                      (output ++ Idle :: rest, exit')
                  end
          end
      end
  end.

(** [VectorMultiChangesFeed]: the output channel, given as what the goroutine
    writes to it before closing it and how the goroutine ends, and the error.
    [currentUserCount] is [changeWaiter.CurrentUserCount()]. *)
Definition VectorMultiChangesFeed (h : Store) (user : option User)
    (currentUserCount : Z) (worlds : list World)
    (chans : list string) (options : ChangesOptions)
  : (list Output * Exit) * option string :=
  let userVbNo :=
    match user with
    | Some u => if decide (userName u = "") then 0
              else uint16 (VBHash (userDocID u))
    | None => 0
    end in
  let changeWaiter := Wait options in
  let userChangeCount := if Wait options then currentUserCount else 0 in
  let output :=
    match deref h (getChangesClock (Since options)) with
    | None => ([], Panicked)
    | Some c =>
        let '(cumulativeClock, h') := alloc (Copy c) h in
        outerLoop worlds chans userVbNo changeWaiter cumulativeClock
          {| oStore := h'; oOptions := options;
             oUserChangeCount := userChangeCount; oAddedChannels := None;
             oHashCalls := [] |}
    end in
  (output, None).

End OuterLoop.

(** ** Vocabulary of the statements *)

(** What a producer whose terminator oracle is [t] gets to send of the
    entries [l] it would send undisturbed. *)
Definition cut {A : Type} (t : Terminator) (l : list A) : list A :=
  match t with
  | None => l
  | Some n => take n l
  end.

(** The oracle after [k] sends went through; [None] when the terminator
    branch is taken before that. *)
Definition spend (t : Terminator) (k : nat) : option Terminator :=
  match t with
  | None => Some None
  | Some n => if decide (k ≤ n)%nat then Some (Some (n - k)%nat) else None
  end.

(** What the clearing loop does to one slot. *)
Definition clearSlot (minSeq : SequenceID) (cur : option ChangeEntry)
  : option ChangeEntry :=
  match cur with
  | Some e => if SequenceID_eqb (ceSeq e) minSeq then None else Some e
  | None => None
  end.

(** The non-nil [Removed] sets of the heads whose sequence id equals
    [minSeq], in the order of the slots, from index [i] on and leaving out
    the slot [skip]. *)
Fixpoint removedSets (minSeq : SequenceID) (skip : option nat) (i : nat)
    (current : list (option ChangeEntry)) : list (gset string) :=
  match current with
  | [] => []
  | cur :: rest =>
      match cur with
      | Some e =>
          if SequenceID_eqb (ceSeq e) minSeq && negb (bool_decide (skip = Some i))
          then option_list (Removed e) else []
      | None => []
      end ++ removedSets minSeq skip (S i) rest
  end.

(** A set that is nil when nothing went into it. *)
Definition unionOf (r0 : Set_) (sets : list (gset string)) : Set_ :=
  match r0, sets with
  | None, [] => None
  | _, _ => Some (default ∅ r0 ∪ ⋃ sets)
  end.

(** How many times the hasher was called for the triggered-by clock at
    [tbc]. *)
Definition hashedFor (tbc : loc) (calls : list HashCall) : nat :=
  length (filter (λ call, call = HashTriggeredBy tbc) calls).

(** An entry of the backfill whose triggered-by clock is at [tbc]. *)
Definition backfillOf (tbc : loc) (e : ChangeEntry) : Prop :=
  TriggeredBy (ceSeq e) ≠ 0 ∧ TriggeredByClock (ceSeq e) = Some tbc.

(** The state an iteration of the inner loop leaves. *)
Definition stateOf (r : StepResult) : MergeState :=
  match r with
  | StepBreak st | StepPanic st | StepReturn st | StepSent _ _ st _ => st
  end.

(** Two sequence ids that differ at most in the clock the merger stamps on
    a live entry. *)
Definition sameSequence (a b : SequenceID) : Prop :=
  withClock None a = withClock None b.


(** What the merger has still to read of feed [i], the head it holds
    included. *)
Definition pendingAt (current : list (option ChangeEntry)) (feeds : list Feed)
    (i : nat) : list ChangeEntry :=
  match current !! i, feeds !! i with
  | Some cur, Some feed => option_list cur ++ default [] feed
  | _, _ => []
  end.

Global Arguments cut : simpl never.
Global Arguments spend : simpl never.




(** Two options that differ at most in [Limit]. *)
Definition sameButLimit (o1 o2 : ChangesOptions) : Prop :=
  withLimit 0 o1 = withLimit 0 o2.



Definition isChange (o : Output) : bool :=
  match o with
  | Change _ => true
  | _ => false
  end.


(** ** Instances of the collaborators

    The functions below stand for the parts of the system the feed is
    parametric in; they are used to run the model on the scenarios of the
    specification. *)

Module Sample.

(** Modelled from the spec: [SequenceID.VbucketSequenceBefore] is declared
    elsewhere in the repository; the cursor is strictly before the position
    [(vb, seq)] within its vbucket. *)
Definition VbucketSequenceBefore (s : SequenceID) (vb seq : Z) : bool :=
  if bool_decide (vbNo s = vb) then Seq s <? seq else vbNo s <? vb.

(** Modelled from the spec: [makeChangeEntry] is declared elsewhere in the
    repository; the entry carries the id and the revision of the log entry and
    the sequence id it is given. *)
Definition makeChangeEntry (logEntry : LogEntry) (seqID : SequenceID)
    (channel : string) : ChangeEntry :=
  {| ceSeq := seqID; ID := DocID logEntry; Changes := [RevID logEntry];
     Removed := if Z.testbit (Flags logEntry) 1 then Some {[ channel ]} else None;
     Doc := None; Err := "" |}.

(** Modelled from the spec: [SequenceID.Before] is declared elsewhere in the
    repository. Live entries compare by [(seq, vbNo)], backfill entries by
    [(triggeredBy, vbNo, seq)], and a backfill entry precedes a live one. *)
Definition Before (a b : SequenceID) : bool :=
  match bool_decide (TriggeredBy a = 0), bool_decide (TriggeredBy b = 0) with
  | true, true =>
      (Seq a <? Seq b) || (bool_decide (Seq a = Seq b) && (vbNo a <? vbNo b))
  | false, false =>
      (TriggeredBy a <? TriggeredBy b)
      || (bool_decide (TriggeredBy a = TriggeredBy b)
          && ((vbNo a <? vbNo b)
              || (bool_decide (vbNo a = vbNo b) && (Seq a <? Seq b))))
  | false, true => true
  | true, false => false
  end.

(** A hasher that never fails: the hash spells the sequence of vbucket 1 and
    of vbucket 2. *)
Definition GetHash (c : SequenceClockImpl) : result string :=
  Ok ("#" +:+ pretty (GetSequence c 1) +:+ "-" +:+ pretty (GetSequence c 2)).

Definition docLayer (entry : ChangeEntry) (options : ChangesOptions)
  : option string * list string :=
  (Some "{}", Changes entry).

Definition VBHash (docID : string) : Z := Z.of_nat (String.length docID) `mod` 1024.

Definition options0 (since : SequenceID) : ChangesOptions :=
  {| Since := since; Limit := 0; Conflicts := false; IncludeDocs := false;
     Wait := false; Continuous := false |}.

Definition clockOf (l : list (Z * Z)) : SequenceClockImpl :=
  {| value := list_to_map l; hashedValue := "" |}.

Definition sinceOf (clock : loc) : SequenceID :=
  {| SeqType := ClockSequenceType; TriggeredBy := 0; Seq := 0;
     Clock := Some clock; TriggeredByClock := None; vbNo := 0;
     TriggeredByVbNo := 0 |}.

End Sample.

(** ** Scenarios

    The inputs of the scenarios the properties are run on. *)

Module Scenario.

Import Sample.

Definition logEntry (id : string) (vb seq : Z) : LogEntry :=
  {| DocID := id; RevID := "1-" +:+ id; Sequence := seq; VbNo := vb; Flags := 0 |}.

(** A removal from the channel: the flag that makes [makeChangeEntry] fill
    [Removed]. *)
Definition removal (id : string) (vb seq : Z) : LogEntry :=
  {| DocID := id; RevID := "2-" +:+ id; Sequence := seq; VbNo := vb; Flags := 2 |}.

(** An environment with no principal, whose cache answers [cache], in which
    the terminator never fires and the wait ends the feed. *)
Definition quiet (cache : string → result (list LogEntry)) : World :=
  {| w_user := None; w_available := [];
     w_GetChanges := λ name _ _, cache name;
     w_feedTerminator := λ _, None; w_terminator := None;
     w_Wait := false; w_terminated := false;
     w_checkForUserUpdates := λ n, Ok (n, None) |}.

(** The same with the terminator fired from the start. *)
Definition fired (cache : string → result (list LogEntry)) : World :=
  {| w_user := None; w_available := [];
     w_GetChanges := λ name _ _, cache name;
     w_feedTerminator := λ _, Some 0%nat; w_terminator := Some 0%nat;
     w_Wait := true; w_terminated := true;
     w_checkForUserUpdates := λ n, Ok (n, None) |}.

(** Simple merge: channel A holds x at (vb 1, seq 5), channel B holds y at
    (vb 2, seq 3); the cursor is the empty clock, at location 0. *)
Definition emptyCursor : Store := [clockOf []].

Definition cacheAB (name : string) : result (list LogEntry) :=
  if decide (name = "A") then Ok [logEntry "x" 1 5]
  else if decide (name = "B") then Ok [logEntry "y" 2 3]
  else Ok [].

Definition feedsAB : list (list ChangeEntry) :=
  [ [makeChangeEntry (logEntry "x" 1 5) (liveSeqID (logEntry "x" 1 5)) "A"];
    [makeChangeEntry (logEntry "y" 2 3) (liveSeqID (logEntry "y" 2 3)) "B"] ].

(** Coalesce: both channels hold the removal of z at (vb 1, seq 7). *)
Definition feedsZ : list (list ChangeEntry) :=
  [ [makeChangeEntry (removal "z" 1 7) (liveSeqID (removal "z" 1 7)) "A"];
    [makeChangeEntry (removal "z" 1 7) (liveSeqID (removal "z" 1 7)) "B"] ].

Definition mergeZ : MergeState :=
  {| mFeeds := Some <$> feedsZ; mCurrent := [None; None];
     mStore := emptyCursor ++ [clockOf []];
     mOptions := options0 (sinceOf 0%nat); mHashCalls := [] |}.

(** Start of a backfill: the cursor has vb 2 at 4 and channel C is granted at
    (vb 2, seq 10). *)
Definition cursorAt4 : Store := [clockOf [(2, 4)]].

Definition grantC : VbSequence := {| gVbNo := Some 2; gSequence := 10 |}.

(** A backfill under way: the triggered-by clock, at location 0, has vb 2 at
    10; the live clock, at location 1, has vb 2 at 4; the cursor stands at
    (vb 2, seq 9). *)
Definition resumeStore : Store := [clockOf [(2, 10)]; clockOf [(2, 4)]].

Definition resumeSince : SequenceID :=
  {| SeqType := ClockSequenceType; TriggeredBy := 10; Seq := 9;
     Clock := Some 1%nat; TriggeredByClock := Some 0%nat; vbNo := 2;
     TriggeredByVbNo := 2 |}.

Definition logC : list LogEntry :=
  [logEntry "p" 2 6; logEntry "q" 2 9; logEntry "r" 2 10; logEntry "s" 2 12].

(** A second channel, granted at (vb 3, seq 20) while that backfill is under
    way. *)
Definition grantD : VbSequence := {| gVbNo := Some 3; gSequence := 20 |}.

(** A cache with nothing in it. *)
Definition cacheEmpty (name : string) : result (list LogEntry) := Ok [].

(** The options of a long poll. *)
Definition longPoll (since : SequenceID) : ChangesOptions :=
  {| Since := since; Limit := 0; Conflicts := false; IncludeDocs := false;
     Wait := true; Continuous := false |}.

(** A cache that fails for channel A. *)
Definition cacheFails (name : string) : result (list LogEntry) :=
  if decide (name = "A") then Failed "bucket unavailable" else Ok [].

End Scenario.

(** ** Vocabulary of the further properties *)

(** The heads the merger holds, in the order of the slots. *)
Fixpoint heldHeads (current : list (option ChangeEntry)) : list ChangeEntry :=
  match current with
  | [] => []
  | Some e :: rest => e :: heldHeads rest
  | None :: rest => heldHeads rest
  end.

(** What is left in the feeds the merger has not seen closed. *)
Fixpoint queuedEntries (feeds : list Feed) : list ChangeEntry :=
  match feeds with
  | [] => []
  | Some q :: rest => q ++ queuedEntries rest
  | None :: rest => queuedEntries rest
  end.

(** The entries the merger has still to deal with. *)
Definition waiting (st : MergeState) : list ChangeEntry :=
  heldHeads (mCurrent st) ++ queuedEntries (mFeeds st).

(** An entry as a producer makes it: of the clock type, without a clock, and
    with a triggered-by clock when it has a triggering sequence. *)
Definition produced (x : ChangeEntry) : Prop :=
  SeqType (ceSeq x) = ClockSequenceType
  ∧ Clock (ceSeq x) = None
  ∧ (TriggeredBy (ceSeq x) ≠ 0 → TriggeredByClock (ceSeq x) ≠ None).

Global Instance backfillOf_dec (tbc : loc) (e : ChangeEntry) :
  Decision (backfillOf tbc e).
Proof. unfold backfillOf. apply _. Defined.




(** The nil sentinel, and the error entry, on the output. *)
Definition isIdle (o : Output) : bool :=
  match o with
  | Idle => true
  | _ => false
  end.

Definition isFailure (o : Output) : bool :=
  match o with
  | Failure _ => true
  | _ => false
  end.

(** The cursor is read through a clock that is in the store. *)
Definition cursorValid (h : Store) (options : ChangesOptions) : Prop :=
  ∃ l, getChangesClock (Since options) = Some l ∧ (l < length h)%nat.

(** ** Scenarios of the further properties *)

Module Further.

Import Sample Scenario.

(** A principal whose document is at sequence 3. *)
Definition alice : User :=
  {| userName := "alice"; userDocID := "_sync:user:alice"; userSequence := 3 |}.


(** A document layer with nothing to add. *)
Definition noDocs (entry : ChangeEntry) (options : ChangesOptions)
  : option string * list string :=
  (None, []).

(** A hasher that is down. *)
Definition hasherDown (c : SequenceClockImpl) : result string :=
  Failed "hasher unavailable".

(** The options of a continuous feed. *)
Definition continuousFeed (since : SequenceID) : ChangesOptions :=
  {| Since := since; Limit := 0; Conflicts := false; IncludeDocs := false;
     Wait := true; Continuous := true |}.

(** The backfill of [resumeStore] with the cursor standing at (vb 2, seq 5):
    three entries of [logC] are still to be sent as backfill. *)
Definition earlySince : SequenceID :=
  {| SeqType := ClockSequenceType; TriggeredBy := 10; Seq := 5;
     Clock := Some 1%nat; TriggeredByClock := Some 0%nat; vbNo := 2;
     TriggeredByVbNo := 2 |}.

(** The feed of channel C for that backfill. *)
Definition feedsC : list (list ChangeEntry) :=
  [feedBody VbucketSequenceBefore makeChangeEntry resumeStore "C"
     (options0 earlySince) logC None].

(** The state of the first pass of the simple merge: the cursor clock at
    location 0 and the cumulative clock at location 1. *)
Definition startAB : OuterState :=
  {| oStore := emptyCursor ++ [clockOf []];
     oOptions := options0 (sinceOf 0%nat);
     oUserChangeCount := 0; oAddedChannels := None; oHashCalls := [] |}.

Definition mergeAB : MergeState :=
  {| mFeeds := Some <$> feedsAB; mCurrent := [None; None];
     mStore := emptyCursor ++ [clockOf []];
     mOptions := options0 (sinceOf 0%nat); mHashCalls := [] |}.

(** The same merge over the backfill feed of channel C, with the cumulative
    clock at location 2. *)
Definition mergeC : MergeState :=
  {| mFeeds := Some <$> feedsC; mCurrent := [None];
     mStore := resumeStore ++ [clockOf [(2, 4)]];
     mOptions := options0 earlySince; mHashCalls := [] |}.

End Further.

(** * Properties *)

(** ** The per-channel feed *)

Lemma cut_nil {A} (t : Terminator) : cut t (@nil A) = [].
Proof. unfold cut. destruct t as [n|]; [by rewrite take_nil | done]. Qed.

Lemma cut_fmap {A B} (f : A → B) t (l : list A) : cut t (f <$> l) = f <$> cut t l.
Proof. unfold cut. destruct t; [by rewrite fmap_take | done]. Qed.

Lemma cut_app {A} (t : Terminator) (l1 l2 : list A) :
  cut t (l1 ++ l2) =
  cut t l1 ++ match spend t (length l1) with
              | Some t' => cut t' l2
              | None => []
              end.
Proof.
  unfold cut, spend. destruct t as [n|]; [|done].
  rewrite take_app. destruct (decide _); [done|].
  replace (n - length l1)%nat with 0%nat by lia. by rewrite take_0.
Qed.

Lemma cut_sublist {A} (t : Terminator) (l : list A) : cut t l `sublist_of` l.
Proof. unfold cut. destruct t; [apply sublist_take | done]. Qed.

Lemma select_spend t : select t = spend t 1.
Proof.
  unfold select, spend. destruct t as [[|n]|]; try done.
  destruct (decide _); [|lia]. do 2 f_equal. lia.
Qed.

Lemma spend_0 t : spend t 0 = Some t.
Proof.
  unfold spend. destruct t as [n|]; [|done].
  destruct (decide _); [|lia]. do 2 f_equal. lia.
Qed.

Lemma spend_S t k :
  spend t (S k) = t' ← select t; spend t' k.
Proof.
  unfold select, spend. destruct t as [[|n]|]; try done.
  cbn [mbind option_bind].
  do 2 destruct (decide _); try lia; done.
Qed.

Lemma cut_cons {A} t (x : A) l :
  cut t (x :: l) = match select t with
                   | None => []
                   | Some t' => x :: cut t' l
                   end.
Proof. by destruct t as [[|n]|]. Qed.

Lemma filter_disjoint_submseteq {A} (P Q : A → Prop)
    `{!∀ x, Decision (P x)} `{!∀ x, Decision (Q x)} (l : list A) :
  (∀ x, P x → Q x → False) →
  filter P l ++ filter Q l ⊆+ l.
Proof.
  intros HPQ. induction l as [|x l IH]; [done|].
  rewrite !filter_cons.
  destruct (decide (P x)) as [HP|HP], (decide (Q x)) as [HQ|HQ].
  - destruct (HPQ x HP HQ).
  - simpl. by apply submseteq_skip.
  - etrans; [|apply submseteq_skip, IH].
    by rewrite <- Permutation_middle.
  - by apply submseteq_cons.
Qed.

Section FeedProperties.

Variable VbucketSequenceBefore : SequenceID → Z → Z → bool.
Variable makeChangeEntry : LogEntry → SequenceID → string → ChangeEntry.

Local Abbreviation sendBackfill := (sendBackfill VbucketSequenceBefore makeChangeEntry).
Local Abbreviation sendRemaining := (sendRemaining makeChangeEntry).
Local Abbreviation feedBody := (feedBody VbucketSequenceBefore makeChangeEntry).
Local Abbreviation isPending := (isPending VbucketSequenceBefore).
Local Abbreviation backfillEntry options channel :=
  (λ L, makeChangeEntry L (backfillSeqID options L) channel).
Local Abbreviation liveEntry channel :=
  (λ L, makeChangeEntry L (liveSeqID L) channel).
Local Abbreviation strip tbc :=
  (λ L : LogEntry, if isBackfill tbc L then None else Some L).

Lemma sendBackfill_spec tbc options channel log t :
  sendBackfill tbc options channel log t =
  let all := filter (λ L, isBackfill tbc L && isPending options L) log in
  (backfillEntry options channel <$> cut t all,
   t' ← spend t (length all); Some (strip tbc <$> log, t')).
Proof.
  revert t. induction log as [|L log IH]; intros t; simpl.
  - rewrite filter_nil, cut_nil, spend_0. done.
  - rewrite filter_cons.
    destruct (isBackfill tbc L) eqn:HB, (isPending options L) eqn:HP;
      cbn [andb]; destruct (decide _) as [H|H]; try done;
      try (exfalso; apply H; done).
    + cbn [length]. rewrite cut_cons, spend_S.
      destruct (select t) as [t'|]; simpl; [|done].
      rewrite IH. simpl. destruct (spend t' _); simpl; done.
    + rewrite IH. simpl. destruct (spend t _); simpl; done.
    + rewrite IH. simpl. destruct (spend t _); simpl; done.
    + rewrite IH. simpl. destruct (spend t _); simpl; done.
Qed.

Lemma sendRemaining_spec channel (log : list (option LogEntry)) t :
  sendRemaining channel log t = liveEntry channel <$> cut t (omap id log).
Proof.
  revert t. induction log as [|[L|] log IH]; intros t; simpl.
  - by rewrite cut_nil.
  - rewrite cut_cons. destruct (select t); simpl; [|done]. by rewrite IH.
  - apply IH.
Qed.

Lemma omap_strip tbc (log : list LogEntry) :
  omap id (strip tbc <$> log) = filter (λ L, negb (isBackfill tbc L)) log.
Proof.
  induction log as [|L log IH]; [done|]. rewrite fmap_cons, filter_cons.
  destruct (isBackfill tbc L); cbn [negb omap list_omap];
    destruct (decide _) as [H|H]; try done; try (exfalso; apply H; done).
  simpl. by rewrite <- IH.
Qed.

(** What the producer sends when a backfill was asked for: the backfill
    entries that are pending, then the entries above the frontier, up to the
    terminator. *)
Lemma feedBody_backfill h channel options log t l :
  TriggeredByClock (Since options) = Some l →
  feedBody h channel options log t =
  cut t ((backfillEntry options channel <$>
            filter (λ L, isBackfill (clockAt h l) L && isPending options L) log)
         ++ (liveEntry channel <$>
               filter (λ L, negb (isBackfill (clockAt h l) L)) log)).
Proof.
  intros Hl. unfold feedBody. rewrite Hl, sendBackfill_spec. simpl.
  rewrite cut_app, length_fmap, cut_fmap.
  destruct (spend t _) as [t'|]; simpl.
  - by rewrite sendRemaining_spec, omap_strip, cut_fmap.
  - by rewrite app_nil_r.
Qed.

Lemma feedBody_live h channel options log t :
  TriggeredByClock (Since options) = None →
  feedBody h channel options log t = cut t (liveEntry channel <$> log).
Proof.
  intros Hl. unfold feedBody. rewrite Hl, sendRemaining_spec, cut_fmap.
  do 2 f_equal. induction log as [|L log IH]; [done|].
  rewrite fmap_cons. cbn [omap list_omap]. simpl. by rewrite IH.
Qed.


(** C10.  A backfill pass sets to nil every log entry at or below the
    triggered-by frontier of its vbucket, sent or not, so the second loop
    sends none of them: the feed is made of backfill entries for log entries
    at or below the frontier followed by plain entries for log entries above
    it, and these log entries, taken together, are drawn from the log
    without repetition. *)
Theorem feed_sends_each_log_entry_at_most_once
    (h : Store) (channel : string) (options : ChangesOptions)
    (log : list LogEntry) (t : Terminator) :
  let frontier (L : LogEntry) : bool :=
    match TriggeredByClock (Since options) with
    | Some l => isBackfill (clockAt h l) L
    | None => false
    end in
  (∀ l log' t',
     TriggeredByClock (Since options) = Some l →
     (sendBackfill (clockAt h l) options channel log t).2 = Some (log', t') →
     log' = (λ L, if frontier L then None else Some L) <$> log)
  ∧ ∃ picked passed : list LogEntry,
      feedBody h channel options log t =
        (backfillEntry options channel <$> picked)
        ++ (liveEntry channel <$> passed)
      ∧ picked ++ passed ⊆+ log
      ∧ Forall (λ L, frontier L = true) picked
      ∧ Forall (λ L, frontier L = false) passed.
Proof.
  intros frontier. split.
  - intros l log' t' Hl. rewrite sendBackfill_spec. cbn [snd].
    destruct (spend t _); [|done]. simpl. intros [= <- _].
    subst frontier. cbn beta. by rewrite Hl.
  - subst frontier. destruct (TriggeredByClock (Since options)) as [l|] eqn:Hl.
    + set (fB := filter (λ L, isBackfill (clockAt h l) L && isPending options L) log).
      set (fL := filter (λ L, negb (isBackfill (clockAt h l) L)) log).
      exists (cut t fB),
        (match spend t (length fB) with Some t' => cut t' fL | None => [] end).
      split; [|split; [|split]].
      * rewrite (feedBody_backfill _ _ _ _ _ _ Hl), cut_app, length_fmap.
        fold fB fL. rewrite cut_fmap. f_equal.
        destruct (spend t _); [by rewrite cut_fmap | done].
      * rewrite <- cut_app.
        etrans; [apply sublist_submseteq, cut_sublist|].
        apply filter_disjoint_submseteq.
        intros L [HB _]%andb_prop_elim HN. by destruct (isBackfill _ L).
      * apply Forall_forall. intros L HL.
        apply (λ H, elem_of_sublist _ _ _ H (cut_sublist _ _)) in HL.
        apply list_elem_of_filter in HL as [[HB _]%andb_prop_elim _].
        by apply Is_true_true.
      * apply Forall_forall. intros L HL.
        destruct (spend t _); [|by apply elem_of_nil in HL].
        apply (λ H, elem_of_sublist _ _ _ H (cut_sublist _ _)) in HL.
        apply list_elem_of_filter in HL as [HB _].
        by destruct (isBackfill _ L).
    + exists [], (cut t log). split; [|split; [|split]].
      * by rewrite (feedBody_live _ _ _ _ _ Hl), cut_fmap.
      * apply sublist_submseteq, cut_sublist.
      * constructor.
      * by apply Forall_forall.
Qed.

End FeedProperties.

(** ** The backfill planner and the cursor clock *)

Lemma sinceSequence_Some h since vb l c :
  getChangesClock since = Some l → h !! l = Some c →
  sinceSequence h since vb = Some (GetSequence c vb).
Proof. intros Hl Hc. unfold sinceSequence, deref. rewrite Hl. simpl. by rewrite Hc. Qed.

Lemma getChangesClock_withClock since c tl :
  TriggeredByClock since = Some tl →
  getChangesClock (withClock c since) = getChangesClock since.
Proof. intros H. unfold getChangesClock. simpl. by rewrite H. Qed.

Lemma backfillInProgress_spec h since vb seq :
  backfillInProgress h since vb seq = true ↔
  ∃ l, TriggeredByClock since = Some l ∧ GetSequence (clockAt h l) vb = seq.
Proof.
  unfold backfillInProgress. destruct (TriggeredByClock since) as [l|].
  - rewrite bool_decide_eq_true. split; [eauto|]. by intros (? & [= <-] & ?).
  - split; [done|]. by intros (? & ? & _).
Qed.

(** C2 (amended).  With the cursor clock [c] being the clock behind
    [getChangesClock(options.Since)], the planner hands the feed of a
    channel granted at [(seqAddedAt, vbAddedAt)] the cursor [{Seq: 0, vbNo:
    0, Clock: a new empty clock, TriggeredBy: seqAddedAt, TriggeredByVbNo:
    vbAddedAt, TriggeredByClock: a new copy of c}] exactly when the channel
    is newly added, or [seqAddedAt > 0], [c.GetSequence(vbAddedAt) <
    seqAddedAt] and
    [options.Since.TriggeredByClock.GetSequence(vbAddedAt) == seqAddedAt]
    does not hold. *)
Theorem planSince_starts_backfill
    (h : Store) (options : ChangesOptions) (userVbNo : Z)
    (addedChannels : Set_) (name : string) (vbSeqAddedAt : VbSequence)
    (l : loc) (c : SequenceClockImpl) :
  getChangesClock (Since options) = Some l →
  h !! l = Some c →
  let seqAddedAt := gSequence vbSeqAddedAt in
  let vbAddedAt := grantVbNo userVbNo vbSeqAddedAt in
  ∃ since h',
    planSince h options userVbNo addedChannels name vbSeqAddedAt = Some (since, h')
    ∧ ((since = {| SeqType := SeqTypeUndefined; Seq := 0; vbNo := 0;
                   Clock := Some (length h);
                   TriggeredBy := seqAddedAt; TriggeredByVbNo := vbAddedAt;
                   TriggeredByClock := Some (S (length h)) |}
        ∧ h' = h ++ [NewSequenceClockImpl; Copy c])
       ↔ (isNewChannel addedChannels name = true
          ∨ (0 < seqAddedAt ∧ GetSequence c vbAddedAt < seqAddedAt
             ∧ ¬ ∃ tl, TriggeredByClock (Since options) = Some tl
                       ∧ GetSequence (clockAt h tl) vbAddedAt = seqAddedAt))).
Proof.
  intros Hl Hc seqAddedAt vbAddedAt. unfold planSince.
  rewrite (sinceSequence_Some _ _ _ _ _ Hl Hc). cbn [mbind option_bind].
  fold seqAddedAt vbAddedAt.
  assert (Hlt : (l < length h)%nat) by (by eapply lookup_lt_Some).
  pose proof (backfillInProgress_spec h (Since options) vbAddedAt seqAddedAt) as Hin.
  destruct (isNewChannel addedChannels name) eqn:Hnew; cbn [orb].
  { unfold alloc, deref. rewrite Hl. cbn [mbind option_bind].
    rewrite lookup_app_l, Hc by done. cbn [mbind option_bind].
    eexists _, _. split; [reflexivity|].
    rewrite length_app, <- app_assoc. cbn [length app].
    replace (length h + 1)%nat with (S (length h)) by lia.
    split; [by left | done]. }
  unfold backfillRequired.
  destruct (0 <? seqAddedAt) eqn:H0; cbn [andb];
    [destruct (GetSequence c vbAddedAt <? seqAddedAt) eqn:H1; cbn [andb];
     [destruct (backfillInProgress h (Since options) vbAddedAt seqAddedAt)
        eqn:H2; cbn [negb]|]|].
  - (* a backfill is in progress for this channel *)
    eexists _, _. split; [reflexivity|]. split.
    + intros [_ Hh]. apply (f_equal length) in Hh.
      rewrite !length_app in Hh. simpl in Hh. lia.
    + intros [?|(_ & _ & Hn)]; [done|]. destruct Hn. by apply Hin.
  - (* a backfill is started *)
    unfold alloc, deref. rewrite Hl. cbn [mbind option_bind].
    rewrite lookup_app_l, Hc by done. cbn [mbind option_bind].
    eexists _, _. split; [reflexivity|].
    rewrite length_app, <- app_assoc. cbn [length app].
    replace (length h + 1)%nat with (S (length h)) by lia.
    split; [|done]. intros _. right. split; [lia|]. split; [lia|].
    intros Hex. apply Hin in Hex. congruence.
  - destruct (backfillInProgress h (Since options) vbAddedAt seqAddedAt);
      eexists _, _; (split; [reflexivity|]); split.
    + intros [_ Hh]. apply (f_equal length) in Hh.
      rewrite !length_app in Hh. simpl in Hh. lia.
    + intros [?|(_ & ? & _)]; [done|lia].
    + intros [_ Hh]. apply (f_equal length) in Hh.
      rewrite !length_app in Hh. simpl in Hh. lia.
    + intros [?|(_ & ? & _)]; [done|lia].
  - destruct (backfillInProgress h (Since options) vbAddedAt seqAddedAt);
      eexists _, _; (split; [reflexivity|]); split.
    + intros [_ Hh]. apply (f_equal length) in Hh.
      rewrite !length_app in Hh. simpl in Hh. lia.
    + intros [?|(? & _)]; [done|lia].
    + intros [_ Hh]. apply (f_equal length) in Hh.
      rewrite !length_app in Hh. simpl in Hh. lia.
    + intros [?|(? & _)]; [done|lia].
Qed.

(** C9.  When the cursor has a triggered-by clock, [getChangesClock] returns
    it, and every cursor read of the planning reads it: the comparison
    [sinceSeq < seqAddedAt] of the planner and the threshold [sinceSeq <
    userSeq.Seq] of the user pseudo-feed.  The outcome of both is the same
    whatever the live clock [options.Since.Clock] is (up to the [Clock]
    carried along when the cursor is handed on unchanged).  The live clock
    is what is read when there is no triggered-by clock. *)
Theorem planning_reads_triggered_by_clock
    (h : Store) (options : ChangesOptions) (tl : loc) :
  TriggeredByClock (Since options) = Some tl →
  getChangesClock (Since options) = Some tl
  ∧ (∀ vb, sinceSequence h (Since options) vb
           = c ← h !! tl; Some (GetSequence c vb))
  ∧ (∀ live userVbNo addedChannels name grant,
       (λ r, (withClock None r.1, r.2)) <$>
         planSince h (withSince (withClock live (Since options)) options)
           userVbNo addedChannels name grant
       = (λ r, (withClock None r.1, r.2)) <$>
           planSince h options userVbNo addedChannels name grant)
  ∧ (∀ live user feeds userVbNo,
       appendVectorUserFeed h user feeds
         (withSince (withClock live (Since options)) options) userVbNo
       = appendVectorUserFeed h user feeds options userVbNo)
  ∧ (∀ user feeds userVbNo c,
       h !! tl = Some c →
       appendVectorUserFeed h user feeds options userVbNo ≠ Some feeds ↔
       0 < userSequence user ∧ GetSequence c userVbNo < userSequence user)
  ∧ (∀ since, TriggeredByClock since = None →
              getChangesClock since = Clock since).
Proof.
  intros Htl.
  assert (Hg : getChangesClock (Since options) = Some tl)
    by (unfold getChangesClock; by rewrite Htl).
  assert (Hs : ∀ live vb,
    sinceSequence h (withClock live (Since options)) vb
    = sinceSequence h (Since options) vb).
  { intros. unfold sinceSequence.
    by rewrite (getChangesClock_withClock _ _ _ Htl). }
  split; [done|]. split; [|split; [|split; [|split]]].
  - intros vb. unfold sinceSequence, deref. by rewrite Hg.
  - intros live userVbNo addedChannels name grant. unfold planSince.
    cbn [Since withSince]. rewrite Hs.
    destruct (sinceSequence h (Since options) _) as [sinceSeq|]; [|done].
    cbn [mbind option_bind].
    replace (backfillInProgress h (withClock live (Since options)))
      with (backfillInProgress h (Since options)) by done.
    destruct (isNewChannel _ _ || _).
    + unfold alloc. rewrite (getChangesClock_withClock _ _ _ Htl). done.
    + destruct (backfillInProgress _ _ _ _); done.
  - intros live user feeds userVbNo. unfold appendVectorUserFeed.
    cbn [Since withSince]. by rewrite Hs.
  - intros user feeds userVbNo c Hc. unfold appendVectorUserFeed.
    rewrite (sinceSequence_Some _ _ _ _ _ Hg Hc). cbn [mbind option_bind Seq].
    destruct (0 <? userSequence user) eqn:H0.
    + destruct (GetSequence c userVbNo <? userSequence user) eqn:H1.
      * split; [lia|]. intros _ [= Hf].
        apply (f_equal length) in Hf. rewrite length_app in Hf. simpl in Hf. lia.
      * split; [done|lia].
    + split; [done|lia].
  - intros since Hn. unfold getChangesClock. by rewrite Hn.
Qed.

(** ** The merger: one step *)

Lemma unionOf_cons (r0 : Set_) (r : gset string) sets :
  unionOf (match r0 with None => Some r | Some r0' => Some (Union r0' r) end) sets
  = unionOf r0 (r :: sets).
Proof.
  unfold unionOf, Union. destruct r0 as [r0|]; simpl.
  - f_equal. set_solver.
  - f_equal. set_solver.
Qed.

Lemma clearSent_spec minSeq m i current removed :
  clearSent minSeq m i current removed
  = (clearSlot minSeq <$> current,
     unionOf removed (removedSets minSeq (Some m) i current)).
Proof.
  revert i removed. induction current as [|[cur|] rest IH]; intros i removed.
  - simpl. unfold unionOf. destruct removed; [|done].
    f_equal. simpl. f_equal. set_solver.
  - cbn [clearSent removedSets fmap list_fmap clearSlot].
    destruct (SequenceID_eqb (ceSeq cur) minSeq) eqn:Heq; cbn [andb].
    + rewrite IH. f_equal.
      destruct (bool_decide (i = m)) eqn:Him.
      * apply bool_decide_eq_true in Him as ->.
        rewrite bool_decide_eq_true_2 by done. done.
      * apply bool_decide_eq_false in Him.
        rewrite bool_decide_eq_false_2 by congruence. cbn [negb].
        destruct (Removed cur) as [r|]; [|done].
        apply unionOf_cons.
    + rewrite IH. done.
  - cbn [clearSent removedSets fmap list_fmap clearSlot]. rewrite IH. done.
Qed.

Lemma removedSets_skip_before minSeq m i current :
  (m < i)%nat →
  removedSets minSeq (Some m) i current = removedSets minSeq None i current.
Proof.
  revert i. induction current as [|cur rest IH]; intros i Hi; [done|].
  cbn [removedSets]. rewrite IH by lia.
  rewrite bool_decide_eq_false_2 by (intros [= ->]; lia). done.
Qed.

Lemma removedSets_skip minSeq m i current e :
  (i ≤ m)%nat → current !! (m - i)%nat = Some (Some e) → ceSeq e = minSeq →
  unionOf None (removedSets minSeq None i current)
  = unionOf (Removed e) (removedSets minSeq (Some m) i current).
Proof.
  revert i. induction current as [|cur rest IH]; intros i Hi Hm He; [done|].
  destruct (decide (i = m)) as [->|Hne].
  - replace (m - m)%nat with 0%nat in Hm by lia. simpl in Hm.
    injection Hm as ->. cbn [removedSets].
    unfold SequenceID_eqb. rewrite (bool_decide_eq_true_2 (ceSeq e = minSeq)) by done.
    rewrite (bool_decide_eq_true_2 (Some m = Some m)) by done.
    rewrite (bool_decide_eq_false_2 (None = Some m)) by done.
    cbn [andb negb app].
    rewrite removedSets_skip_before by lia.
    unfold unionOf. destruct (Removed e) as [r|]; simpl; [|done].
    f_equal. set_solver.
  - replace (m - i)%nat with (S (m - S i)) in Hm by lia. simpl in Hm.
    cbn [removedSets].
    rewrite (bool_decide_eq_false_2 (Some m = Some i)) by congruence.
    rewrite (bool_decide_eq_false_2 (None = Some i)) by done.
    pose proof (IH (S i) ltac:(lia) Hm He) as IH'.
    cbn [negb].
    destruct cur as [e0|]; [|exact IH'].
    destruct (SequenceID_eqb (ceSeq e0) minSeq); cbn [andb]; [|exact IH'].
    destruct (Removed e0) as [r|]; cbn [option_list app]; [|exact IH'].
    revert IH'. unfold unionOf. simpl.
    destruct (removedSets minSeq None (S i) rest),
      (Removed e), (removedSets minSeq (Some m) (S i) rest);
      simpl; intros IH'; simplify_eq; try done; f_equal; set_solver.
Qed.

Lemma length_update (h : Store) l f : length (update h l f) = length h.
Proof. unfold update. destruct (h !! l); [by rewrite length_insert | done]. Qed.

Lemma clockAt_update_ne (h : Store) l f l' :
  l ≠ l' → clockAt (update h l f) l' = clockAt h l'.
Proof.
  intros Hne. unfold clockAt, update. destruct (h !! l); [|done].
  by rewrite list_lookup_insert_ne.
Qed.

Lemma clockAt_update_eq (h : Store) l f c :
  h !! l = Some c → clockAt (update h l f) l = f c.
Proof.
  intros Hc. unfold clockAt, update. rewrite Hc.
  rewrite list_lookup_insert_eq by (by eapply lookup_lt_Some). done.
Qed.

Lemma clockAt_lookup (h : Store) l c : h !! l = Some c → clockAt h l = c.
Proof. intros Hc. unfold clockAt. by rewrite Hc. Qed.


Lemma clockAt_app (h h2 : Store) l :
  (l < length h)%nat → clockAt (h ++ h2) l = clockAt h l.
Proof. intros Hl. unfold clockAt. by rewrite lookup_app_l. Qed.

(** An update that leaves the hashed value of every clock as it is. *)
Lemma hashedValue_update (h : Store) l f l' :
  (∀ c, hashedValue (f c) = hashedValue c) →
  hashedValue (clockAt (update h l f) l') = hashedValue (clockAt h l').
Proof.
  intros Hf. destruct (decide (l = l')) as [<-|Hne].
  - destruct (h !! l) as [c|] eqn:Hc.
    + by rewrite (clockAt_update_eq _ _ _ _ Hc), (clockAt_lookup _ _ _ Hc).
    + unfold update. by rewrite Hc.
  - by rewrite clockAt_update_ne.
Qed.

Lemma hashedValue_SetMaxSequence c vb seq :
  hashedValue (SetMaxSequence c vb seq) = hashedValue c.
Proof. unfold SetMaxSequence. by destruct (_ <? _). Qed.

Lemma hashedFor_app tbc calls1 calls2 :
  hashedFor tbc (calls1 ++ calls2)
  = (hashedFor tbc calls1 + hashedFor tbc calls2)%nat.
Proof. unfold hashedFor. by rewrite filter_app, length_app. Qed.

Lemma fillCurrent_pending current feeds :
  length current = length feeds →
  let '(current1, feeds1) := fillCurrent current feeds in
  length current1 = length feeds1
  ∧ length current1 = length current
  ∧ ∀ i, pendingAt current1 feeds1 i = pendingAt current feeds i
         ∧ (current1 !! i = Some None → pendingAt current feeds i = []).
Proof.
  revert feeds. induction current as [|cur current IH]; intros [|feed feeds] Hlen;
    try done.
  simpl. specialize (IH feeds ltac:(by injection Hlen)).
  destruct (fillCurrent current feeds) as [cs fs].
  destruct IH as (Hl1 & Hl2 & IH).
  assert (Hgoal : ∀ cur1 feed1,
    option_list cur1 ++ default [] feed1 = option_list cur ++ default [] feed →
    (cur1 = None → option_list cur ++ default [] feed = []) →
    length (cur1 :: cs) = length (feed1 :: fs)
    ∧ length (cur1 :: cs) = length (cur :: current)
    ∧ ∀ i, pendingAt (cur1 :: cs) (feed1 :: fs) i
           = pendingAt (cur :: current) (feed :: feeds) i
           ∧ ((cur1 :: cs) !! i = Some None →
              pendingAt (cur :: current) (feed :: feeds) i = [])).
  { intros cur1 feed1 Hp Hn. simpl. split; [lia|]. split; [lia|].
    intros [|i]; unfold pendingAt; simpl.
    - split; [done|]. intros [= ->]. by apply Hn.
    - apply IH. }
  destruct cur as [e|]; [by apply Hgoal|].
  destruct feed as [[|e q]|]; by apply Hgoal.
Qed.

Lemma fillCurrent_count current feeds :
  let '(current1, feeds1) := fillCurrent current feeds in
  (countHeads current1 + countQueued feeds1
   = countHeads current + countQueued feeds)%nat.
Proof.
  revert feeds. induction current as [|cur current IH]; intros [|feed feeds];
    try done.
  simpl. specialize (IH feeds). destruct (fillCurrent current feeds) as [cs fs].
  destruct cur as [e|]; [destruct feed; simpl; lia|].
  destruct feed as [[|e q]|]; simpl; lia.
Qed.

Lemma clearSlot_count minSeq (current : list (option ChangeEntry)) :
  (countHeads (clearSlot minSeq <$> current) ≤ countHeads current)%nat.
Proof.
  induction current as [|[e|] current IH]; [done|..];
    rewrite fmap_cons; cbn [clearSlot countHeads]; [|done].
  destruct (SequenceID_eqb _ _); cbn [countHeads]; lia.
Qed.

Lemma clearSlot_count_lt minSeq (current : list (option ChangeEntry)) m e :
  current !! m = Some (Some e) → ceSeq e = minSeq →
  (countHeads (clearSlot minSeq <$> current) < countHeads current)%nat.
Proof.
  revert m. induction current as [|cur current IH]; intros [|m] Hm He; try done;
    rewrite fmap_cons.
  - injection Hm as ->. cbn [clearSlot countHeads]. unfold SequenceID_eqb.
    rewrite bool_decide_eq_true_2 by done.
    pose proof (clearSlot_count minSeq current). cbn [countHeads]. lia.
  - simpl in Hm. specialize (IH m Hm He).
    destruct cur as [e'|]; cbn [clearSlot countHeads]; [|done].
    destruct (SequenceID_eqb _ _); cbn [countHeads]; lia.
Qed.

Section MergerProperties.

Variable Before : SequenceID → SequenceID → bool.
Variable GetHash : SequenceClockImpl → result string.
Variable docLayer : ChangeEntry → ChangesOptions → option string * list string.

Local Abbreviation findMin := (findMin Before).
Local Abbreviation addDocToChangeEntry := (addDocToChangeEntry docLayer).
Local Abbreviation stampClock := (stampClock GetHash).
Local Abbreviation mergeStep := (mergeStep Before GetHash docLayer).
Local Abbreviation mergeLoop := (mergeLoop Before GetHash docLayer).
Local Abbreviation runMerge := (runMerge Before GetHash docLayer).

Lemma findMin_found current i s0 o0 s m e :
  findMin current i s0 o0 = (s, Some (m, e)) →
  (o0 = Some (m, e) ∧ s = s0)
  ∨ ((i ≤ m)%nat ∧ current !! (m - i)%nat = Some (Some e) ∧ ceSeq e = s).
Proof.
  revert i s0 o0. induction current as [|[cur|] rest IH]; intros i s0 o0 H.
  - simpl in H. injection H as <- <-. by left.
  - simpl in H.
    destruct (Before (ceSeq cur) s0); apply IH in H as [[Ho ->]|(Hi & Hm & He)].
    + injection Ho as <- <-. right. by rewrite Nat.sub_diag.
    + right. split; [lia|]. split; [|done].
      by replace (m - i)%nat with (S (m - S i)) by lia.
    + by left.
    + right. split; [lia|]. split; [|done].
      by replace (m - i)%nat with (S (m - S i)) by lia.
  - simpl in H. apply IH in H as [[Ho ->]|(Hi & Hm & He)].
    + by left.
    + right. split; [lia|]. split; [|done].
      by replace (m - i)%nat with (S (m - S i)) by lia.
Qed.

Lemma findMin_head current s m e :
  findMin current 0 MaxSequenceID None = (s, Some (m, e)) →
  current !! m = Some (Some e) ∧ ceSeq e = s.
Proof.
  intros [[? _]|(_ & Hm & He)]%findMin_found; [done|].
  by rewrite Nat.sub_0_r in Hm.
Qed.

(** What the stamping leaves alone. *)
Lemma stampClock_entry h cum e e' h' calls :
  stampClock h cum e = Some (e', h', calls) →
  e' = withSeq (ceSeq e') e
  ∧ withClock None (ceSeq e') = withClock None (ceSeq e)
  ∧ (TriggeredBy (ceSeq e) ≠ 0 → e' = e).
Proof.
  unfold stampClock. case_bool_decide as HT.
  - intros [= <- _ _]. by destruct e as [[]].
  - destruct (TriggeredByClock (ceSeq e)) as [tbc|]; [|done].
    cbn [mbind option_bind]. case_bool_decide; intros [= <- _ _];
      by destruct e as [[]].
Qed.

(** What an iteration that writes an entry did on the way. *)
Lemma mergeStep_sent cum t st e t' st' stop :
  mergeStep cum t st = StepSent e t' st' stop →
  ∃ minSeq m minEntry0 minEntry2 calls,
    let current := (fillCurrent (mCurrent st) (mFeeds st)).1 in
    let feeds := (fillCurrent (mCurrent st) (mFeeds st)).2 in
    let options := mOptions st in
    findMin current 0 MaxSequenceID None = (minSeq, Some (m, minEntry0))
    ∧ minEntry2 =
        (let minEntry1 :=
           withRemoved (clearSent minSeq m 0 current (Removed minEntry0)).2
             minEntry0 in
         if IncludeDocs options || Conflicts options
         then addDocToChangeEntry minEntry1 options else minEntry1)
    ∧ stampClock (mStore st) cum minEntry2 = Some (e, mStore st', calls)
    ∧ select t = Some t'
    ∧ stop = limitReached options
    ∧ st' = {| mFeeds := feeds;
               mCurrent := (clearSent minSeq m 0 current (Removed minEntry0)).1;
               mStore := mStore st';
               mOptions := if stop then countDown options
                           else advanceSince cum (countDown options);
               mHashCalls := mHashCalls st ++ calls |}.
Proof.
  unfold mergeStep.
  destruct (fillCurrent _ _) as [current feeds].
  destruct (findMin _ _ _ _) as [minSeq [[m minEntry0]|]] eqn:Hmin;
    [|done].
  destruct (clearSent _ _ _ _ _) as [current' removed] eqn:Hclear.
  destruct (stampClock _ _ _) as [[[e0 h] calls]|] eqn:Hstamp; [|done].
  destruct (select t) as [t0|]; [|done].
  destruct (limitReached _) eqn:Hlim; intros [= <- <- <- <-];
    exists minSeq, m, minEntry0; eexists _, calls; cbn [fst snd mStore];
    rewrite Hclear; cbn [fst snd]; eauto 10.
Qed.

(** C7.  In a step of the merge that writes an entry, every head whose
    sequence id equals (by [==], backfill fields included) that of the
    minimum entry is cleared and the other heads are left as they are; the
    [Removed] of each cleared head other than the minimum entry, when it is
    not nil, is joined to the [Removed] of the minimum entry.  So the
    [Removed] of the entry written is the union of the [Removed] sets of the
    heads at that sequence id (nil when all of them are nil). *)
Theorem coalesce_clears_and_unions_removed
    (cum : loc) (t : Terminator) (st : MergeState)
    (e : ChangeEntry) (t' : Terminator) (st' : MergeState) (stop : bool) :
  mergeStep cum t st = StepSent e t' st' stop →
  let current := (fillCurrent (mCurrent st) (mFeeds st)).1 in
  ∃ minSeq m minEntry,
    findMin current 0 MaxSequenceID None = (minSeq, Some (m, minEntry))
    ∧ current !! m = Some (Some minEntry)
    ∧ ceSeq minEntry = minSeq
    ∧ length (mCurrent st') = length current
    ∧ (∀ i cur, current !! i = Some (Some cur) →
         mCurrent st' !! i
         = Some (if bool_decide (ceSeq cur = minSeq) then None else Some cur))
    ∧ Removed e
      = unionOf (Removed minEntry) (removedSets minSeq (Some m) 0 current)
    ∧ Removed e = unionOf None (removedSets minSeq None 0 current).
Proof.
  intros (minSeq & m & minEntry0 & minEntry2 & calls & Hmin & H2 & Hstamp
          & _ & _ & Hst')%mergeStep_sent current.
  fold current in Hmin, H2, Hst'.
  destruct (findMin_head _ _ _ _ Hmin) as [Hm He].
  exists minSeq, m, minEntry0. rewrite clearSent_spec in H2, Hst'.
  cbn [fst snd] in H2, Hst'.
  assert (HR : Removed e
    = unionOf (Removed minEntry0) (removedSets minSeq (Some m) 0 current)).
  { apply stampClock_entry in Hstamp as (-> & _ & _). subst minEntry2.
    unfold addDocToChangeEntry.
    destruct (_ || _); [destruct (docLayer _ _)|]; done. }
  split; [done|]. split; [done|]. split; [done|].
  rewrite Hst'. cbn [mCurrent]. split; [by rewrite length_fmap|].
  split; [|split; [done|]].
  - intros i cur Hi. rewrite list_lookup_fmap, Hi. done.
  - rewrite HR. symmetry. apply (removedSets_skip _ _ _ _ minEntry0); [lia| |done].
    by rewrite Nat.sub_0_r.
Qed.





(** Every iteration that writes an entry takes a head away. *)
Lemma mergeStep_pending cum t st e t1 st1 stop :
  mergeStep cum t st = StepSent e t1 st1 stop →
  (pending st1 < pending st)%nat.
Proof.
  intros (minSeq & m & e0 & e2 & calls & Hmin & _ & _ & _ & _ & Hst1)%mergeStep_sent.
  pose proof (fillCurrent_count (mCurrent st) (mFeeds st)) as Hfill.
  destruct (fillCurrent (mCurrent st) (mFeeds st)) as [c1 f1].
  cbn [fst snd] in *.
  destruct (findMin_head _ _ _ _ Hmin) as [Hm He0].
  rewrite Hst1. unfold pending. cbn [mCurrent mFeeds].
  rewrite clearSent_spec. cbn [fst].
  pose proof (clearSlot_count_lt minSeq c1 m e0 Hm He0). lia.
Qed.

(** The inner loop ends by itself: with more steps than entries to deal with
    it never runs out of steps. *)
Lemma mergeLoop_fuel fuel cum t st :
  (pending st < fuel)%nat → (mergeLoop fuel cum t st).2 ≠ LoopFuel.
Proof.
  revert t st. induction fuel as [|fuel IH]; intros t st Hlt; [lia|].
  simpl. destruct (mergeStep cum t st) as [st1|st1|st1|e t1 st1 [|]] eqn:Hstep;
    try done.
  apply mergeStep_pending in Hstep.
  specialize (IH t1 st1 ltac:(lia)).
  by destruct (mergeLoop fuel cum t1 st1) as [[out1 st2] exit1].
Qed.

Section Ordering.

Hypothesis Before_irrefl : ∀ a, Before a a = false.
Hypothesis Before_trans :
  ∀ a b c, Before a b = true → Before b c = true → Before a c = true.
Hypothesis Before_clock :
  ∀ a b, Before a b = Before (withClock None a) (withClock None b).


Lemma findMin_min current i s0 o0 s o :
  findMin current i s0 o0 = (s, o) →
  (s = s0 ∨ Before s s0 = true)
  ∧ ∀ j h, current !! j = Some (Some h) → Before (ceSeq h) s = false.
Proof.
  revert i s0 o0. induction current as [|[cur|] rest IH]; intros i s0 o0 H.
  - simpl in H. injection H as <- <-. split; [by left|]. intros j h.
    by rewrite lookup_nil.
  - simpl in H. destruct (Before (ceSeq cur) s0) eqn:Hb.
    + apply IH in H as [Hs Hrest]. split.
      * right. destruct Hs as [->|Hs]; [done|]. by eapply Before_trans.
      * intros [|j] h Hj; [|by eapply Hrest]. injection Hj as <-.
        destruct Hs as [->|Hs]; [done|].
        destruct (Before (ceSeq cur) s) eqn:Hcs; [|done].
        by rewrite <- (Before_irrefl s), <- (Before_trans _ _ _ Hs Hcs).
    + apply IH in H as [Hs Hrest]. split; [done|].
      intros [|j] h Hj; [|by eapply Hrest]. injection Hj as <-.
      destruct Hs as [->|Hs]; [done|].
      destruct (Before (ceSeq cur) s) eqn:Hcs; [|done].
      by rewrite <- Hb, <- (Before_trans _ _ _ Hcs Hs).
  - simpl in H. apply IH in H as [Hs Hrest]. split; [done|].
    intros [|j] h Hj; [done|]. by eapply Hrest.
Qed.







End Ordering.

End MergerProperties.

(** ** The outer loop: errors and the terminator *)

Section OuterProperties.

Variable VbucketSequenceBefore : SequenceID → Z → Z → bool.
Variable makeChangeEntry : LogEntry → SequenceID → string → ChangeEntry.
Variable Before : SequenceID → SequenceID → bool.
Variable GetHash : SequenceClockImpl → result string.
Variable docLayer : ChangeEntry → ChangesOptions → option string * list string.
Variable VBHash : string → Z.

Local Abbreviation vectorChangesFeed :=
  (vectorChangesFeed VbucketSequenceBefore makeChangeEntry).
Local Abbreviation feedBody := (feedBody VbucketSequenceBefore makeChangeEntry).
Local Abbreviation openFeeds := (openFeeds VbucketSequenceBefore makeChangeEntry).
Local Abbreviation iterationFeeds :=
  (iterationFeeds VbucketSequenceBefore makeChangeEntry).
Local Abbreviation mergeStep := (mergeStep Before GetHash docLayer).
Local Abbreviation mergeLoop := (mergeLoop Before GetHash docLayer).
Local Abbreviation runMerge := (runMerge Before GetHash docLayer).
Local Abbreviation outerLoop :=
  (outerLoop VbucketSequenceBefore makeChangeEntry Before GetHash docLayer).
Local Abbreviation VectorMultiChangesFeed :=
  (VectorMultiChangesFeed VbucketSequenceBefore makeChangeEntry Before GetHash
     docLayer VBHash).

Lemma openFeeds_FeedError GetChanges feedTerminator h options userVbNo
    addedChannels channelsSince feeds :
  openFeeds GetChanges feedTerminator h options userVbNo addedChannels
    channelsSince feeds = inl FeedError →
  ∃ name grant chanOpts h' err,
    (name, grant) ∈ channelsSince
    ∧ GetChanges name chanOpts h' = Failed err.
Proof.
  revert h feeds. induction channelsSince as [|[name grant] rest IH];
    intros h feeds H; [done|].
  simpl in H.
  destruct (planSince h options userVbNo addedChannels name grant)
    as [[since h']|]; [|done].
  destruct (GetChanges name (withSince since options) h') as [log|err] eqn:Hget.
  - simpl in H. destruct (decide (length log = 0%nat));
      apply IH in H as (name' & g & o & h2 & err & Hin & Hf);
      exists name', g, o, h2, err; (split; [by right | done]).
  - exists name, grant, (withSince since options), h', err.
    split; [by left | done].
Qed.

(** C5 (amended).  [vectorChangesFeed] hands the error of
    [db.changeCache.GetChanges] back to its caller at once.  The entry point
    does not: it returns the output stream and a nil error in every case.
    The goroutine behind the stream returns as soon as a per-channel feed
    fails to open, so the stream is closed after the entries of the earlier
    iterations (empty when the first iteration fails) and carries no error
    entry. *)
Theorem feed_error_closes_stream_silently :
  (∀ h user count worlds chans options,
     (VectorMultiChangesFeed h user count worlds chans options).2 = None)
  ∧ (∀ h channel options t err,
       vectorChangesFeed h (Failed err) channel options t = Failed err)
  ∧ (∀ GetChanges feedTerminator h options userVbNo addedChannels name grant
       rest feeds since h' err,
       planSince h options userVbNo addedChannels name grant = Some (since, h') →
       GetChanges name (withSince since options) h' = Failed err →
       openFeeds GetChanges feedTerminator h options userVbNo addedChannels
         ((name, grant) :: rest) feeds = inl FeedError)
  ∧ (∀ GetChanges feedTerminator h options userVbNo addedChannels
       channelsSince feeds,
       openFeeds GetChanges feedTerminator h options userVbNo addedChannels
         channelsSince feeds = inl FeedError →
       ∃ name grant chanOpts h' err,
         (name, grant) ∈ channelsSince
         ∧ GetChanges name chanOpts h' = Failed err)
  ∧ (∀ w worlds chans userVbNo changeWaiter cum st,
       iterationFeeds w chans userVbNo st = inl FeedError →
       outerLoop (w :: worlds) chans userVbNo changeWaiter cum st
       = ([], FeedError))
  ∧ (∀ h user count w worlds chans options c,
       deref h (getChangesClock (Since options)) = Some c →
       iterationFeeds w chans
         (match user with
          | Some u => if decide (userName u = "") then 0
                      else uint16 (VBHash (userDocID u))
          | None => 0
          end)
         {| oStore := h ++ [Copy c]; oOptions := options;
            oUserChangeCount := if Wait options then count else 0;
            oAddedChannels := None; oHashCalls := [] |} = inl FeedError →
       VectorMultiChangesFeed h user count (w :: worlds) chans options
       = (([], FeedError), None)).
Proof.
  split; [done|]. split; [done|]. split; [|split; [|split]].
  - intros * Hplan Hget. simpl. by rewrite Hplan, Hget.
  - intros *. apply openFeeds_FeedError.
  - intros * Hf. simpl. by rewrite Hf.
  - intros * Hc Hf. unfold VectorMultiChangesFeed. rewrite Hc. unfold alloc.
    simpl. by rewrite Hf.
Qed.

Lemma mergeStep_select cum t st :
  match mergeStep cum t st with
  | StepReturn _ => select t = None
  | StepSent _ t' _ _ => select t = Some t'
  | _ => True
  end.
Proof.
  unfold mergeStep.
  destruct (fillCurrent _ _) as [current feeds].
  destruct (findMin _ _ _ _ _) as [minSeq [[m minEntry0]|]]; [|done].
  destruct (clearSent _ _ _ _ _) as [current' removed].
  destruct (stampClock _ _ _ _) as [[[e' h] calls]|]; [|done].
  destruct (select t) as [t'|]; [|done].
  by destruct (limitReached _).
Qed.

(** The inner loop writes an entry only through a [select] that did not
    take the terminator branch, and returns when one does. *)
Lemma mergeLoop_terminator fuel cum t st out st' exit :
  mergeLoop fuel cum t st = (out, st', exit) →
  match t with
  | Some n => (length out ≤ n)%nat ∧ (exit = LoopReturn → length out = n)
  | None => exit ≠ LoopReturn
  end.
Proof.
  revert t st out st' exit.
  induction fuel as [|fuel IH]; intros t st out st' exit Hloop.
  { injection Hloop as <- <- <-. destruct t; [split; [simpl; lia|done]|done]. }
  simpl in Hloop. pose proof (mergeStep_select cum t st) as Hsel.
  destruct (mergeStep cum t st) as [st1|st1|st1|e t1 st1 stop].
  - injection Hloop as <- <- <-. destruct t; [split; [simpl; lia|done]|done].
  - injection Hloop as <- <- <-. destruct t; [split; [simpl; lia|done]|done].
  - injection Hloop as <- <- <-. by destruct t as [[|n]|].
  - destruct stop.
    + injection Hloop as <- <- <-.
      destruct t as [[|n]|]; [done| |done]. split; [simpl; lia|done].
    + destruct (mergeLoop fuel cum t1 st1) as [[out1 st2] exit1] eqn:Hrec.
      injection Hloop as <- <- <-. apply IH in Hrec.
      destruct t as [[|n]|]; [done| |]; injection Hsel as <-; [|done].
      destruct Hrec as [Hle Hret]. split; [simpl; lia|].
      intros Hx. simpl. by rewrite (Hret Hx).
Qed.

(** C6 (amended).  Every send inside a per-channel feed and every send of a
    merged entry into the output queue is a [select] with the terminator:
    the producer sends only what goes through before the terminator branch
    is taken; in the inner loop as many entries are written as sends go
    through, and when the terminator branch is taken the goroutine returns,
    the stream ending with the entries written so far.  The terminator is
    looked at once more after each wait, and the goroutine returns there
    too.  The nil sentinel is written without the terminator being observed:
    when the terminator is found fired at every observation, the stream is
    empty or holds the one sentinel, and no entry. *)
Theorem sends_observe_terminator_but_sentinel :
  (∀ h channel options log t,
     feedBody h channel options log t
     = cut t (feedBody h channel options log None))
  ∧ (∀ fuel cum n st out st' exit,
       mergeLoop fuel cum (Some n) st = (out, st', exit) →
       (length out ≤ n)%nat ∧ (exit = LoopReturn → length out = n))
  ∧ (∀ w worlds chans userVbNo changeWaiter cum st feeds h sent mst,
       iterationFeeds w chans userVbNo st = inr (feeds, h) →
       runMerge cum (w_terminator w) feeds h (oOptions st) (oHashCalls st)
       = (sent, mst, LoopReturn) →
       outerLoop (w :: worlds) chans userVbNo changeWaiter cum st
       = (Change <$> sent, Terminated))
  ∧ (∀ w worlds chans userVbNo changeWaiter cum st,
       w_terminator w = Some 0%nat →
       w_terminated w = true →
       let stream := (outerLoop (w :: worlds) chans userVbNo changeWaiter cum st).1 in
       stream = [] ∨ stream = [Idle]).
Proof.
  split; [|split; [|split]].
  - intros h channel options log t.
    destruct (TriggeredByClock (Since options)) as [l|] eqn:Hl.
    + rewrite !(feedBody_backfill _ _ _ _ _ _ _ _ Hl). done.
    + rewrite !(feedBody_live _ _ _ _ _ _ _ Hl). done.
  - intros * Hloop. by apply mergeLoop_terminator in Hloop.
  - intros * Hfeeds Hrun. simpl. by rewrite Hfeeds, Hrun.
  - intros * Ht Hterm stream. subst stream. simpl.
    destruct (iterationFeeds w chans userVbNo st) as [exit|[feeds h]];
      [by left|].
    destruct (runMerge _ _ _ _ _ _) as [[sent mst] exit] eqn:Hrun.
    unfold runMerge in Hrun. rewrite Ht in Hrun.
    apply mergeLoop_terminator in Hrun as [Hlen _].
    destruct sent; [|simpl in Hlen; lia]. simpl.
    destruct exit; try (by left).
    destruct (negb (Continuous (mOptions mst)) && _); [by left|].
    destruct (negb changeWaiter); [by right|].
    destruct (negb (w_Wait w)); [by right|].
    rewrite Hterm. by right.
Qed.

End OuterProperties.

(** ** The limit *)








Lemma sameButLimit_withLimit o1 o2 n1 n2 :
  sameButLimit o1 o2 → sameButLimit (withLimit n1 o1) (withLimit n2 o2).
Proof. unfold sameButLimit. destruct o1, o2. simpl. by intros [= -> -> -> -> ->]. Qed.


Section LimitProperties.

Variable VbucketSequenceBefore : SequenceID → Z → Z → bool.
Variable makeChangeEntry : LogEntry → SequenceID → string → ChangeEntry.
Variable Before : SequenceID → SequenceID → bool.
Variable GetHash : SequenceClockImpl → result string.
Variable docLayer : ChangeEntry → ChangesOptions → option string * list string.
Variable VBHash : string → Z.

Local Abbreviation stampClock := (stampClock GetHash).
Local Abbreviation addDocToChangeEntry := (addDocToChangeEntry docLayer).
Local Abbreviation mergeStep := (mergeStep Before GetHash docLayer).
Local Abbreviation mergeLoop := (mergeLoop Before GetHash docLayer).
Local Abbreviation runMerge := (runMerge Before GetHash docLayer).
Local Abbreviation feedBody := (feedBody VbucketSequenceBefore makeChangeEntry).
Local Abbreviation vectorChangesFeed :=
  (vectorChangesFeed VbucketSequenceBefore makeChangeEntry).
Local Abbreviation openFeeds := (openFeeds VbucketSequenceBefore makeChangeEntry).
Local Abbreviation iterationFeeds :=
  (iterationFeeds VbucketSequenceBefore makeChangeEntry).
Local Abbreviation outerLoop :=
  (outerLoop VbucketSequenceBefore makeChangeEntry Before GetHash docLayer).
Local Abbreviation VectorMultiChangesFeed :=
  (VectorMultiChangesFeed VbucketSequenceBefore makeChangeEntry Before GetHash
     docLayer VBHash).













End LimitProperties.

(** * Scenarios *)

Section Scenarios.

Import Sample Scenario.

(** The order used in the scenarios is a strict order that does not look at
    the clock. *)
Lemma Sample_Before_irrefl a : Sample.Before a a = false.
Proof.
  unfold Sample.Before. destruct (bool_decide (TriggeredBy a = 0));
    rewrite !Z.ltb_irrefl; simpl; by rewrite ?andb_false_r.
Qed.

Lemma Sample_Before_trans a b c :
  Sample.Before a b = true → Sample.Before b c = true →
  Sample.Before a c = true.
Proof.
  unfold Sample.Before.
  destruct (bool_decide (TriggeredBy a = 0)), (bool_decide (TriggeredBy b = 0)),
    (bool_decide (TriggeredBy c = 0)); try done;
    rewrite ?orb_true_iff, ?andb_true_iff, ?orb_true_iff, ?andb_true_iff,
      ?Z.ltb_lt, ?bool_decide_eq_true; lia.
Qed.




(** Start of a backfill: channel C, granted at (vb 2, seq 10) with the
    cursor at 4 for vb 2, gets a new backfill cursor. *)
Lemma planSince_starts_backfill_witness :
  planSince cursorAt4 (options0 (sinceOf 0%nat)) 0 None "C" grantC
  = Some ({| SeqType := SeqTypeUndefined; Seq := 0; vbNo := 0;
             Clock := Some 1%nat; TriggeredBy := 10; TriggeredByVbNo := 2;
             TriggeredByClock := Some 2%nat |},
          cursorAt4 ++ [NewSequenceClockImpl; Copy (clockOf [(2, 4)])]).
Proof.
  destruct (planSince_starts_backfill cursorAt4 (options0 (sinceOf 0%nat)) 0
              None "C" grantC 0%nat (clockOf [(2, 4)]) eq_refl eq_refl)
    as (since & h' & Hplan & Hiff).
  rewrite Hplan. destruct (proj2 Hiff) as [-> ->]; [|reflexivity].
  right. split; [reflexivity|]. split; [reflexivity|].
  intros (tl & Htl & _). discriminate Htl.
Defined.



(** Coalesce: z is removed from A and from B at the same sequence; the one
    entry written has both channels in [Removed]. *)
Lemma coalesce_clears_and_unions_removed_witness :
  ∃ e t' st' stop,
    mergeStep Sample.Before GetHash docLayer 1%nat None mergeZ
    = StepSent e t' st' stop
    ∧ mCurrent st' = [None; None]
    ∧ Removed e = Some ({["A"]} ∪ {["B"]}).
Proof.
  destruct (mergeStep Sample.Before GetHash docLayer 1%nat None mergeZ)
    as [| | |e t' st' stop] eqn:Hstep; try (by vm_compute in Hstep).
  exists e, t', st', stop. split; [reflexivity|].
  destruct (coalesce_clears_and_unions_removed _ _ _ _ _ _ _ _ _ _ Hstep)
    as (minSeq & m & minEntry & Hmin & _ & _ & _ & _ & _ & HR).
  vm_compute in Hmin. injection Hmin as <- <- <-.
  vm_compute in Hstep. injection Hstep as <- <- <- <-.
  split; [reflexivity|]. vm_compute. reflexivity.
Defined.


(** A backfill under way: the cursor is read through the triggered-by clock,
    which has vb 2 at 10, not through the live clock, which has it at 4. *)
Lemma planning_reads_triggered_by_clock_witness :
  getChangesClock resumeSince = Some 0%nat
  ∧ sinceSequence resumeStore resumeSince 2 = Some 10.
Proof.
  destruct (planning_reads_triggered_by_clock resumeStore (options0 resumeSince)
              0%nat eq_refl) as (H1 & H2 & _).
  split; [exact H1 | exact (H2 2)].
Defined.

(** A backfill under way and a second channel that needs one: the
    triggered-by clock the planner hands to the feed of the second channel is
    a copy of the triggered-by clock of the cursor (vb 2 at 10), not of its
    live clock [options.Since.Clock] (vb 2 at 4). *)
Lemma planSince_copies_triggered_by_clock :
  ∃ since h',
    planSince resumeStore (options0 resumeSince) 0 None "D" grantD
    = Some (since, h')
    ∧ Seq since = 0 ∧ TriggeredBy since = 20 ∧ TriggeredByVbNo since = 3
    ∧ (c ← deref h' (TriggeredByClock since); Some (GetSequence c 2)) = Some 10
    ∧ (c ← deref resumeStore (Clock resumeSince); Some (GetSequence (Copy c) 2))
      = Some 4.
Proof. eexists _, _. split; [vm_compute; reflexivity|]. by vm_compute. Qed.

(** The cache fails for channel A: the entry point returns the stream and no
    error; the stream is closed with nothing in it. *)
Lemma feed_error_is_not_returned :
  w_GetChanges (quiet cacheFails) "A" (options0 (sinceOf 0%nat)) emptyCursor
  = Failed "bucket unavailable"
  ∧ VectorMultiChangesFeed VbucketSequenceBefore makeChangeEntry Sample.Before
      GetHash docLayer VBHash emptyCursor None 0 [quiet cacheFails] ["A"; "B"]
      (options0 (sinceOf 0%nat))
    = (([], FeedError), None).
Proof. split; by vm_compute. Qed.

(** The terminator has fired before the call of a long poll on an empty
    cache: the nil sentinel is written all the same. *)
Lemma sentinel_is_sent_after_terminator :
  w_terminator (fired cacheEmpty) = Some 0%nat
  ∧ w_terminated (fired cacheEmpty) = true
  ∧ VectorMultiChangesFeed VbucketSequenceBefore makeChangeEntry Sample.Before
      GetHash docLayer VBHash emptyCursor None 0 [fired cacheEmpty] ["A"; "B"]
      (longPoll (sinceOf 0%nat))
    = (([Idle], Terminated), None).
Proof. repeat split; by vm_compute. Qed.

(** The same failure, through the theorem: the stream is returned, with no
    error, and closed empty. *)
Lemma feed_error_closes_stream_silently_witness :
  VectorMultiChangesFeed VbucketSequenceBefore makeChangeEntry Sample.Before
    GetHash docLayer VBHash emptyCursor None 0 [quiet cacheFails] ["A"; "B"]
    (options0 (sinceOf 0%nat))
  = (([], FeedError), None).
Proof.
  destruct (feed_error_closes_stream_silently VbucketSequenceBefore
              makeChangeEntry Sample.Before GetHash docLayer VBHash)
    as (_ & _ & _ & _ & _ & H).
  apply (H emptyCursor None 0 (quiet cacheFails) [] ["A"; "B"]
           (options0 (sinceOf 0%nat)) (clockOf []));
    [reflexivity | vm_compute; reflexivity].
Defined.

(** The terminator fired before a long poll on channels that hold entries:
    none of them is written. *)
Lemma sends_observe_terminator_but_sentinel_witness :
  let stream :=
    (outerLoop VbucketSequenceBefore makeChangeEntry Sample.Before GetHash
       docLayer [fired cacheAB] ["A"; "B"] 0 true 1%nat
       {| oStore := emptyCursor ++ [clockOf []];
          oOptions := longPoll (sinceOf 0%nat);
          oUserChangeCount := 0; oAddedChannels := None; oHashCalls := [] |}).1 in
  stream = [] ∨ stream = [Idle].
Proof.
  destruct (sends_observe_terminator_but_sentinel VbucketSequenceBefore
              makeChangeEntry Sample.Before GetHash docLayer)
    as (_ & _ & _ & H).
  apply (H (fired cacheAB)); reflexivity.
Defined.

(** A backfill under way: the feed is the backfill entry for r and the plain
    entry for s, drawn from the log without repetition. *)
Lemma feed_sends_each_log_entry_at_most_once_witness :
  ∃ picked passed,
    feedBody VbucketSequenceBefore makeChangeEntry resumeStore "C"
      (options0 resumeSince) logC None
    = ((λ L, makeChangeEntry L (backfillSeqID (options0 resumeSince) L) "C")
         <$> picked)
      ++ ((λ L, makeChangeEntry L (liveSeqID L) "C") <$> passed)
    ∧ picked ++ passed ⊆+ logC.
Proof.
  destruct (proj2 (feed_sends_each_log_entry_at_most_once VbucketSequenceBefore
                     makeChangeEntry resumeStore "C" (options0 resumeSince)
                     logC None))
    as (picked & passed & H1 & H2 & _).
  exists picked, passed. split; assumption.
Defined.

(** Simple merge, end to end: y at (vb 2, seq 3) is written before x at
    (vb 1, seq 5), each with the hash of the cumulative clock, and the stream
    is closed. *)
Example simple_merge :
  let run :=
    VectorMultiChangesFeed VbucketSequenceBefore makeChangeEntry Sample.Before
      GetHash docLayer VBHash emptyCursor None 0 [quiet cacheAB] ["A"; "B"]
      (options0 (sinceOf 0%nat)) in
  (λ o, ID <$> sentValue o) <$> run.1.1 = [Some "y"; Some "x"]
  ∧ run.1.2 = Done ∧ run.2 = None.
Proof. by vm_compute. Qed.

(** A backfill under way, end to end for channel C: r is sent as backfill,
    triggered by sequence 10, and s as a plain entry. *)
Example resume_backfill :
  (λ e, (ID e, TriggeredBy (ceSeq e))) <$>
    feedBody VbucketSequenceBefore makeChangeEntry resumeStore "C"
      (options0 resumeSince) logC None
  = [("r", 10); ("s", 0)].
Proof. by vm_compute. Qed.

End Scenarios.

(** * Further properties *)

(** ** The per-channel feed: what is sent and what is left out *)

Lemma filter_length_split {A} (p q : A → bool) (l : list A) :
  (∀ x, q x = negb (p x)) →
  (length (filter p l) + length (filter q l) = length l)%nat.
Proof.
  intros Hq. induction l as [|x l IH]; [done|].
  rewrite !filter_cons. specialize (Hq x).
  repeat case_decide; destruct (p x), (q x); simpl in *; try done; lia.
Qed.

Lemma filter_false {A} (l : list A) : filter (λ _ : A, false) l = [].
Proof.
  induction l as [|x l IH]; [done|].
  rewrite filter_cons. by case_decide.
Qed.

Section FeedCoverage.

Variable VbucketSequenceBefore : SequenceID → Z → Z → bool.
Variable makeChangeEntry : LogEntry → SequenceID → string → ChangeEntry.

Local Abbreviation feedBody := (feedBody VbucketSequenceBefore makeChangeEntry).
Local Abbreviation vectorChangesFeed :=
  (vectorChangesFeed VbucketSequenceBefore makeChangeEntry).
Local Abbreviation isPending := (isPending VbucketSequenceBefore).

(** X1.  When the terminator does not fire, the only log entries the
    producer does not send are those at or below the triggered-by frontier
    that the cursor already covers ([isBackfill] and not [isPending]): the
    feed and these entries add up to the log, and every other log entry is
    sent, as a backfill entry when it is at or below the frontier and as a
    plain entry otherwise.  The backfill entries come first, and within the
    backfill entries and within the plain entries the order of the log is
    kept.  Without a triggered-by clock the feed is the log, entry by
    entry. *)
Theorem feed_leaves_out_only_covered_backfill
    (h : Store) (channel : string) (options : ChangesOptions)
    (log : list LogEntry) :
  let frontier (L : LogEntry) : bool :=
    match TriggeredByClock (Since options) with
    | Some l => isBackfill (clockAt h l) L
    | None => false
    end in
  let covered (L : LogEntry) : bool := frontier L && negb (isPending options L) in
  let feed := feedBody h channel options log None in
  (length feed + length (filter covered log) = length log)%nat
  ∧ (∀ L, L ∈ log → covered L = false →
       (if frontier L
        then makeChangeEntry L (backfillSeqID options L) channel
        else makeChangeEntry L (liveSeqID L) channel) ∈ feed)
  ∧ (∃ picked passed,
       feed = ((λ L, makeChangeEntry L (backfillSeqID options L) channel) <$> picked)
              ++ ((λ L, makeChangeEntry L (liveSeqID L) channel) <$> passed)
       ∧ picked `sublist_of` log ∧ passed `sublist_of` log)
  ∧ (TriggeredByClock (Since options) = None →
     feed = (λ L, makeChangeEntry L (liveSeqID L) channel) <$> log).
Proof.
  intros frontier covered feed. subst frontier covered feed. cbn beta.
  destruct (TriggeredByClock (Since options)) as [l|] eqn:Hl.
  - rewrite (feedBody_backfill _ _ _ _ _ _ _ _ Hl). unfold cut.
    split; [|split; [|split; [|done]]];
      [| |eexists _, _; split; [reflexivity|split; apply sublist_filter]].
    + rewrite length_app, !length_fmap.
      set (tbc := clockAt h l).
      pose proof (filter_length_split (isBackfill tbc)
                    (λ L, negb (isBackfill tbc L)) log ltac:(done)) as H1.
      pose proof (filter_length_split
                    (λ L, isBackfill tbc L && isPending options L)
                    (λ L, negb (isBackfill tbc L && isPending options L)) log
                    ltac:(done)) as H2.
      assert (H3 : (length (filter (λ L, negb (isBackfill tbc L
                                               && isPending options L)) log)
                    = length (filter (λ L, negb (isBackfill tbc L)) log)
                      + length (filter (λ L, isBackfill tbc L
                                             && negb (isPending options L)) log))%nat).
      { clear. induction log as [|L log IH]; [done|].
        rewrite !filter_cons.
        repeat case_decide;
          destruct (isBackfill tbc L), (isPending options L);
          simpl in *; try done; lia. }
      lia.
    + intros L HL Hc. apply elem_of_app.
      destruct (isBackfill (clockAt h l) L) eqn:HB.
      * left. apply list_elem_of_fmap. exists L. split; [done|].
        apply list_elem_of_filter. split; [|done]. rewrite HB. simpl in *.
        by destruct (isPending options L).
      * right. apply list_elem_of_fmap. exists L. split; [done|].
        apply list_elem_of_filter. split; [|done]. by rewrite HB.
  - rewrite (feedBody_live _ _ _ _ _ _ _ Hl). unfold cut.
    split; [|split; [|split; [|done]]];
      [| |by exists [], log; split; [|split; [apply sublist_nil_l|]]].
    + rewrite length_fmap, filter_false. simpl. lia.
    + intros L HL _. apply list_elem_of_fmap. by exists L.
Qed.

End FeedCoverage.

(** ** What enters the merger *)

Section Produced.

Variable VbucketSequenceBefore : SequenceID → Z → Z → bool.
Variable makeChangeEntry : LogEntry → SequenceID → string → ChangeEntry.
Hypothesis makeChangeEntry_Seq : ∀ L s c, ceSeq (makeChangeEntry L s c) = s.

Local Abbreviation feedBody := (feedBody VbucketSequenceBefore makeChangeEntry).
Local Abbreviation vectorChangesFeed :=
  (vectorChangesFeed VbucketSequenceBefore makeChangeEntry).
Local Abbreviation openFeeds := (openFeeds VbucketSequenceBefore makeChangeEntry).
Local Abbreviation iterationFeeds :=
  (iterationFeeds VbucketSequenceBefore makeChangeEntry).

Lemma feedBody_produced h channel options log t :
  Forall produced (feedBody h channel options log t).
Proof.
  apply Forall_forall. intros x Hx.
  destruct (TriggeredByClock (Since options)) as [l|] eqn:Hl.
  - rewrite (feedBody_backfill _ _ _ _ _ _ _ _ Hl) in Hx.
    apply (λ H, elem_of_sublist _ _ _ H (cut_sublist _ _)) in Hx.
    apply elem_of_app in Hx as [Hx|Hx];
      apply list_elem_of_fmap in Hx as (L & -> & _);
      unfold produced; rewrite makeChangeEntry_Seq; simpl; [|done].
    by rewrite Hl.
  - rewrite (feedBody_live _ _ _ _ _ _ _ Hl) in Hx.
    apply (λ H, elem_of_sublist _ _ _ H (cut_sublist _ _)) in Hx.
    apply list_elem_of_fmap in Hx as (L & -> & _).
    unfold produced. by rewrite makeChangeEntry_Seq.
Qed.

Lemma vectorChangesFeed_produced h cached channel options t feed :
  vectorChangesFeed h cached channel options t = Ok feed →
  Forall produced feed.
Proof.
  unfold vectorChangesFeed. destruct cached as [log|err]; [|done].
  destruct (decide _); intros [= <-]; [done|apply feedBody_produced].
Qed.

Lemma openFeeds_produced GetChanges feedTerminator h options userVbNo
    addedChannels channelsSince feeds0 feeds h' :
  openFeeds GetChanges feedTerminator h options userVbNo addedChannels
    channelsSince feeds0 = inr (feeds, h') →
  Forall (Forall produced) feeds0 →
  Forall (Forall produced) feeds
  ∧ length feeds = (length feeds0 + length channelsSince)%nat.
Proof.
  revert h feeds0. induction channelsSince as [|[name grant] rest IH];
    intros h feeds0; simpl.
  - intros [= <- <-] H0. split; [done|lia].
  - destruct (planSince _ _ _ _ _ _) as [[since h1]|]; [|done].
    destruct (vectorChangesFeed _ _ _ _ _) as [feed|err] eqn:Hf;
      [|done].
    intros Hopen H0. apply IH in Hopen as [H1 H2].
    + split; [done|]. rewrite H2, length_app. simpl. lia.
    + apply Forall_app. split; [done|]. apply Forall_singleton.
      by eapply vectorChangesFeed_produced.
Qed.

Lemma iterationFeeds_produced
    (w : World) (chans : list string) (userVbNo : Z) (st : OuterState)
    (feeds : list (list ChangeEntry)) (h : Store) :
  iterationFeeds w chans userVbNo st = inr (feeds, h) →
  let channelsSince :=
    match w_user w with
    | Some _ => w_available w
    | None => AtSequence chans 0
    end in
  Forall (Forall produced) feeds
  ∧ (length channelsSince ≤ length feeds ≤ S (length channelsSince))%nat
  ∧ (w_user w = None → length feeds = length chans).
Proof.
  unfold iterationFeeds.
  destruct (openFeeds _ _ _ _ _ _ _ _) as [exit|[feeds0 h0]] eqn:Ho;
    [done|].
  apply openFeeds_produced in Ho as [H1 H2]; [|done]. simpl in H2.
  destruct (w_user w) as [user|].
  - unfold appendVectorUserFeed.
    destruct (0 <? userSequence user);
      [|intros [= <- <-]; split_and!; done || lia].
    destruct (sinceSequence _ _ _) as [sinceSeq|]; simpl; [|done].
    destruct (sinceSeq <? userSequence user); intros [= <- <-];
      [|split_and!; done || lia].
    split_and!; try done; try (rewrite length_app; simpl; lia).
    apply Forall_app. split; [done|].
    apply Forall_singleton, Forall_singleton. by unfold produced.
  - intros [= <- <-]. split_and!; try done; try lia.
    intros _. rewrite H2. unfold AtSequence. by rewrite length_fmap.
Qed.

(** X2.  The feeds the planner hands to the merger hold one feed per channel
    the principal can see, followed by at most one user pseudo-feed, and
    every entry of them is as a producer makes it: its sequence id is of the
    clock type and carries no clock, and when it has a triggering sequence
    it points to a triggered-by clock (for a [makeChangeEntry] that puts on
    the entry the sequence id it is given).  So a clock found on a written
    entry is one the merger stamped. *)
Theorem planned_feeds_are_produced
    (w : World) (chans : list string) (userVbNo : Z) (st : OuterState)
    (feeds : list (list ChangeEntry)) (h : Store) :
  iterationFeeds w chans userVbNo st = inr (feeds, h) →
  let channelsSince :=
    match w_user w with
    | Some _ => w_available w
    | None => AtSequence chans 0
    end in
  Forall (Forall produced) feeds
  ∧ (length channelsSince ≤ length feeds ≤ S (length channelsSince))%nat
  ∧ (w_user w = None → length feeds = length chans).
Proof. apply iterationFeeds_produced. Qed.

Lemma withSince_Since options : withSince (Since options) options = options.
Proof. by destruct options. Qed.

Lemma openFeeds_plain GetChanges feedTerminator h options userVbNo
    (chans : list string) feeds0 feeds h' :
  TriggeredByClock (Since options) = None →
  openFeeds GetChanges feedTerminator h options userVbNo None
    (AtSequence chans 0) feeds0 = inr (feeds, h') →
  h' = h
  ∧ feeds = feeds0 ++
      ((λ name,
          match GetChanges name options h with
          | Ok log =>
              cut (feedTerminator name)
                ((λ L, makeChangeEntry L (liveSeqID L) name) <$> log)
          | Failed _ => []
          end) <$> chans).
Proof.
  intros Htbc. revert feeds0.
  induction chans as [|name chans IH]; intros feeds0; simpl.
  - intros [= <- <-]. by rewrite app_nil_r.
  - unfold planSince, backfillInProgress, sinceSequence. rewrite Htbc.
    destruct (deref h (getChangesClock (Since options))) as [c|]; simpl;
      [|done].
    rewrite withSince_Since.
    unfold vectorChangesFeed.
    destruct (GetChanges name options h) as [log|err]; [|done].
    destruct (decide (length log = 0%nat)) as [Hlen|Hlen].
    + intros Ho. apply IH in Ho as [-> ->]. split; [done|].
      destruct log; [|done]. rewrite <- app_assoc. simpl.
      by rewrite cut_nil.
    + intros Ho. apply IH in Ho as [-> ->]. split; [done|].
      rewrite <- app_assoc. simpl.
      by rewrite (feedBody_live _ _ _ _ _ _ _ Htbc).
Qed.

(** X3.  A pass for a request without principal, with no channel newly
    added and no triggered-by clock on the cursor, plans no backfill: no
    clock is allocated, every channel of the request gets a feed opened with
    the options as they are, made of one plain entry for each log entry the
    cache returns (up to the terminator), and no user pseudo-feed is
    appended. *)
Theorem pass_without_principal_plans_no_backfill
    (w : World) (chans : list string) (userVbNo : Z) (st : OuterState)
    (feeds : list (list ChangeEntry)) (h : Store) :
  w_user w = None →
  oAddedChannels st = None →
  TriggeredByClock (Since (oOptions st)) = None →
  iterationFeeds w chans userVbNo st = inr (feeds, h) →
  h = oStore st
  ∧ feeds =
      (λ name,
         match w_GetChanges w name (oOptions st) (oStore st) with
         | Ok log =>
             cut (w_feedTerminator w name)
               ((λ L, makeChangeEntry L (liveSeqID L) name) <$> log)
         | Failed _ => []
         end) <$> chans
  ∧ Forall (Forall (λ x, TriggeredBy (ceSeq x) = 0
                         ∧ TriggeredByClock (ceSeq x) = None)) feeds.
Proof.
  intros Hu Ha Htbc. unfold iterationFeeds. rewrite Hu, Ha.
  destruct (openFeeds _ _ _ _ _ _ _ _) as [exit|[feeds0 h0]] eqn:Ho; [done|].
  intros [= <- <-]. apply openFeeds_plain in Ho as [-> ->]; [|done].
  simpl. split_and!; [done|done|].
  apply Forall_fmap, Forall_forall. intros name _. simpl.
  destruct (w_GetChanges w name (oOptions st) (oStore st)) as [log|err];
    [|done].
  apply Forall_forall. intros x Hx.
  apply (λ H, elem_of_sublist _ _ _ H (cut_sublist _ _)) in Hx.
  apply list_elem_of_fmap in Hx as (L & -> & _).
  by rewrite makeChangeEntry_Seq.
Qed.




End Produced.

(** ** The merger: what it holds, what it writes and what it leaves *)

Lemma heldHeads_elem current (e : ChangeEntry) :
  e ∈ heldHeads current ↔ ∃ i, current !! i = Some (Some e).
Proof.
  induction current as [|[c|] current IH]; simpl.
  - split; [by intros ?%elem_of_nil | by intros [i ?]].
  - rewrite elem_of_cons, IH. split.
    + intros [->|[i Hi]]; [by exists 0%nat | by exists (S i)].
    + intros [[|i] Hi]; simpl in Hi; [left; congruence | right; by exists i].
  - rewrite IH. split.
    + intros [i Hi]. by exists (S i).
    + intros [[|i] Hi]; simpl in Hi; [done | by exists i].
Qed.

Lemma heldHeads_clearSlot minSeq current x :
  x ∈ heldHeads (clearSlot minSeq <$> current)
  ↔ x ∈ heldHeads current ∧ ceSeq x ≠ minSeq.
Proof.
  induction current as [|[c|] current IH].
  - simpl. rewrite elem_of_nil. naive_solver.
  - rewrite fmap_cons. cbn [clearSlot heldHeads]. unfold SequenceID_eqb.
    case_bool_decide; cbn [heldHeads]; rewrite ?elem_of_cons, IH; naive_solver.
  - rewrite fmap_cons. cbn [clearSlot heldHeads]. apply IH.
Qed.

Lemma fillCurrent_waiting current feeds x :
  let '(c1, f1) := fillCurrent current feeds in
  x ∈ heldHeads c1 ++ queuedEntries f1
  ↔ x ∈ heldHeads current ++ queuedEntries feeds.
Proof.
  revert feeds. induction current as [|cur current IH]; intros [|feed feeds];
    simpl; try done.
  specialize (IH feeds). destruct (fillCurrent current feeds) as [cs fs].
  destruct cur as [c|], feed as [[|e q]|]; simpl;
    rewrite ?elem_of_cons, ?elem_of_app, ?elem_of_cons, ?elem_of_app in *;
    naive_solver.
Qed.

(** When the slots are as many as the feeds and no head is held after the
    filling, nothing is left in the feeds. *)
Lemma fillCurrent_drained current feeds :
  length current = length feeds →
  let '(c1, f1) := fillCurrent current feeds in
  heldHeads c1 = [] → queuedEntries f1 = [].
Proof.
  revert feeds. induction current as [|cur current IH]; intros [|feed feeds];
    simpl; try done.
  intros [= Hlen]. specialize (IH feeds Hlen).
  destruct (fillCurrent current feeds) as [cs fs].
  destruct cur as [c|], feed as [[|e q]|]; simpl; try done.
Qed.

Lemma concat_elem {A} (ls : list (list A)) (l : list A) (x : A) :
  l ∈ ls → x ∈ l → x ∈ concat ls.
Proof.
  induction ls as [|l' ls IH]; [by intros ?%elem_of_nil|].
  intros [->|Hl]%elem_of_cons Hx; simpl; apply elem_of_app; [by left|].
  right. by apply IH.
Qed.

Lemma GetSequence_SetMaxSequence c vb seq vb' :
  GetSequence (SetMaxSequence c vb seq) vb'
  = if decide (vb' = vb) then Z.max (GetSequence c vb) seq
    else GetSequence c vb'.
Proof.
  unfold SetMaxSequence. destruct (GetSequence c vb <? seq) eqn:Hlt.
  - apply Z.ltb_lt in Hlt. unfold GetSequence in *. simpl.
    destruct (decide (vb' = vb)) as [->|Hne].
    + rewrite lookup_insert_eq. simpl. lia.
    + by rewrite lookup_insert_ne.
  - apply Z.ltb_ge in Hlt. destruct (decide (vb' = vb)) as [->|Hne]; [lia|done].
Qed.

Lemma GetSequence_SetMaxSequence_le c vb seq vb' :
  GetSequence c vb' ≤ GetSequence (SetMaxSequence c vb seq) vb'.
Proof.
  rewrite GetSequence_SetMaxSequence. destruct (decide _) as [->|]; lia.
Qed.

Lemma clockAt_update (h : Store) l f l' :
  clockAt (update h l f) l'
  = if decide (l = l' ∧ (l < length h)%nat) then f (clockAt h l')
    else clockAt h l'.
Proof.
  unfold update, clockAt. destruct (h !! l) as [c|] eqn:Hl.
  - apply lookup_lt_Some in Hl as Hlt.
    destruct (decide (l = l')) as [<-|Hne].
    + rewrite list_lookup_insert_eq by done. rewrite Hl.
      by rewrite decide_True.
    + rewrite list_lookup_insert_ne by done.
      rewrite decide_False; [done|]. by intros [? _].
  - apply lookup_ge_None in Hl. rewrite decide_False; [done|]. lia.
Qed.

Section MergerSteps.

Variable Before : SequenceID → SequenceID → bool.
Variable GetHash : SequenceClockImpl → result string.
Variable docLayer : ChangeEntry → ChangesOptions → option string * list string.

Local Abbreviation findMin := (findMin Before).
Local Abbreviation stampClock := (stampClock GetHash).
Local Abbreviation mergeStep := (mergeStep Before GetHash docLayer).
Local Abbreviation mergeLoop := (mergeLoop Before GetHash docLayer).
Local Abbreviation runMerge := (runMerge Before GetHash docLayer).

(** One iteration of the inner loop, read as the code goes: the filling, the
    minimum, the clearing, the stamping and the [select]. *)
Lemma mergeStep_cases cum t st :
  let '(c1, f1) := fillCurrent (mCurrent st) (mFeeds st) in
  match findMin c1 0 MaxSequenceID None with
  | (_, None) =>
      mergeStep cum t st
      = StepBreak (mkMergeState f1 c1 (mStore st) (mOptions st) (mHashCalls st))
  | (minSeq, Some (m, e0)) =>
      c1 !! m = Some (Some e0) ∧ ceSeq e0 = minSeq
      ∧ ∃ e2, ceSeq e2 = ceSeq e0 ∧ ID e2 = ID e0 ∧ Err e2 = Err e0
        ∧ match stampClock (mStore st) cum e2 with
          | None =>
              mergeStep cum t st
              = StepPanic (mkMergeState f1 (clearSlot minSeq <$> c1) (mStore st)
                             (mOptions st) (mHashCalls st))
          | Some (e, h, calls) =>
              match select t with
              | None =>
                  mergeStep cum t st
                  = StepReturn (mkMergeState f1 (clearSlot minSeq <$> c1) h
                                  (mOptions st) (mHashCalls st ++ calls))
              | Some t' =>
                  mergeStep cum t st
                  = StepSent e t'
                      (mkMergeState f1 (clearSlot minSeq <$> c1) h
                         (if limitReached (mOptions st)
                          then countDown (mOptions st)
                          else advanceSince cum (countDown (mOptions st)))
                         (mHashCalls st ++ calls))
                      (limitReached (mOptions st))
              end
          end
  end.
Proof.
  unfold mergeStep.
  destruct (fillCurrent (mCurrent st) (mFeeds st)) as [c1 f1].
  destruct (findMin c1 0 MaxSequenceID None) as [minSeq [[m e0]|]] eqn:Hmin;
    [|done].
  apply findMin_head in Hmin as [Hm Hseq].
  rewrite clearSent_spec. split; [done|]. split; [done|].
  match goal with |- context [stampClock _ _ ?x] => exists x end.
  split_and!; [| | |
    destruct (stampClock _ _ _) as [[[e h] calls]|]; [|reflexivity];
    destruct (select t); [|reflexivity];
    destruct (limitReached (mOptions st)); reflexivity].
  - destruct (IncludeDocs (mOptions st) || Conflicts (mOptions st)); [|done].
    unfold addDocToChangeEntry. by destruct (docLayer _ _).
  - destruct (IncludeDocs (mOptions st) || Conflicts (mOptions st)); [|done].
    unfold addDocToChangeEntry. by destruct (docLayer _ _).
  - destruct (IncludeDocs (mOptions st) || Conflicts (mOptions st)); [|done].
    unfold addDocToChangeEntry. by destruct (docLayer _ _).
Qed.

Ltac step_cases cum t st :=
  let Hstep := fresh "Hstep" in
  let Hfill := fresh "Hfill" in
  let Hcount := fresh "Hcount" in
  pose proof (mergeStep_cases cum t st) as Hstep;
  pose proof (fillCurrent_waiting (mCurrent st) (mFeeds st)) as Hfill;
  pose proof (fillCurrent_count (mCurrent st) (mFeeds st)) as Hcount;
  destruct (fillCurrent (mCurrent st) (mFeeds st)) as [c1 f1];
  destruct (findMin c1 0 MaxSequenceID None) as [minSeq [[m e0]|]];
  [ destruct Hstep as (Hm & Hseq & e2 & He2 & HID & HErr & Hstep);
    destruct (stampClock (mStore st) cum e2) as [[[e1 h1] calls1]|] eqn:Hstamp;
    [ destruct (select t) as [t1|] eqn:Hsel | ]
  | ].

Lemma mergeStep_waiting_sub cum t st x :
  x ∈ waiting (stateOf (mergeStep cum t st)) → x ∈ waiting st.
Proof.
  unfold waiting. step_cases cum t st; rewrite Hstep; simpl;
    rewrite <- Hfill, !elem_of_app, ?heldHeads_clearSlot; naive_solver.
Qed.

Lemma mergeStep_pending_le cum t st :
  (pending (stateOf (mergeStep cum t st)) ≤ pending st)%nat.
Proof.
  unfold pending.
  step_cases cum t st; rewrite Hstep; simpl; try lia;
    pose proof (clearSlot_count minSeq c1); lia.
Qed.

Lemma mergeStep_picks cum t st e t' st' stop :
  mergeStep cum t st = StepSent e t' st' stop →
  ∃ e0, e0 ∈ waiting st ∧ ID e = ID e0 ∧ Err e = Err e0
        ∧ sameSequence (ceSeq e) (ceSeq e0)
        ∧ ∀ x, x ∈ waiting st → x ∈ waiting st' ∨ ceSeq x = ceSeq e0.
Proof.
  unfold waiting. step_cases cum t st; rewrite Hstep; try done.
  intros [= <- <- <- <-]. simpl.
  apply stampClock_entry in Hstamp as (He1 & Hsame & _).
  exists e0. split_and!.
  - rewrite <- Hfill, elem_of_app. left. apply heldHeads_elem. by exists m.
  - rewrite He1. simpl. done.
  - rewrite He1. simpl. done.
  - unfold sameSequence. by rewrite Hsame, He2.
  - intros x. rewrite <- Hfill, !elem_of_app, heldHeads_clearSlot.
    destruct (decide (ceSeq x = minSeq)); [right; congruence | naive_solver].
Qed.

Lemma stampClock_None h cum e :
  stampClock h cum e = None →
  TriggeredBy (ceSeq e) ≠ 0 ∧ TriggeredByClock (ceSeq e) = None.
Proof.
  unfold stampClock. case_bool_decide; [done|].
  destruct (TriggeredByClock (ceSeq e)); simpl; [|done].
  by case_bool_decide.
Qed.

Lemma mergeLoop_no_panic fuel cum t st :
  Forall produced (waiting st) → (mergeLoop fuel cum t st).2 ≠ LoopPanic.
Proof.
  revert t st. induction fuel as [|fuel IH]; intros t st Hprod; [done|].
  simpl.
  pose proof (mergeStep_waiting_sub cum t st) as Hsub.
  pose proof (λ x, proj1 (Forall_forall produced (waiting st)) Hprod x) as Hall.
  unfold waiting in Hall.
  step_cases cum t st; rewrite Hstep in *; simpl in *; try done.
  - destruct (limitReached (mOptions st)); [done|].
    match goal with |- context [mergeLoop fuel cum t1 ?s] =>
      specialize (IH t1 s); destruct (mergeLoop fuel cum t1 s) as [[out s'] x]
    end.
    simpl in *. apply IH. apply Forall_forall. intros y Hy.
    apply Forall_forall with (x := y) in Hprod; [done|]. by apply Hsub.
  - exfalso. apply stampClock_None in Hstamp as [H1 H2].
    assert (He0 : produced e0).
    { apply Hall. rewrite <- Hfill, elem_of_app. left.
      apply heldHeads_elem. by exists m. }
    destruct He0 as (_ & _ & He0). rewrite <- He2 in He0. by apply He0.
Qed.

Lemma waiting_runMerge (feeds : list (list ChangeEntry)) :
  heldHeads (replicate (length feeds) None) = []
  ∧ queuedEntries (Some <$> feeds) = concat feeds.
Proof.
  induction feeds as [|feed feeds [IH1 IH2]]; [done|].
  split; [exact IH1|]. rewrite fmap_cons. cbn [queuedEntries concat].
  by rewrite IH2.
Qed.

(** X4.  The merge loop does not panic on feeds whose entries are as the
    producers make them: its only call through a pointer that may be nil,
    the read of the hashed value of [minEntry.Seq.TriggeredByClock], is made
    for entries with a triggering sequence, and each of these has a
    triggered-by clock. *)
Theorem merge_of_produced_feeds_never_panics
    (cum : loc) (t : Terminator) (feeds : list (list ChangeEntry))
    (h : Store) (options : ChangesOptions) (calls : list HashCall) :
  Forall (Forall produced) feeds →
  (runMerge cum t feeds h options calls).2 ≠ LoopPanic.
Proof.
  intros Hprod. unfold runMerge. apply mergeLoop_no_panic.
  unfold waiting. simpl. destruct (waiting_runMerge feeds) as [-> ->].
  simpl. apply Forall_concat. done.
Qed.

(** The converse: the panic of the merger. *)
Lemma mergeStep_panic cum t st st' :
  mergeStep cum t st = StepPanic st' →
  ∃ e0, e0 ∈ waiting st ∧ TriggeredBy (ceSeq e0) ≠ 0
        ∧ TriggeredByClock (ceSeq e0) = None.
Proof.
  unfold waiting. step_cases cum t st; rewrite Hstep; try done.
  intros _. apply stampClock_None in Hstamp as [H1 H2].
  exists e0. rewrite <- He2. split_and!; try done.
  rewrite <- Hfill, elem_of_app. left. apply heldHeads_elem. by exists m.
Qed.

Lemma mergeLoop_waiting
    (fuel : nat) (cum : loc) (t : Terminator) (st : MergeState) :
  let out := (mergeLoop fuel cum t st).1.1 in
  let st' := (mergeLoop fuel cum t st).1.2 in
  Forall (λ e, ∃ e0, e0 ∈ waiting st ∧ ID e = ID e0 ∧ Err e = Err e0
                     ∧ sameSequence (ceSeq e) (ceSeq e0)) out
  ∧ (∀ x, x ∈ waiting st' → x ∈ waiting st)
  ∧ (length out + pending st' ≤ pending st)%nat.
Proof.
  cbn zeta. revert t st. induction fuel as [|fuel IH]; intros t st.
  { simpl. split_and!; [done|done|lia]. }
  simpl.
  pose proof (mergeStep_waiting_sub cum t st) as Hsub.
  pose proof (mergeStep_pending_le cum t st) as Hle.
  destruct (mergeStep cum t st) as [s|s|s|e t1 s stop] eqn:Hstep; simpl in *;
    try (split_and!; [done|done|lia]).
  pose proof (mergeStep_pending _ _ _ _ _ _ _ _ _ _ Hstep) as Hlt.
  apply mergeStep_picks in Hstep as (e0 & Hin & HID & HErr & Hsame & _).
  destruct stop; simpl.
  - split_and!; [|done|lia]. apply Forall_singleton. by exists e0.
  - specialize (IH t1 s).
    destruct (mergeLoop fuel cum t1 s) as [[out s'] x]. simpl in *.
    destruct IH as (IH1 & IH2 & IH3). split_and!; [|naive_solver|lia].
    apply Forall_cons. split; [by exists e0|].
    eapply Forall_impl; [exact IH1|]. simpl.
    intros y (e' & ? & ? & ? & ?). exists e'. split_and!; try done.
    by apply Hsub.
Qed.

(** X5.  The merge loop makes up no entry and loses track of none: every
    entry it writes has the document id, the error and, up to the clock it
    stamps, the sequence id of an entry that was waiting in a slot or in a
    feed; what is still waiting when the loop ends was waiting when it
    began; and each entry written takes at least one entry off what is
    waiting. *)
Theorem merge_writes_only_waiting_entries
    (fuel : nat) (cum : loc) (t : Terminator) (st : MergeState) :
  let out := (mergeLoop fuel cum t st).1.1 in
  let st' := (mergeLoop fuel cum t st).1.2 in
  Forall (λ e, ∃ e0, e0 ∈ waiting st ∧ ID e = ID e0 ∧ Err e = Err e0
                     ∧ sameSequence (ceSeq e) (ceSeq e0)) out
  ∧ (∀ x, x ∈ waiting st' → x ∈ waiting st)
  ∧ (length out + pending st' ≤ pending st)%nat.
Proof. apply mergeLoop_waiting. Qed.

Lemma findMin_keeps current i s o :
  ∀ s', findMin current i s (Some o) ≠ (s', None).
Proof.
  revert i s o. induction current as [|[cur|] current IH]; intros i s o s';
    simpl; [done| |apply IH].
  destruct (Before (ceSeq cur) s); apply IH.
Qed.

Lemma findMin_None current i s0 s :
  findMin current i s0 None = (s, None) →
  ∀ x, x ∈ heldHeads current → Before (ceSeq x) s0 = false.
Proof.
  revert i. induction current as [|[cur|] current IH]; intros i; simpl.
  - intros _ x Hx. by apply elem_of_nil in Hx.
  - destruct (Before (ceSeq cur) s0) eqn:HB.
    + intros Hmin. by apply findMin_keeps in Hmin.
    + intros Hmin x [->|Hx]%elem_of_cons; [done|]. by eapply IH.
  - apply IH.
Qed.

Lemma mergeLoop_complete fuel cum t st out st' :
  length (mCurrent st) = length (mFeeds st) →
  Forall (λ x, Before (ceSeq x) MaxSequenceID = true) (waiting st) →
  mergeLoop fuel cum t st = (out, st', LoopBreak) →
  waiting st' = []
  ∧ ∀ x, x ∈ waiting st → ∃ e, e ∈ out ∧ sameSequence (ceSeq e) (ceSeq x).
Proof.
  revert t st out. induction fuel as [|fuel IH]; intros t st out Hlen Hmax;
    [done|].
  simpl.
  pose proof (mergeStep_waiting_sub cum t st) as Hsub.
  destruct (mergeStep cum t st) as [s|s|s|e t1 s stop] eqn:Hstep; simpl in *;
    try done.
  - intros [= <- <-]. revert Hstep Hsub. unfold mergeStep.
    pose proof (fillCurrent_waiting (mCurrent st) (mFeeds st)) as Hfill.
    pose proof (fillCurrent_drained (mCurrent st) (mFeeds st) Hlen) as Hdr.
    destruct (fillCurrent (mCurrent st) (mFeeds st)) as [c1 f1].
    destruct (findMin c1 0 MaxSequenceID None) as [minSeq [[m e0]|]] eqn:Hmin.
    { rewrite clearSent_spec. destruct (stampClock _ _ _) as [[[? ?] ?]|];
        [|done]. destruct (select t); [|done].
      by destruct (limitReached _). }
    intros [= <-] _. unfold waiting in *. simpl.
    assert (Hnone : heldHeads c1 = []).
    { apply elem_of_nil_inv. intros x Hx.
      pose proof (findMin_None _ _ _ _ Hmin x Hx) as HB.
      apply Forall_forall with (x := x) in Hmax; [congruence|].
      rewrite <- Hfill, elem_of_app. by left. }
    specialize (Hdr Hnone). rewrite Hnone, Hdr. split; [done|].
    intros x Hx. apply Hfill in Hx. rewrite Hnone, Hdr in Hx.
    by apply elem_of_nil in Hx.
  - destruct stop; [done|].
    pose proof Hstep as Hpick.
    apply mergeStep_picks in Hpick as (e0 & Hin & _ & _ & Hsame & Hrest).
    assert (Hlen1 : length (mCurrent s) = length (mFeeds s)).
    { revert Hstep. unfold mergeStep.
      pose proof (fillCurrent_pending (mCurrent st) (mFeeds st) Hlen) as Hp.
      destruct (fillCurrent (mCurrent st) (mFeeds st)) as [c1 f1].
      destruct Hp as (Hp & _).
      destruct (findMin c1 0 MaxSequenceID None) as [minSeq [[m e']|]];
        [|done].
      rewrite clearSent_spec. destruct (stampClock _ _ _) as [[[? ?] ?]|];
        [|done]. destruct (select t); [|done].
      destruct (limitReached _); intros [= _ _ <-]; simpl;
        by rewrite length_fmap. }
    specialize (IH t1 s).
    destruct (mergeLoop fuel cum t1 s) as [[out1 s1] x1].
    intros [= <- <- ->].
    destruct (IH out1 Hlen1) as [IH1 IH2]; [|done|].
    { apply Forall_forall. intros y Hy.
      apply Forall_forall with (x := y) in Hmax; [done|]. by apply Hsub. }
    split; [done|]. intros x Hx. apply Hrest in Hx as [Hx|Hx].
    + apply IH2 in Hx as (e' & He' & Hs). exists e'. split; [by right|done].
    + exists e. split; [by left|]. unfold sameSequence in *. congruence.
Qed.

(** X6.  When every entry of the feeds is before [MaxSequenceID] and the
    merge loop ends because it finds no minimum, the feeds are drained:
    nothing is left waiting, and every entry of every feed was written, or
    was cleared together with a written entry of the same sequence id. *)
Theorem drained_merge_wrote_every_entry
    (cum : loc) (t : Terminator) (feeds : list (list ChangeEntry))
    (h : Store) (options : ChangesOptions) (calls : list HashCall) :
  Forall (Forall (λ x, Before (ceSeq x) MaxSequenceID = true)) feeds →
  (runMerge cum t feeds h options calls).2 = LoopBreak →
  let out := (runMerge cum t feeds h options calls).1.1 in
  let st' := (runMerge cum t feeds h options calls).1.2 in
  waiting st' = []
  ∧ ∀ feed x, feed ∈ feeds → x ∈ feed →
      ∃ e, e ∈ out ∧ sameSequence (ceSeq e) (ceSeq x).
Proof.
  intros Hmax. unfold runMerge.
  match goal with |- context [mergeLoop ?f cum t ?s] =>
    pose proof (mergeLoop_complete f cum t s) as Hc;
    destruct (mergeLoop f cum t s) as [[out st'] exit]
  end.
  simpl. intros ->.
  destruct (Hc out st') as [H1 H2]; [| |done|].
  - simpl. by rewrite length_replicate, length_fmap.
  - unfold waiting. simpl. destruct (waiting_runMerge feeds) as [-> ->].
    simpl. by apply Forall_concat.
  - split; [done|]. intros feed x Hfeed Hx. apply H2.
    unfold waiting. simpl. destruct (waiting_runMerge feeds) as [-> ->].
    simpl. by eapply concat_elem.
Qed.

Lemma mergeStep_terminator cum n st :
  match mergeStep cum None st with
  | StepSent e _ s stop =>
      match n with
      | O => ∃ s', mergeStep cum (Some O) st = StepReturn s'
      | S n' => mergeStep cum (Some (S n')) st = StepSent e (Some n') s stop
      end
  | StepReturn _ => False
  | r => mergeStep cum (Some n) st = r
  end.
Proof.
  unfold mergeStep.
  destruct (fillCurrent (mCurrent st) (mFeeds st)) as [c1 f1].
  destruct (findMin c1 0 MaxSequenceID None) as [minSeq [[m e0]|]]; [|done].
  destruct (clearSent _ _ _ _ _) as [c2 removed].
  destruct (stampClock _ _ _) as [[[e h] calls]|]; [|done].
  destruct n as [|n]; simpl; destruct (limitReached (mOptions st)); eauto.
Qed.

(** X7.  The terminator takes nothing but a tail off the merged stream: a
    run of the merge loop in which the terminator fires at the [select] of
    the entry number [n + 1] writes the first [n] entries of the run in
    which it never fires, and returns; when the undisturbed run writes no
    more than [n] entries, the two runs are one and the same. *)
Theorem terminator_truncates_merged_stream
    (fuel : nat) (cum : loc) (n : nat) (st : MergeState) :
  let undisturbed := mergeLoop fuel cum None st in
  let run := mergeLoop fuel cum (Some n) st in
  run.1.1 = take n undisturbed.1.1
  ∧ ((length undisturbed.1.1 ≤ n)%nat → run = undisturbed)
  ∧ ((n < length undisturbed.1.1)%nat → run.2 = LoopReturn).
Proof.
  cbn zeta. revert n st. induction fuel as [|fuel IH]; intros n st.
  { simpl. rewrite take_nil. split_and!; [done|done|lia]. }
  simpl. pose proof (mergeStep_terminator cum n st) as Hstep.
  destruct (mergeStep cum None st) as [s|s|s|e t1 s stop] eqn:HN;
    try (rewrite Hstep; simpl; rewrite take_nil; split_and!; [done|done|lia]);
    [done|].
  pose proof (mergeStep_select Before GetHash docLayer cum None st) as Hsel.
  rewrite HN in Hsel. simpl in Hsel. injection Hsel as <-.
  destruct n as [|n].
  - destruct Hstep as [s' ->]. simpl.
    destruct stop; simpl.
    + split_and!; [done|lia|done].
    + destruct (mergeLoop fuel cum None s) as [[out s1] x1]. simpl.
      split_and!; [done|lia|done].
  - rewrite Hstep. destruct stop; simpl.
    + rewrite take_nil. split_and!; [done|done|lia].
    + specialize (IH n s).
      destruct (mergeLoop fuel cum None s) as [[out s1] x1].
      destruct (mergeLoop fuel cum (Some n) s) as [[out' s1'] x1'].
      simpl in *. destruct IH as (IH1 & IH2 & IH3).
      split_and!.
      * by rewrite IH1.
      * intros Hlen. assert (Heq := IH2 ltac:(lia)). congruence.
      * intros Hlen. apply IH3. lia.
Qed.

Lemma stampClock_length h cum e e' h' calls :
  stampClock h cum e = Some (e', h', calls) → (length h ≤ length h')%nat.
Proof.
  unfold stampClock. case_bool_decide.
  - unfold alloc. intros [= <- <- <-].
    destruct (GetHash _); rewrite ?length_update, length_app, length_update;
      simpl; lia.
  - destruct (TriggeredByClock (ceSeq e)); simpl; [|done].
    case_bool_decide; intros [= <- <- <-]; [|done].
    destruct (GetHash _); by rewrite ?length_update.
Qed.

Lemma mergeLoop_length fuel cum t st :
  (length (mStore st) ≤ length (mStore (mergeLoop fuel cum t st).1.2))%nat.
Proof.
  revert t st. induction fuel as [|fuel IH]; intros t st; [done|].
  simpl. step_cases cum t st; rewrite Hstep; simpl; try done.
  - apply stampClock_length in Hstamp.
    destruct (limitReached (mOptions st)); simpl; [done|].
    match goal with |- context [mergeLoop fuel cum t1 ?s] =>
      specialize (IH t1 s); destruct (mergeLoop fuel cum t1 s) as [[out s'] x]
    end.
    simpl in *. lia.
  - by apply stampClock_length in Hstamp.
Qed.

Lemma stampClock_store h cum e e' h' calls :
  stampClock h cum e = Some (e', h', calls) →
  (cum < length h)%nat →
  (length h ≤ length h')%nat
  ∧ (∀ l vb, GetSequence (clockAt h l) vb ≤ GetSequence (clockAt h' l) vb)
  ∧ (∀ l vb, (l < length h)%nat → l ≠ cum →
       GetSequence (clockAt h' l) vb = GetSequence (clockAt h l) vb)
  ∧ (TriggeredBy (ceSeq e) = 0 →
     Seq (ceSeq e) ≤ GetSequence (clockAt h' cum) (vbNo (ceSeq e))).
Proof.
  unfold stampClock. intros Hstamp Hcum.
  assert (Hupd : ∀ (h0 : Store) l s l' vb,
            GetSequence (clockAt (update h0 l (λ c, SetHashedValue c s)) l') vb
            = GetSequence (clockAt h0 l') vb).
  { intros. rewrite clockAt_update. by destruct (decide _). }
  assert (Hmax : ∀ vb1 s1 l vb,
            GetSequence (clockAt (update h cum (λ c, SetMaxSequence c vb1 s1)) l) vb
            = if decide (cum = l)
              then GetSequence (SetMaxSequence (clockAt h cum) vb1 s1) vb
              else GetSequence (clockAt h l) vb).
  { intros. rewrite clockAt_update.
    destruct (decide (cum = l)) as [<-|Hne].
    - by rewrite decide_True.
    - rewrite decide_False; [done|]. by intros [? _]. }
  assert (Hfresh : ∀ (h0 : Store) c l, (l < length h0)%nat →
            clockAt (h0 ++ [c]) l = clockAt h0 l).
  { intros. by apply clockAt_app. }
  case_bool_decide as Hlive.
  - injection Hstamp as <- <- <-. unfold alloc.
    set (h1 := update h cum _).
    assert (Hlen1 : length h1 = length h) by apply length_update.
    assert (Hclocks : ∀ l vb,
              GetSequence
                (clockAt
                   match GetHash (clockAt h1 cum) with
                   | Ok clockHash =>
                       update (h1 ++ [mkClock ∅ ""]) (length h1)
                         (λ c, SetHashedValue c clockHash)
                   | Failed _ => h1 ++ [mkClock ∅ ""]
                   end l) vb
              = GetSequence (clockAt (h1 ++ [mkClock ∅ ""]) l) vb).
    { intros. destruct (GetHash _); [apply Hupd|done]. }
    split_and!.
    + destruct (GetHash _); rewrite ?length_update, length_app; simpl; lia.
    + intros l vb. rewrite Hclocks.
      destruct (decide (l < length h)%nat) as [Hl|Hl].
      * rewrite Hfresh by lia. subst h1. rewrite Hmax.
        destruct (decide (cum = l)) as [<-|]; [|done].
        apply GetSequence_SetMaxSequence_le.
      * unfold clockAt at 1. rewrite (proj2 (lookup_ge_None h l)) by lia.
        simpl. unfold GetSequence at 1. simpl.
        destruct (decide (l = length h)) as [->|Hne].
        -- unfold clockAt. rewrite lookup_app_r by lia.
           rewrite Hlen1, Nat.sub_diag. done.
        -- unfold clockAt. rewrite (proj2 (lookup_ge_None _ l)); [done|].
           rewrite length_app. simpl. lia.
    + intros l vb Hl Hne. rewrite Hclocks, Hfresh by lia. subst h1.
      rewrite Hmax. by rewrite decide_False.
    + intros _. rewrite Hclocks, Hfresh by lia. subst h1. rewrite Hmax.
      rewrite decide_True by done. rewrite GetSequence_SetMaxSequence.
      rewrite decide_True by done. lia.
  - destruct (TriggeredByClock (ceSeq e)) as [tbc|]; simpl in Hstamp; [|done].
    case_bool_decide as Hhashed.
    + injection Hstamp as <- <- <-.
      set (h1 := update h cum _).
      assert (Hclocks : ∀ l vb,
                GetSequence
                  (clockAt
                     match GetHash (clockAt h1 cum) with
                     | Ok clockHash =>
                         update h1 tbc (λ c, SetHashedValue c clockHash)
                     | Failed _ => h1
                     end l) vb
                = GetSequence (clockAt h1 l) vb).
      { intros. destruct (GetHash _); [apply Hupd|done]. }
      split_and!.
      * destruct (GetHash _); rewrite ?length_update; subst h1;
          rewrite length_update; lia.
      * intros l vb. rewrite Hclocks. subst h1. rewrite Hmax.
        destruct (decide (cum = l)) as [<-|]; [|done].
        apply GetSequence_SetMaxSequence_le.
      * intros l vb Hl Hne. rewrite Hclocks. subst h1. rewrite Hmax.
        by rewrite decide_False.
      * done.
    + injection Hstamp as <- <- <-. split_and!; done.
Qed.

Lemma mergeLoop_clocks
    (fuel : nat) (cum : loc) (t : Terminator) (st : MergeState) :
  (cum < length (mStore st))%nat →
  let out := (mergeLoop fuel cum t st).1.1 in
  let st' := (mergeLoop fuel cum t st).1.2 in
  (length (mStore st) ≤ length (mStore st'))%nat
  ∧ (∀ l vb, GetSequence (clockAt (mStore st) l) vb
             ≤ GetSequence (clockAt (mStore st') l) vb)
  ∧ (∀ l vb, (l < length (mStore st))%nat → l ≠ cum →
       GetSequence (clockAt (mStore st') l) vb
       = GetSequence (clockAt (mStore st) l) vb)
  ∧ (∀ e, e ∈ out → TriggeredBy (ceSeq e) = 0 →
       Seq (ceSeq e)
       ≤ GetSequence (clockAt (mStore st') cum) (vbNo (ceSeq e))).
Proof.
  cbn zeta. revert t st. induction fuel as [|fuel IH]; intros t st Hcum.
  { simpl. split_and!; try done. intros e He. by apply elem_of_nil in He. }
  simpl.
  step_cases cum t st; rewrite Hstep; simpl;
    try (split_and!; [done|done|done|intros e He; by apply elem_of_nil in He]).
  - (* an entry is written *)
    pose proof (stampClock_entry _ _ _ _ _ _ _ Hstamp) as (_ & Hsame & _).
    apply stampClock_store in Hstamp as (H1 & H2 & H3 & H4); [|done].
    assert (Htb : TriggeredBy (ceSeq e1) = 0 →
                  Seq (ceSeq e1) ≤ GetSequence (clockAt h1 cum) (vbNo (ceSeq e1))).
    { intros H0. apply (f_equal TriggeredBy) in Hsame as HT.
      apply (f_equal Seq) in Hsame as HS. apply (f_equal vbNo) in Hsame as HV.
      simpl in *. rewrite HS, HV. apply H4. congruence. }
    destruct (limitReached (mOptions st)); simpl.
    + split_and!; try done.
      intros e [->|He]%elem_of_cons; [done|]. by apply elem_of_nil in He.
    + match goal with |- context [mergeLoop fuel cum t1 ?s] =>
        specialize (IH t1 s); destruct (mergeLoop fuel cum t1 s) as [[out s'] x]
      end.
      simpl in *. destruct IH as (I1 & I2 & I3 & I4); [lia|].
      split_and!.
      * lia.
      * intros l vb. etrans; [apply H2|apply I2].
      * intros l vb Hl Hne. rewrite I3 by (done || lia). by apply H3.
      * intros e [->|He]%elem_of_cons; [|by apply I4].
        intros H0. etrans; [by apply Htb|apply I2].
  - (* the terminator *)
    apply stampClock_store in Hstamp as (H1 & H2 & H3 & H4); [|done].
    split_and!; try done. intros e He. by apply elem_of_nil in He.
Qed.

(** X8.  Over a run of the merge loop (with the cumulative clock in the
    store) the store only grows, no sequence of any clock goes down, and no
    clock but the cumulative clock has a sequence changed: the merger
    writes the hashed value of the other clocks only.  The cumulative clock covers every plain entry written: its
    sequence for the vbucket of the entry is at or above the sequence of the
    entry. *)
Theorem cumulative_clock_only_advances
    (fuel : nat) (cum : loc) (t : Terminator) (st : MergeState) :
  (cum < length (mStore st))%nat →
  let out := (mergeLoop fuel cum t st).1.1 in
  let st' := (mergeLoop fuel cum t st).1.2 in
  (length (mStore st) ≤ length (mStore st'))%nat
  ∧ (∀ l vb, GetSequence (clockAt (mStore st) l) vb
             ≤ GetSequence (clockAt (mStore st') l) vb)
  ∧ (∀ l vb, (l < length (mStore st))%nat → l ≠ cum →
       GetSequence (clockAt (mStore st') l) vb
       = GetSequence (clockAt (mStore st) l) vb)
  ∧ (∀ e, e ∈ out → TriggeredBy (ceSeq e) = 0 →
       Seq (ceSeq e)
       ≤ GetSequence (clockAt (mStore st') cum) (vbNo (ceSeq e))).
Proof. apply mergeLoop_clocks. Qed.

Lemma stampClock_failing h cum e e' h' calls :
  (∀ c, ∃ err, GetHash c = Failed err) →
  stampClock h cum e = Some (e', h', calls) →
  (∀ l, hashedValue (clockAt h' l) = hashedValue (clockAt h l))
  ∧ (TriggeredBy (ceSeq e) = 0 → Clock (ceSeq e') = Some (length h))
  ∧ (∀ tbc, backfillOf tbc e → hashedValue (clockAt h tbc) = "" →
       hashedFor tbc calls = 1%nat)
  ∧ (length h ≤ length h')%nat.
Proof.
  intros Hfail. unfold stampClock. case_bool_decide as Hlive.
  - unfold alloc. set (h1 := update h cum _).
    destruct (Hfail (clockAt h1 cum)) as [err ->].
    intros [= <- <- <-]. split_and!.
    + intros l. destruct (decide (l < length h1)%nat) as [Hl|Hl].
      * rewrite clockAt_app by done. subst h1.
        apply hashedValue_update. intros c. apply hashedValue_SetMaxSequence.
      * subst h1. rewrite length_update in Hl.
        unfold clockAt at 2. rewrite (proj2 (lookup_ge_None h l)) by lia.
        unfold clockAt. destruct (decide (l = length h)) as [->|Hne].
        -- rewrite lookup_app_r by (rewrite length_update; lia).
           by rewrite length_update, Nat.sub_diag.
        -- rewrite (proj2 (lookup_ge_None _ l)); [done|].
           rewrite length_app, length_update. simpl. lia.
    + intros _. simpl. subst h1. by rewrite length_update.
    + intros tbc [Hb _]. done.
    + subst h1. rewrite length_app, length_update. lia.
  - destruct (TriggeredByClock (ceSeq e)) as [tbc|] eqn:Htbc; simpl; [|done].
    unfold GetHashedValue. case_bool_decide as Hhashed.
    + set (h1 := update h cum _).
      destruct (Hfail (clockAt h1 cum)) as [err ->].
      intros [= <- <- <-]. split_and!.
      * intros l. subst h1. apply hashedValue_update. intros c.
        apply hashedValue_SetMaxSequence.
      * done.
      * intros tbc' [_ Hb] _. rewrite Htbc in Hb. injection Hb as <-.
        unfold hashedFor. rewrite filter_cons_True by done. done.
      * subst h1. by rewrite length_update.
    + intros [= <- <- <-]. split_and!; [done|done| |done].
      intros tbc' [_ Hb] Hun. rewrite Htbc in Hb. injection Hb as <-. done.
Qed.

(** X9.  While the hasher fails, nothing gets hashed and the merger goes
    on: over a run of the merge loop the hashed value of every clock stays
    as it was, every plain entry written carries a new clock whose hashed
    value is empty, and the hasher is called again for every entry of a
    backfill whose triggered-by clock is not hashed. *)
Theorem failing_hasher_is_called_for_every_entry
    (fuel : nat) (cum : loc) (t : Terminator) (st : MergeState) :
  (∀ c, ∃ err, GetHash c = Failed err) →
  let out := (mergeLoop fuel cum t st).1.1 in
  let st' := (mergeLoop fuel cum t st).1.2 in
  (∀ l, hashedValue (clockAt (mStore st') l)
        = hashedValue (clockAt (mStore st) l))
  ∧ (∀ e, e ∈ out → TriggeredBy (ceSeq e) = 0 →
       ∃ l, Clock (ceSeq e) = Some l ∧ (length (mStore st) ≤ l)%nat
            ∧ hashedValue (clockAt (mStore st') l) = "")
  ∧ (∀ tbc, hashedValue (clockAt (mStore st) tbc) = "" →
       (hashedFor tbc (mHashCalls st) + length (filter (backfillOf tbc) out)
        ≤ hashedFor tbc (mHashCalls st'))%nat)
  ∧ (length (mStore st) ≤ length (mStore st'))%nat.
Proof.
  intros Hfail. cbn zeta. revert t st.
  induction fuel as [|fuel IH]; intros t st.
  { simpl. split_and!; [done| |intros; simpl; lia|done].
    intros e He. by apply elem_of_nil in He. }
  simpl.
  step_cases cum t st; rewrite Hstep; simpl;
    try (split_and!;
         [done|intros e He; by apply elem_of_nil in He|intros; simpl; lia|done]).
  - pose proof (stampClock_entry _ _ _ _ _ _ _ Hstamp) as (_ & Hsame & _).
    apply stampClock_failing in Hstamp as (H1 & H2 & H3 & H4); [|done].
    assert (Hnew : hashedValue (clockAt h1 (length (mStore st))) = "").
    { rewrite H1. unfold clockAt.
      by rewrite (proj2 (lookup_ge_None (mStore st) (length (mStore st)))). }
    assert (HT : TriggeredBy (ceSeq e1) = TriggeredBy (ceSeq e2)).
    { by apply (f_equal TriggeredBy) in Hsame. }
    assert (HC : TriggeredByClock (ceSeq e1) = TriggeredByClock (ceSeq e2)).
    { by apply (f_equal TriggeredByClock) in Hsame. }
    assert (Hcalls : ∀ tbc, hashedValue (clockAt (mStore st) tbc) = "" →
              (hashedFor tbc (mHashCalls st)
               + length (filter (backfillOf tbc) [e1])
               ≤ hashedFor tbc (mHashCalls st ++ calls1))%nat).
    { intros tbc Hun. rewrite hashedFor_app, filter_cons, filter_nil.
      destruct (decide (backfillOf tbc e1)) as [Hb|Hb]; simpl; [|lia].
      rewrite H3; [lia| |done]. unfold backfillOf in *. by rewrite <- HT, <- HC. }
    destruct (limitReached (mOptions st)); simpl.
    + split_and!; [done| |done|done].
      intros e [->|He]%elem_of_cons; [|by apply elem_of_nil in He].
      intros H0. exists (length (mStore st)). split_and!; [|done|done].
      apply H2. congruence.
    + match goal with |- context [mergeLoop fuel cum t1 ?s] =>
        specialize (IH t1 s); destruct (mergeLoop fuel cum t1 s) as [[out s'] x]
      end.
      simpl in *. destruct IH as (I1 & I2 & I3 & I4).
      split_and!.
      * intros l. by rewrite I1.
      * intros e [->|He]%elem_of_cons.
        -- intros H0. exists (length (mStore st)). split_and!; [|done|].
           ++ apply H2. congruence.
           ++ by rewrite I1.
        -- intros H0. destruct (I2 e He H0) as (l & ? & ? & ?).
           exists l. split_and!; [done|lia|done].
      * intros tbc Hun. specialize (Hcalls tbc Hun).
        specialize (I3 tbc ltac:(by rewrite H1)).
        rewrite filter_cons. rewrite filter_cons, filter_nil in Hcalls.
        destruct (decide (backfillOf tbc e1)); simpl in *; lia.
      * lia.
  - apply stampClock_failing in Hstamp as (H1 & H2 & H3 & H4); [|done].
    split_and!; [done| | |done].
    + intros e He. by apply elem_of_nil in He.
    + intros tbc _. rewrite hashedFor_app. simpl. lia.
Qed.

Lemma mergeLoop_options fuel cum t st :
  let out := (mergeLoop fuel cum t st).1.1 in
  let options' := mOptions (mergeLoop fuel cum t st).1.2 in
  let exit := (mergeLoop fuel cum t st).2 in
  sameSequence (Since options') (Since (mOptions st))
  ∧ (Conflicts options' = Conflicts (mOptions st)
     ∧ IncludeDocs options' = IncludeDocs (mOptions st)
     ∧ Wait options' = Wait (mOptions st)
     ∧ Continuous options' = Continuous (mOptions st))
  ∧ (out = [] → options' = mOptions st)
  ∧ (out ≠ [] → exit ≠ LoopBreakOuter → Clock (Since options') = Some cum)
  ∧ (Clock (Since options') = Clock (Since (mOptions st))
     ∨ Clock (Since options') = Some cum)
  ∧ (Limit (mOptions st) ≤ 0 →
     Limit options' = Limit (mOptions st) ∧ exit ≠ LoopBreakOuter)
  ∧ (0 < Limit (mOptions st) →
     Limit options' = Limit (mOptions st) - Z.of_nat (length out)
     ∧ (exit = LoopBreakOuter ↔ Limit options' = 0)).
Proof.
  cbn zeta. revert t st. induction fuel as [|fuel IH]; intros t st.
  { simpl. split_and!; try done; try (by left); intros; split; try lia.
    split; [done|lia]. }
  simpl.
  step_cases cum t st; rewrite Hstep; simpl;
    try (split_and!; try done; try (by left); intros; split; try lia;
         split; [done|lia]).
  assert (Hcd : Since (countDown (mOptions st)) = Since (mOptions st)
                ∧ Conflicts (countDown (mOptions st)) = Conflicts (mOptions st)
                ∧ IncludeDocs (countDown (mOptions st)) = IncludeDocs (mOptions st)
                ∧ Wait (countDown (mOptions st)) = Wait (mOptions st)
                ∧ Continuous (countDown (mOptions st)) = Continuous (mOptions st)
                ∧ Limit (countDown (mOptions st))
                  = if 0 <? Limit (mOptions st) then Limit (mOptions st) - 1
                    else Limit (mOptions st)).
  { unfold countDown. by destruct (0 <? Limit (mOptions st)). }
  destruct Hcd as (Hc1 & Hc2 & Hc3 & Hc4 & Hc5 & Hc6).
  destruct (limitReached (mOptions st)) eqn:Hlim; simpl.
  - apply andb_true_iff in Hlim as [Hpos Hzero].
    apply bool_decide_eq_true in Hzero. rewrite Hpos in Hc6.
    apply Z.ltb_lt in Hpos.
    rewrite Hc1. split_and!; try done; try (by left); intros; try lia.
  - match goal with |- context [mergeLoop fuel cum t1 ?s] =>
      specialize (IH t1 s); destruct (mergeLoop fuel cum t1 s) as [[out s'] x]
    end.
    simpl in *. rewrite Hc1, Hc2, Hc3, Hc4, Hc5 in IH.
    destruct IH as (I1 & (I2 & I3 & I4 & I5) & I6 & I7 & I8 & I9 & I10).
    rewrite Hc6 in I9, I10.
    split_and!; try done.
    + intros _ Hx. destruct out as [|e' out].
      * rewrite I6 by done. done.
      * by apply I7.
    + right. destruct I8 as [->| ->]; done.
    + intros Hle. destruct (0 <? Limit (mOptions st)) eqn:Hpos;
        [apply Z.ltb_lt in Hpos; lia|]. by apply I9.
    + intros Hpos. apply Z.ltb_lt in Hpos as Hpos'. rewrite Hpos' in I10.
      apply andb_false_iff in Hlim as [Hlim|Hlim]; [congruence|].
      apply bool_decide_eq_false in Hlim. rewrite Hc6, Hpos' in Hlim.
      destruct I10 as [I10 I11]; [lia|]. split; [lia|done].
Qed.

(** X10.  Of the options, the merge loop changes [Limit] and [Since.Clock]
    and nothing else: the position and the backfill fields of the cursor
    and the flags are as they were.  When the loop writes nothing the
    options are untouched; when it writes an entry and does not stop on the
    limit, [options.Since.Clock] is the cumulative clock afterwards, which
    is what the next pass of the outer loop plans from.  A limit that is
    not positive stays as it is and never stops the loop; a positive limit
    goes down by the number of entries written, and the loop is left by
    [break outer] exactly when it is used up. *)
Theorem merge_loop_moves_only_the_live_clock
    (fuel : nat) (cum : loc) (t : Terminator) (st : MergeState) :
  let out := (mergeLoop fuel cum t st).1.1 in
  let options' := mOptions (mergeLoop fuel cum t st).1.2 in
  let exit := (mergeLoop fuel cum t st).2 in
  sameSequence (Since options') (Since (mOptions st))
  ∧ (Conflicts options' = Conflicts (mOptions st)
     ∧ IncludeDocs options' = IncludeDocs (mOptions st)
     ∧ Wait options' = Wait (mOptions st)
     ∧ Continuous options' = Continuous (mOptions st))
  ∧ (out = [] → options' = mOptions st)
  ∧ (out ≠ [] → exit ≠ LoopBreakOuter → Clock (Since options') = Some cum)
  ∧ (Clock (Since options') = Clock (Since (mOptions st))
     ∨ Clock (Since options') = Some cum)
  ∧ (Limit (mOptions st) ≤ 0 →
     Limit options' = Limit (mOptions st) ∧ exit ≠ LoopBreakOuter)
  ∧ (0 < Limit (mOptions st) →
     Limit options' = Limit (mOptions st) - Z.of_nat (length out)
     ∧ (exit = LoopBreakOuter ↔ Limit options' = 0)).
Proof. apply mergeLoop_options. Qed.

(** X11.  The principal's document is not sent twice: when the cursor has
    no triggered-by clock and a pass that holds the user pseudo-feed drains
    its feeds (all entries being before [MaxSequenceID]), the entry of the
    principal has been written, the cumulative clock has reached its
    sequence and has become the live clock of the cursor, so the next pass
    appends no user pseudo-feed for the same principal. *)
Theorem user_entry_is_not_sent_twice
    (cum : loc) (t : Terminator) (h : Store) (user : User)
    (feeds0 feeds : list (list ChangeEntry)) (options : ChangesOptions)
    (userVbNo : Z) (calls : list HashCall) :
  (cum < length h)%nat →
  TriggeredByClock (Since options) = None →
  appendVectorUserFeed h user feeds0 options userVbNo = Some feeds →
  feeds ≠ feeds0 →
  Forall (Forall (λ x, Before (ceSeq x) MaxSequenceID = true)) feeds →
  (runMerge cum t feeds h options calls).2 = LoopBreak →
  let mst := (runMerge cum t feeds h options calls).1.2 in
  ∀ feeds1,
    appendVectorUserFeed (mStore mst) user feeds1 (mOptions mst) userVbNo
    = Some feeds1.
Proof.
  intros Hcum Htbc Happ Hne Hmax. unfold runMerge.
  match goal with |- context [mergeLoop ?f cum t ?s] =>
    pose proof (mergeLoop_complete f cum t s) as Hc;
    pose proof (mergeLoop_clocks f cum t s Hcum) as Hk;
    pose proof (mergeLoop_options f cum t s) as Ho;
    destruct (mergeLoop f cum t s) as [[out mst] exit]
  end.
  simpl in *. intros -> feeds1.
  destruct (Hc out mst) as [_ Hall]; [| |done|].
  { by rewrite length_replicate, length_fmap. }
  { unfold waiting. simpl. destruct (waiting_runMerge feeds) as [-> ->].
    simpl. by apply Forall_concat. }
  (* the entry of the principal *)
  revert Happ. unfold appendVectorUserFeed at 1.
  destruct (0 <? userSequence user) eqn:Hpos; [|by intros [= <-]].
  destruct (sinceSequence h (Since options) userVbNo) as [sinceSeq|];
    simpl; [|done].
  destruct (sinceSeq <? userSequence user); [|by intros [= <-]].
  intros [= <-].
  match type of Hall with context [feeds0 ++ [[?x]]] => set (entry := x) in * end.
  destruct (Hall entry) as (e & He & Hsame).
  { unfold waiting. simpl.
    destruct (waiting_runMerge (feeds0 ++ [[entry]])) as [-> ->]. simpl.
    eapply concat_elem; [apply elem_of_app; right; by left|by left]. }
  destruct Hk as (Hlen & _ & _ & Hcover).
  destruct Ho as (Hseq & _ & _ & Hlive & _).
  specialize (Hcover e He).
  assert (Hout : out ≠ []) by (intros ->; by apply elem_of_nil in He).
  specialize (Hlive Hout ltac:(done)).
  apply (f_equal TriggeredBy) in Hsame as HT.
  apply (f_equal Seq) in Hsame as HS.
  apply (f_equal vbNo) in Hsame as HV.
  apply (f_equal TriggeredByClock) in Hseq as HC.
  simpl in HT, HS, HV, HC. rewrite Htbc in HC.
  rewrite HS, HV in Hcover. specialize (Hcover HT).
  unfold appendVectorUserFeed. rewrite Hpos.
  unfold sinceSequence, getChangesClock. rewrite HC, Hlive. simpl.
  destruct (mStore mst !! cum) as [c|] eqn:Hlook.
  - simpl. unfold clockAt in Hcover. rewrite Hlook in Hcover. simpl in Hcover.
    destruct (GetSequence c userVbNo <? userSequence user) eqn:Hlt; [|done].
    apply Z.ltb_lt in Hlt. lia.
  - apply lookup_ge_None in Hlook. lia.
Qed.

Lemma stampClock_live h cum e e' h' calls :
  stampClock h cum e = Some (e', h', calls) →
  TriggeredBy (ceSeq e) = 0 →
  Clock (ceSeq e') = Some (length h)
  ∧ length h' = S (length h)
  ∧ ∀ vb, GetSequence (clockAt h' (length h)) vb = 0.
Proof.
  unfold stampClock. intros Hstamp Hlive.
  rewrite bool_decide_eq_true_2 in Hstamp by done.
  unfold alloc in Hstamp. injection Hstamp as <- <- <-.
  set (h1 := update h cum _).
  assert (Hlen1 : length h1 = length h) by apply length_update.
  assert (Hnew : clockAt (h1 ++ [mkClock ∅ ""]) (length h) = mkClock ∅ "").
  { unfold clockAt. rewrite lookup_app_r by lia.
    by rewrite Hlen1, Nat.sub_diag. }
  split_and!.
  - simpl. by rewrite Hlen1.
  - destruct (GetHash _); rewrite ?length_update, length_app; simpl; lia.
  - intros vb. destruct (GetHash _) as [hash|err].
    + rewrite clockAt_update. destruct (decide _); by rewrite <- Hlen1, Hlen1, Hnew.
    + by rewrite Hnew.
Qed.

(** X19.  Every plain entry leaves with a clock of its own: the clock the
    merger puts on an entry with [TriggeredBy == 0] is a new one, it is not
    the cumulative clock nor the clock of an entry written before, and it
    holds no sequence, then and when the loop ends: the sequences the merger
    goes on setting go to the cumulative clock only. *)
Theorem stamped_clocks_are_fresh
    (fuel : nat) (cum : loc) (t : Terminator) (st : MergeState) :
  (cum < length (mStore st))%nat →
  let out := (mergeLoop fuel cum t st).1.1 in
  let st' := (mergeLoop fuel cum t st).1.2 in
  (∀ e, e ∈ out → TriggeredBy (ceSeq e) = 0 →
     ∃ l, Clock (ceSeq e) = Some l
          ∧ (length (mStore st) ≤ l < length (mStore st'))%nat
          ∧ l ≠ cum
          ∧ ∀ vb, GetSequence (clockAt (mStore st') l) vb = 0)
  ∧ (∀ i j ei ej li lj,
       (i < j)%nat → out !! i = Some ei → out !! j = Some ej →
       TriggeredBy (ceSeq ei) = 0 → TriggeredBy (ceSeq ej) = 0 →
       Clock (ceSeq ei) = Some li → Clock (ceSeq ej) = Some lj →
       (li < lj)%nat).
Proof.
  cbn zeta. revert t st. induction fuel as [|fuel IH]; intros t st Hcum.
  { simpl. split; [intros e He; by apply elem_of_nil in He|].
    intros i j ei ej li lj _ Hi. done. }
  simpl.
  step_cases cum t st; rewrite Hstep; simpl;
    try (split; [intros e He; by apply elem_of_nil in He
                |intros i j ei ej li lj _ Hi; done]).
  pose proof (stampClock_entry _ _ _ _ _ _ _ Hstamp) as (_ & Hsame & _).
  pose proof (stampClock_length _ _ _ _ _ _ Hstamp) as Hlen.
  pose proof (λ H0, stampClock_live _ _ _ _ _ _ Hstamp H0) as Hlive.
  assert (HT : TriggeredBy (ceSeq e1) = TriggeredBy (ceSeq e2)).
  { by apply (f_equal TriggeredBy) in Hsame. }
  rewrite <- HT in Hlive.
  destruct (limitReached (mOptions st)); simpl.
  - split.
    + intros e [->|He]%elem_of_cons; [|by apply elem_of_nil in He].
      intros H0. destruct (Hlive H0) as (H1 & H2 & H3).
      exists (length (mStore st)). split_and!; [done|lia|lia|lia|done].
    + intros i [|j] ei ej li lj Hij Hi Hj; [lia|done].
  - match goal with |- context [mergeLoop fuel cum t1 ?s] =>
      pose proof (mergeLoop_clocks fuel cum t1 s) as Hk;
      specialize (IH t1 s); destruct (mergeLoop fuel cum t1 s) as [[out s'] x]
    end.
    simpl in *. destruct IH as [IH1 IH2]; [lia|].
    destruct Hk as (Hk1 & _ & Hk3 & _); [lia|].
    split.
    + intros e [->|He]%elem_of_cons.
      * intros H0. destruct (Hlive H0) as (H1 & H2 & H3).
        exists (length (mStore st)). split_and!; [done|lia|lia|lia|].
        intros vb. rewrite Hk3 by lia. apply H3.
      * intros H0. destruct (IH1 e He H0) as (l & ? & ? & ? & ?).
        exists l. split_and!; [done|lia|lia|done|done].
    + intros [|i] [|j] ei ej li lj Hij Hi Hj Hti Htj Hci Hcj; simpl in *;
        try lia.
      * injection Hi as <-. destruct (Hlive Hti) as (H1 & H2 & _).
        apply list_elem_of_lookup_2 in Hj.
        destruct (IH1 ej Hj Htj) as (l & Hl & Hb & _).
        rewrite H1 in Hci. injection Hci as <-.
        rewrite Hl in Hcj. injection Hcj as <-. lia.
      * eapply (IH2 i j); eauto. lia.
Qed.

End MergerSteps.

(** ** The planner: what it allocates *)

Lemma planSince_alloc h options userVbNo addedChannels name grant :
  match planSince h options userVbNo addedChannels name grant with
  | Some (since, h') =>
      ∃ fresh, h' = h ++ fresh ∧ (length fresh ≤ 2)%nat
               ∧ is_Some (deref h (getChangesClock (Since options)))
  | None => deref h (getChangesClock (Since options)) = None
  end.
Proof.
  unfold planSince, sinceSequence.
  destruct (deref h (getChangesClock (Since options))) as [c|] eqn:Hc;
    simpl; [|done].
  destruct (isNewChannel _ _ || _).
  - unfold alloc.
    assert (Hc' : deref (h ++ [NewSequenceClockImpl])
                    (getChangesClock (Since options)) = Some c).
    { unfold deref in *. destruct (getChangesClock _) as [l|]; simpl in *;
        [|done]. by apply lookup_app_l_Some. }
    rewrite Hc'. simpl. exists [NewSequenceClockImpl; Copy c].
    split_and!; [by rewrite <- app_assoc|simpl; lia|done].
  - destruct (backfillInProgress _ _ _ _).
    + unfold alloc. exists [NewSequenceClockImpl]. split_and!; [done|simpl; lia|done].
    + exists []. split_and!; [by rewrite app_nil_r|simpl; lia|done].
Qed.

Section PlannerAllocation.

Variable VbucketSequenceBefore : SequenceID → Z → Z → bool.
Variable makeChangeEntry : LogEntry → SequenceID → string → ChangeEntry.
Variable GetChanges : string → ChangesOptions → Store → result (list LogEntry).
Variable feedTerminator : string → Terminator.

Local Abbreviation openFeeds :=
  (openFeeds VbucketSequenceBefore makeChangeEntry GetChanges feedTerminator).

Lemma deref_prefix (h h' : Store) p c :
  h `prefix_of` h' → deref h p = Some c → deref h' p = Some c.
Proof.
  intros [k ->]. unfold deref. destruct p as [l|]; simpl; [|done].
  apply lookup_app_l_Some.
Qed.

Lemma openFeeds_alloc h options userVbNo addedChannels channelsSince feeds0 :
  match openFeeds h options userVbNo addedChannels channelsSince feeds0 with
  | inr (feeds, h') =>
      h `prefix_of` h'
      ∧ (length h' ≤ length h + 2 * length channelsSince)%nat
      ∧ feeds0 `prefix_of` feeds
  | inl exit =>
      (exit = FeedError ∨ exit = Panicked)
      ∧ (exit = Panicked →
         channelsSince ≠ []
         ∧ deref h (getChangesClock (Since options)) = None)
  end.
Proof.
  revert h feeds0. induction channelsSince as [|[name grant] rest IH];
    intros h feeds0; simpl.
  { split_and!; [done|lia|done]. }
  pose proof (planSince_alloc h options userVbNo addedChannels name grant) as Hp.
  destruct (planSince _ _ _ _ _ _) as [[since h1]|]; [|by split; [right|]].
  destruct Hp as (fresh & -> & Hlen & [c Hc]).
  destruct (vectorChangesFeed _ _ _ _ _ _ _) as [feed|err];
    [|split; [by left|done]].
  specialize (IH (h ++ fresh) (feeds0 ++ [feed])).
  destruct (openFeeds _ _ _ _ _ _) as [exit|[feeds h']].
  - destruct IH as [IH1 IH2]. split; [done|]. intros ->.
    destruct (IH2 eq_refl) as [_ Hnone]. exfalso.
    rewrite (deref_prefix h (h ++ fresh) _ c) in Hnone; [done| |done].
    by apply prefix_app_r.
  - destruct IH as (IH1 & IH2 & IH3). split_and!.
    + etrans; [|exact IH1]. by apply prefix_app_r.
    + rewrite length_app in IH2. lia.
    + etrans; [|exact IH3]. by apply prefix_app_r.
Qed.

(** X12.  Planning allocates and never mutates: when the feeds of all the
    channels are opened, the store is the old one followed by at most two
    new clocks per channel (the clocks that were there are untouched) and
    the feeds opened before are followed by the new ones.  Otherwise the
    loop was left because a feed failed to open or by a panic, and it
    panics only at the first channel, on a nil cursor clock. *)
Theorem planning_allocates_and_never_mutates
    (h : Store) (options : ChangesOptions) (userVbNo : Z)
    (addedChannels : Set_) (channelsSince : TimedSet)
    (feeds0 : list (list ChangeEntry)) :
  match openFeeds h options userVbNo addedChannels channelsSince feeds0 with
  | inr (feeds, h') =>
      h `prefix_of` h'
      ∧ (length h' ≤ length h + 2 * length channelsSince)%nat
      ∧ feeds0 `prefix_of` feeds
  | inl exit =>
      (exit = FeedError ∨ exit = Panicked)
      ∧ (exit = Panicked →
         channelsSince ≠ []
         ∧ deref h (getChangesClock (Since options)) = None)
  end.
Proof. apply openFeeds_alloc. Qed.

End PlannerAllocation.

(** ** The outer loop: the shape of the stream *)

Lemma filter_isIdle_Change (sent : list ChangeEntry) :
  filter isIdle (Change <$> sent) = [].
Proof.
  induction sent as [|e sent IH]; [done|].
  rewrite fmap_cons, filter_cons_False by (by intros []). done.
Qed.

Lemma Forall_isFailure_Change (sent : list ChangeEntry) :
  Forall (λ o, isFailure o = false) (Change <$> sent).
Proof. apply Forall_fmap, Forall_true. done. Qed.

Section OuterShape.

Variable VbucketSequenceBefore : SequenceID → Z → Z → bool.
Variable makeChangeEntry : LogEntry → SequenceID → string → ChangeEntry.
Variable Before : SequenceID → SequenceID → bool.
Variable GetHash : SequenceClockImpl → result string.
Variable docLayer : ChangeEntry → ChangesOptions → option string * list string.
Variable VBHash : string → Z.

Local Abbreviation iterationFeeds :=
  (iterationFeeds VbucketSequenceBefore makeChangeEntry).
Local Abbreviation runMerge := (runMerge Before GetHash docLayer).
Local Abbreviation outerLoop :=
  (outerLoop VbucketSequenceBefore makeChangeEntry Before GetHash docLayer).
Local Abbreviation VectorMultiChangesFeed :=
  (VectorMultiChangesFeed VbucketSequenceBefore makeChangeEntry Before GetHash
     docLayer VBHash).

Local Abbreviation userNotFound :=
  (Failure (makeErrorEntry
              "User not found during reload - terminating changes feed")).

Lemma runMerge_options cum t feeds h options calls :
  let out := (runMerge cum t feeds h options calls).1.1 in
  let options' := mOptions (runMerge cum t feeds h options calls).1.2 in
  sameSequence (Since options') (Since options)
  ∧ Continuous options' = Continuous options
  ∧ (Clock (Since options') = Clock (Since options)
     ∨ Clock (Since options') = Some cum).
Proof.
  unfold runMerge.
  match goal with |- context [mergeLoop _ _ _ ?f cum t ?s] =>
    pose proof (mergeLoop_options Before GetHash docLayer f cum t s) as H
  end.
  simpl in *. tauto.
Qed.

Lemma iterationFeeds_exit w chans userVbNo st exit :
  iterationFeeds w chans userVbNo st = inl exit →
  exit = FeedError ∨ exit = Panicked.
Proof.
  unfold iterationFeeds.
  pose proof (openFeeds_alloc VbucketSequenceBefore makeChangeEntry
                (w_GetChanges w) (w_feedTerminator w) (oStore st)
                (oOptions st) userVbNo (oAddedChannels st)
                match w_user w with
                | Some _ => w_available w
                | None => AtSequence chans 0
                end []) as Ha.
  destruct (openFeeds _ _ _ _ _ _ _ _ _ _) as [x|[f0 h0]].
  - destruct Ha as [Ha _]. by intros [= <-].
  - destruct (w_user w); [|done].
    destruct (appendVectorUserFeed _ _ _ _ _); [done|]. intros [= <-]. by right.
Qed.

Ltac outer_step :=
  let Hit := fresh "Hit" in
  let Hrun := fresh "Hrun" in
  let Hopt := fresh "Hopt" in
  match goal with
  | |- context [iterationFeeds ?w ?chans ?u ?s] =>
      destruct (iterationFeeds w chans u s) as [exit0|[feeds hf]] eqn:Hit;
      [apply iterationFeeds_exit in Hit|]
  end;
  [|match goal with
    | |- context [runMerge ?c ?t ?f ?h ?o ?cs] =>
        pose proof (runMerge_options c t f h o cs) as Hopt;
        destruct (runMerge c t f h o cs) as [[sent mst] lexit] eqn:Hrun;
        simpl in Hopt
    end].

Lemma outerLoop_sentinels worlds chans userVbNo changeWaiter cum st :
  let stream := (outerLoop worlds chans userVbNo changeWaiter cum st).1 in
  let exit := (outerLoop worlds chans userVbNo changeWaiter cum st).2 in
  (exit = UserNotFound →
   ∃ pre, stream = pre ++ [Idle; userNotFound]
          ∧ Forall (λ o, isFailure o = false) pre)
  ∧ (exit ≠ UserNotFound → Forall (λ o, isFailure o = false) stream)
  ∧ (length (filter isIdle stream) ≤ length worlds)%nat
  ∧ (exit = Parked → length (filter isIdle stream) = length worlds).
Proof.
  cbn zeta. revert st. induction worlds as [|w worlds IH]; intros st.
  { simpl. split_and!; try done. }
  simpl. outer_step.
  { simpl. split_and!; try done; try lia.
    - intros ->. by destruct Hit.
    - intros ->. by destruct Hit. }
  assert (Hout : ∀ x, x ≠ UserNotFound → x ≠ Parked →
            (x = UserNotFound →
             ∃ pre, Change <$> sent = pre ++ [Idle; userNotFound]
                    ∧ Forall (λ o, isFailure o = false) pre)
            ∧ (x ≠ UserNotFound →
               Forall (λ o, isFailure o = false) (Change <$> sent))
            ∧ (length (filter isIdle (Change <$> sent)) ≤ S (length worlds))%nat
            ∧ (x = Parked →
               length (filter isIdle (Change <$> sent)) = S (length worlds))).
  { intros x H1 H2. split_and!; try done.
    - intros _. apply Forall_isFailure_Change.
    - rewrite filter_isIdle_Change. simpl. lia. }
  assert (Hidle : ∀ x, x ≠ UserNotFound → x ≠ Parked →
            (x = UserNotFound →
             ∃ pre, (Change <$> sent) ++ [Idle] = pre ++ [Idle; userNotFound]
                    ∧ Forall (λ o, isFailure o = false) pre)
            ∧ (x ≠ UserNotFound →
               Forall (λ o, isFailure o = false) ((Change <$> sent) ++ [Idle]))
            ∧ (length (filter isIdle ((Change <$> sent) ++ [Idle]))
               ≤ S (length worlds))%nat
            ∧ (x = Parked →
               length (filter isIdle ((Change <$> sent) ++ [Idle]))
               = S (length worlds))).
  { intros x H1 H2. split_and!; try done.
    - intros _. apply Forall_app. split; [apply Forall_isFailure_Change|].
      by apply Forall_singleton.
    - rewrite filter_app, filter_isIdle_Change. simpl. lia. }
  destruct lexit; simpl; try (by apply Hout).
  destruct (negb (Continuous (mOptions mst)) && _); [by apply Hout|].
  destruct (negb changeWaiter); [by apply Hidle|].
  destruct (negb (w_Wait w)); [by apply Hidle|].
  destruct (w_terminated w); [by apply Hidle|].
  destruct (w_checkForUserUpdates w (oUserChangeCount st)) as [[n added]|err].
  - match goal with |- context [outerLoop worlds chans userVbNo changeWaiter cum ?s] =>
      specialize (IH s);
      destruct (outerLoop worlds chans userVbNo changeWaiter cum s) as [rest exit']
    end.
    simpl in *. destruct IH as (IH1 & IH2 & IH3 & IH4).
    assert (Hcount : length (filter isIdle ((Change <$> sent) ++ Idle :: rest))
                     = S (length (filter isIdle rest))).
    { rewrite filter_app, filter_isIdle_Change, filter_cons_True by done.
      done. }
    split_and!.
    + intros Hx. destruct (IH1 Hx) as (pre & -> & Hpre).
      exists ((Change <$> sent) ++ Idle :: pre). split.
      * by rewrite <- app_assoc.
      * apply Forall_app. split; [apply Forall_isFailure_Change|].
        by apply Forall_cons.
    + intros Hx. apply Forall_app. split; [apply Forall_isFailure_Change|].
      apply Forall_cons. split; [done|]. by apply IH2.
    + rewrite Hcount. lia.
    + intros Hx. rewrite Hcount. by rewrite IH4.
  - simpl. split_and!; try done.
    + intros _. exists (Change <$> sent). split.
      * done.
      * apply Forall_isFailure_Change.
    + rewrite filter_app, filter_isIdle_Change, filter_cons_True by done.
      rewrite filter_cons_False by (by intros []). simpl. lia.
Qed.

(** X13.  The error entry closes the stream: it is written only when the
    reload of the principal fails, it is the last value of the stream and
    it comes right after a nil sentinel.  Every pass of the outer loop
    writes at most one sentinel, and a goroutine that is still waiting has
    written one for every pass it made. *)
Theorem error_entry_closes_the_stream
    (h : Store) (user : option User) (count : Z) (worlds : list World)
    (chans : list string) (options : ChangesOptions) :
  let stream := (VectorMultiChangesFeed h user count worlds chans options).1.1 in
  let exit := (VectorMultiChangesFeed h user count worlds chans options).1.2 in
  (exit = UserNotFound →
   ∃ pre, stream = pre ++ [Idle; userNotFound]
          ∧ Forall (λ o, isFailure o = false) pre)
  ∧ (exit ≠ UserNotFound → Forall (λ o, isFailure o = false) stream)
  ∧ (length (filter isIdle stream) ≤ length worlds)%nat
  ∧ (exit = Parked → length (filter isIdle stream) = length worlds).
Proof.
  unfold VectorMultiChangesFeed. cbn zeta.
  destruct (deref h (getChangesClock (Since options))) as [c|].
  - unfold alloc. cbn [fst snd]. apply outerLoop_sentinels.
  - simpl. split_and!; try done. lia.
Qed.

Lemma outerLoop_not_continuous worlds chans userVbNo changeWaiter cum st :
  Continuous (oOptions st) = false →
  let stream := (outerLoop worlds chans userVbNo changeWaiter cum st).1 in
  let exit := (outerLoop worlds chans userVbNo changeWaiter cum st).2 in
  ∃ k sent,
    (k ≤ length worlds)%nat
    ∧ ((stream = replicate k Idle ++ (Change <$> sent)
        ∧ (sent ≠ [] → exit = Done ∨ exit = Terminated ∨ exit = Panicked))
       ∨ (stream = replicate k Idle ++ [userNotFound]
          ∧ exit = UserNotFound ∧ (0 < k)%nat))
    ∧ (changeWaiter = false → k = 0%nat ∧ exit ≠ UserNotFound).
Proof.
  cbn zeta. revert st. induction worlds as [|w worlds IH]; intros st Hc.
  { simpl. exists 0%nat, []. split_and!; [done|by left|done]. }
  simpl. outer_step.
  { simpl. exists 0%nat, []. split_and!; [lia|by left|].
    intros _. split; [done|]. intros ->. by destruct Hit. }
  destruct Hopt as (_ & Hcont & _). rewrite Hc in Hcont.
  assert (Hout : ∀ x, (x = Done ∨ x = Terminated ∨ x = Panicked) →
            ∃ k sent0,
              (k ≤ S (length worlds))%nat
              ∧ ((Change <$> sent = replicate k Idle ++ (Change <$> sent0)
                  ∧ (sent0 ≠ [] → x = Done ∨ x = Terminated ∨ x = Panicked))
                 ∨ (Change <$> sent = replicate k Idle ++ [userNotFound]
                    ∧ x = UserNotFound ∧ (0 < k)%nat))
              ∧ (changeWaiter = false → k = 0%nat ∧ x ≠ UserNotFound)).
  { intros x Hx. exists 0%nat, sent. split_and!; [lia|by left|].
    intros _. split; [done|]. by destruct Hx as [->|[->| ->]]. }
  destruct lexit; simpl; try (apply Hout; tauto).
  rewrite Hcont. simpl.
  case_bool_decide as Hsent; simpl; [apply Hout; tauto|].
  destruct changeWaiter; simpl; [|apply Hout; tauto].
  assert (sent = []) as ->.
  { destruct sent; [done|]. exfalso. clear -Hsent. naive_solver. }
  assert (Hidle : ∀ x, (x = Done ∨ x = Terminated) →
            ∃ k sent0,
              (k ≤ S (length worlds))%nat
              ∧ (([Idle] = replicate k Idle ++ (Change <$> sent0)
                  ∧ (sent0 ≠ [] → x = Done ∨ x = Terminated ∨ x = Panicked))
                 ∨ ([Idle] = replicate k Idle ++ [userNotFound]
                    ∧ x = UserNotFound ∧ (0 < k)%nat))
              ∧ (true = false → k = 0%nat ∧ x ≠ UserNotFound)).
  { intros x Hx. exists 1%nat, []. split_and!; [lia|by left|done]. }
  destruct (negb (w_Wait w)); [apply Hidle; tauto|].
  destruct (w_terminated w); [apply Hidle; tauto|].
  destruct (w_checkForUserUpdates w (oUserChangeCount st)) as [[n added]|err].
  - match goal with |- context [outerLoop worlds chans userVbNo true cum ?s] =>
      specialize (IH s Hcont);
      destruct (outerLoop worlds chans userVbNo true cum s) as [rest exit']
    end.
    simpl in *. destruct IH as (k & sent0 & Hk & Hshape & _).
    exists (S k), sent0. split_and!; [lia| |done].
    destruct Hshape as [[-> Hx]|(-> & -> & Hk0)]; [by left|right].
    split_and!; [done|done|lia].
  - simpl. exists 1%nat, []. split_and!; [lia| |done].
    right. split_and!; [done|done|lia].
Qed.

(** X14.  A feed that is neither continuous nor waiting makes one pass: what
    it writes and how it ends do not depend on what happens after the first
    pass, the stream holds entries only (no sentinel and no error entry) and
    the goroutine does not wait. *)
Theorem one_shot_feed_makes_one_pass
    (h : Store) (user : option User) (count : Z) (w : World)
    (worlds : list World) (chans : list string) (options : ChangesOptions) :
  Continuous options = false →
  Wait options = false →
  let run := VectorMultiChangesFeed h user count (w :: worlds) chans options in
  run = VectorMultiChangesFeed h user count [w] chans options
  ∧ Forall (λ o, isChange o = true) run.1.1
  ∧ run.1.2 ≠ Parked ∧ run.1.2 ≠ UserNotFound.
Proof.
  intros Hc Hw. unfold VectorMultiChangesFeed. cbn zeta. rewrite Hw.
  destruct (deref h (getChangesClock (Since options))) as [c|];
    [|by split_and!].
  unfold alloc.
  simpl. outer_step.
  { simpl. split_and!; [done|done| |].
    - intros ->. by destruct Hit.
    - intros ->. by destruct Hit. }
  destruct Hopt as (_ & Hcont & _). simpl in Hcont. rewrite Hc in Hcont.
  assert (Hall : Forall (λ o, isChange o = true) (Change <$> sent)).
  { apply Forall_fmap, Forall_true. done. }
  destruct lexit; simpl; try (by split_and!).
  rewrite Hcont. simpl. rewrite orb_true_r. by split_and!.
Qed.

(** X15.  In a feed that is not continuous no sentinel follows an entry:
    the stream is made of the sentinels of the passes that found nothing,
    followed by the entries of one pass, after which the goroutine ends, or
    by the error entry. *)
Theorem long_poll_stream_is_sentinels_then_one_pass
    (h : Store) (user : option User) (count : Z) (worlds : list World)
    (chans : list string) (options : ChangesOptions) :
  Continuous options = false →
  let stream := (VectorMultiChangesFeed h user count worlds chans options).1.1 in
  let exit := (VectorMultiChangesFeed h user count worlds chans options).1.2 in
  ∃ k sent,
    (k ≤ length worlds)%nat
    ∧ ((stream = replicate k Idle ++ (Change <$> sent)
        ∧ (sent ≠ [] → exit = Done ∨ exit = Terminated ∨ exit = Panicked))
       ∨ (stream = replicate k Idle ++ [userNotFound]
          ∧ exit = UserNotFound ∧ (0 < k)%nat))
    ∧ (Wait options = false → k = 0%nat ∧ exit ≠ UserNotFound).
Proof.
  intros Hc. unfold VectorMultiChangesFeed. cbn zeta.
  destruct (deref h (getChangesClock (Since options))) as [c|].
  - unfold alloc. cbn [fst snd]. by apply outerLoop_not_continuous.
  - simpl. exists 0%nat, []. split_and!; [lia|by left|done].
Qed.

Lemma cursorValid_deref h options :
  cursorValid h options
  ↔ is_Some (deref h (getChangesClock (Since options))).
Proof.
  unfold cursorValid, deref. split.
  - intros (l & -> & Hl). simpl. by apply lookup_lt_is_Some.
  - destruct (getChangesClock (Since options)) as [l|]; simpl.
    + intros Hl%lookup_lt_is_Some. by exists l.
    + by intros [? ?].
Qed.

Lemma iterationFeeds_valid w chans userVbNo st :
  cursorValid (oStore st) (oOptions st) →
  match iterationFeeds w chans userVbNo st with
  | inl exit => exit = FeedError
  | inr (feeds, h) => (length (oStore st) ≤ length h)%nat
  end.
Proof.
  intros Hvalid. apply cursorValid_deref in Hvalid as Hd.
  unfold iterationFeeds.
  pose proof (openFeeds_alloc VbucketSequenceBefore makeChangeEntry
                (w_GetChanges w) (w_feedTerminator w) (oStore st)
                (oOptions st) userVbNo (oAddedChannels st)
                match w_user w with
                | Some _ => w_available w
                | None => AtSequence chans 0
                end []) as Ha.
  destruct (openFeeds _ _ _ _ _ _ _ _ _ _) as [x|[f0 h0]].
  - destruct Ha as [[-> | ->] Hp]; [done|].
    destruct (Hp eq_refl) as [_ Hnone]. rewrite Hnone in Hd. by destruct Hd.
  - destruct Ha as (Hpre & _ & _).
    assert (Hlen : (length (oStore st) ≤ length h0)%nat).
    { by apply prefix_length. }
    destruct (w_user w) as [user|]; [|done].
    unfold appendVectorUserFeed, sinceSequence.
    destruct Hd as [c Hc]. rewrite (deref_prefix _ _ _ _ Hpre Hc). simpl.
    destruct (0 <? userSequence user); [|done].
    by destruct (GetSequence c userVbNo <? userSequence user).
Qed.

Lemma runMerge_sound cum t feeds h options calls :
  Forall (Forall produced) feeds →
  let exit := (runMerge cum t feeds h options calls).2 in
  exit ≠ LoopPanic ∧ exit ≠ LoopFuel
  ∧ (length h ≤ length (mStore (runMerge cum t feeds h options calls).1.2))%nat.
Proof.
  intros Hprod. cbn zeta. unfold runMerge. split_and!.
  - apply mergeLoop_no_panic. unfold waiting. simpl.
    destruct (waiting_runMerge feeds) as [-> ->]. simpl.
    by apply Forall_concat.
  - apply mergeLoop_fuel. lia.
  - match goal with |- context [mergeLoop _ _ _ ?f cum t ?s] =>
      apply (mergeLoop_length Before GetHash docLayer f cum t s)
    end.
Qed.

Lemma outerLoop_no_panic worlds chans userVbNo changeWaiter cum st :
  (∀ L s c, ceSeq (makeChangeEntry L s c) = s) →
  (cum < length (oStore st))%nat →
  cursorValid (oStore st) (oOptions st) →
  (Continuous (oOptions st) = true → changeWaiter = true) →
  (outerLoop worlds chans userVbNo changeWaiter cum st).2 ≠ Panicked.
Proof.
  intros Hmk. revert st.
  induction worlds as [|w worlds IH]; intros st Hcum Hvalid Hwait; [done|].
  simpl.
  pose proof (iterationFeeds_valid w chans userVbNo st Hvalid) as Hiv.
  pose proof (iterationFeeds_produced VbucketSequenceBefore makeChangeEntry
                Hmk w chans userVbNo st) as Hprod.
  outer_step.
  { by subst exit0. }
  destruct (Hprod feeds hf eq_refl) as (Hprod' & _).
  pose proof (runMerge_sound cum (w_terminator w) feeds hf (oOptions st)
                (oHashCalls st) Hprod') as Hs.
  rewrite Hrun in Hs. simpl in Hs. destruct Hs as (Hs1 & Hs2 & Hs3).
  destruct Hopt as (Hsame & Hcont & Hclock).
  destruct lexit; simpl; try done.
  destruct (negb (Continuous (mOptions mst)) && _) eqn:Hstop; [done|].
  assert (changeWaiter = true) as ->.
  { destruct changeWaiter; [done|]. apply Hwait. rewrite <- Hcont.
    destruct (Continuous (mOptions mst)); [done|].
    simpl in Hstop. by rewrite orb_true_r in Hstop. }
  simpl.
  destruct (negb (w_Wait w)); [done|].
  destruct (w_terminated w); [done|].
  destruct (w_checkForUserUpdates w (oUserChangeCount st)) as [[n added]|err];
    [|done].
  match goal with |- context [outerLoop worlds chans userVbNo true cum ?s] =>
    specialize (IH s);
    destruct (outerLoop worlds chans userVbNo true cum s) as [rest exit']
  end.
  simpl in *. apply IH.
  - lia.
  - destruct Hvalid as (l & Hl & Hlt). unfold cursorValid, getChangesClock in *.
    apply (f_equal TriggeredByClock) in Hsame as Htbc. simpl in Htbc.
    rewrite Htbc.
    destruct (TriggeredByClock (Since (oOptions st))) as [tl|].
    + exists l. split; [done|lia].
    + destruct Hclock as [-> | ->].
      * exists l. split; [done|lia].
      * exists cum. split; [done|lia].
  - by rewrite Hcont.
Qed.

(** X16.  No call through a nil pointer: when the cursor of the request is
    read through a clock that exists, and a continuous feed has a change
    waiter, none of the calls the goroutine makes through a clock or through
    the change waiter panics, however many passes it makes: the cursor clock
    is still there when the next pass plans from it and when the user
    pseudo-feed reads it, and the merger finds a triggered-by clock on every
    backfill entry (for a [makeChangeEntry] that puts on the entry the
    sequence id it is given). *)
Theorem feed_never_panics
    (h : Store) (user : option User) (count : Z) (worlds : list World)
    (chans : list string) (options : ChangesOptions) :
  (∀ L s c, ceSeq (makeChangeEntry L s c) = s) →
  cursorValid h options →
  (Continuous options = true → Wait options = true) →
  (VectorMultiChangesFeed h user count worlds chans options).1.2 ≠ Panicked.
Proof.
  intros Hmk Hvalid Hwait. unfold VectorMultiChangesFeed. cbn zeta.
  apply cursorValid_deref in Hvalid as Hd. destruct Hd as [c Hc].
  rewrite Hc. unfold alloc. cbn [fst snd].
  apply outerLoop_no_panic; simpl; try done.
  - rewrite length_app. simpl. lia.
  - destruct Hvalid as (l & Hl & Hlt). exists l. split; [done|].
    rewrite length_app. lia.
Qed.

(** The converse at the entry: a nil cursor clock. *)
Lemma VectorMultiChangesFeed_nil_cursor h user count worlds chans options :
  getChangesClock (Since options) = None →
  VectorMultiChangesFeed h user count worlds chans options
  = (([], Panicked), None).
Proof. intros Hnil. unfold VectorMultiChangesFeed. by rewrite Hnil. Qed.

End OuterShape.

(** ** The merger: which head is written *)

Section FirstMinimum.

Variable Before : SequenceID → SequenceID → bool.
Variable GetHash : SequenceClockImpl → result string.
Variable docLayer : ChangeEntry → ChangesOptions → option string * list string.

Hypothesis Before_irrefl : ∀ a, Before a a = false.
Hypothesis Before_trans :
  ∀ a b c, Before a b = true → Before b c = true → Before a c = true.

Local Abbreviation findMin := (findMin Before).
Local Abbreviation mergeStep := (mergeStep Before GetHash docLayer).

Lemma findMin_first current i s0 o0 s m e :
  findMin current i s0 o0 = (s, Some (m, e)) →
  (o0 = Some (m, e) ∧ s = s0)
  ∨ ((i ≤ m)%nat ∧ Before s s0 = true
     ∧ ∀ j h, (j < m - i)%nat → current !! j = Some (Some h) → ceSeq h ≠ s).
Proof.
  revert i s0 o0. induction current as [|[cur|] current IH]; intros i s0 o0;
    simpl.
  - intros [= -> ->]. by left.
  - destruct (Before (ceSeq cur) s0) eqn:HB; intros Hmin;
      apply IH in Hmin as [[Ho ->]|(Hi & Hs & Hfirst)].
    + injection Ho as <- <-. right. split_and!; [lia|done|].
      intros j h Hj. lia.
    + right. split_and!; [lia|by eapply Before_trans|].
      intros [|j] h Hj; simpl.
      * intros [= ->] Heq. rewrite Heq, Before_irrefl in Hs. done.
      * apply Hfirst. lia.
    + by left.
    + right. split_and!; [lia|done|].
      intros [|j] h Hj; simpl.
      * intros [= ->] Heq. rewrite Heq in HB. congruence.
      * apply Hfirst. lia.
  - intros Hmin. apply IH in Hmin as [?|(Hi & Hs & Hfirst)]; [by left|].
    right. split_and!; [lia|done|].
    intros [|j] h Hj; simpl; [done|]. apply Hfirst. lia.
Qed.

(** X17.  For a [Before] that is a strict order, the entry the merger writes
    is the head of the first slot among the heads with the least sequence
    id: no head is before it, no head of an earlier slot has its sequence
    id, and the entry written carries its document id and, up to the clock
    stamped, its sequence id.  So when several feeds hold an entry for the
    same sequence id, the entry of the first of these feeds is the one
    written. *)
Theorem first_feed_wins_a_tie
    (cum : loc) (t : Terminator) (st : MergeState)
    (e : ChangeEntry) (t' : Terminator) (st' : MergeState) (stop : bool) :
  mergeStep cum t st = StepSent e t' st' stop →
  let current := (fillCurrent (mCurrent st) (mFeeds st)).1 in
  ∃ m e0,
    current !! m = Some (Some e0)
    ∧ ID e = ID e0
    ∧ sameSequence (ceSeq e) (ceSeq e0)
    ∧ (∀ j h, current !! j = Some (Some h) →
         Before (ceSeq h) (ceSeq e0) = false)
    ∧ (∀ j h, (j < m)%nat → current !! j = Some (Some h) →
         ceSeq h ≠ ceSeq e0).
Proof.
  intros Hstep. apply mergeStep_sent in Hstep
    as (minSeq & m & e0 & e2 & calls & Hmin & He2 & Hstamp & _).
  cbn zeta in *.
  pose proof (findMin_head _ _ _ _ _ Hmin) as [Hm Hseq].
  pose proof (findMin_min Before Before_irrefl Before_trans _ _ _ _ _ _ Hmin)
    as [_ Hleast].
  apply findMin_first in Hmin as [[? _]|(_ & _ & Hfirst)]; [done|].
  apply stampClock_entry in Hstamp as (He & Hsame & _).
  assert (H2 : ceSeq e2 = ceSeq e0 ∧ ID e2 = ID e0).
  { subst e2.
    destruct (IncludeDocs (mOptions st) || Conflicts (mOptions st));
      [|done].
    unfold addDocToChangeEntry. by destruct (docLayer _ _). }
  destruct H2 as [H2 H3].
  exists m, e0. split_and!.
  - done.
  - rewrite He. simpl. done.
  - unfold sameSequence. by rewrite Hsame, H2.
  - intros j h Hj. rewrite Hseq. by eapply Hleast.
  - intros j h Hj Hh. rewrite Hseq. eapply Hfirst; [|done]. lia.
Qed.

End FirstMinimum.

(** ** A pass: where the entries written come from *)

Section PassProvenance.

Variable VbucketSequenceBefore : SequenceID → Z → Z → bool.
Variable makeChangeEntry : LogEntry → SequenceID → string → ChangeEntry.
Variable Before : SequenceID → SequenceID → bool.
Variable GetHash : SequenceClockImpl → result string.
Variable docLayer : ChangeEntry → ChangesOptions → option string * list string.

Hypothesis makeChangeEntry_Seq : ∀ L s c, ceSeq (makeChangeEntry L s c) = s.

Local Abbreviation iterationFeeds :=
  (iterationFeeds VbucketSequenceBefore makeChangeEntry).
Local Abbreviation runMerge := (runMerge Before GetHash docLayer).


End PassProvenance.

(** ** The merger: the document layer *)

Section DocumentLayer.

Variable Before : SequenceID → SequenceID → bool.
Variable GetHash : SequenceClockImpl → result string.
Variables docLayer1 docLayer2
  : ChangeEntry → ChangesOptions → option string * list string.

Lemma mergeStep_docLayer cum t st :
  IncludeDocs (mOptions st) = false →
  Conflicts (mOptions st) = false →
  mergeStep Before GetHash docLayer1 cum t st
  = mergeStep Before GetHash docLayer2 cum t st.
Proof.
  intros Hi Hc. unfold mergeStep. by rewrite Hi, Hc.
Qed.

(** X20.  The document layer is consulted on request only: when neither
    [IncludeDocs] nor [Conflicts] is set, a run of the merge loop is the same
    whatever [addDocToChangeEntry] would do: the entries written, the state
    left and the way the loop ends do not depend on it. *)
Theorem document_layer_is_consulted_only_on_request
    (fuel : nat) (cum : loc) (t : Terminator) (st : MergeState) :
  IncludeDocs (mOptions st) = false →
  Conflicts (mOptions st) = false →
  mergeLoop Before GetHash docLayer1 fuel cum t st
  = mergeLoop Before GetHash docLayer2 fuel cum t st.
Proof.
  revert t st. induction fuel as [|fuel IH]; intros t st Hi Hc; [done|].
  simpl. rewrite (mergeStep_docLayer cum t st Hi Hc).
  pose proof (mergeStep_cases Before GetHash docLayer2 cum t st) as Hstep.
  destruct (fillCurrent (mCurrent st) (mFeeds st)) as [c1 f1].
  destruct (findMin Before c1 0 MaxSequenceID None) as [minSeq [[m e0]|]];
    [|by rewrite Hstep].
  destruct Hstep as (_ & _ & e2 & _ & _ & _ & Hstep).
  destruct (stampClock GetHash (mStore st) cum e2) as [[[e1 h1] calls1]|];
    [|by rewrite Hstep].
  destruct (select t) as [t1|]; [|by rewrite Hstep].
  rewrite Hstep.
  destruct (limitReached (mOptions st)); [done|].
  rewrite IH; [done| |].
  - simpl. unfold countDown. by destruct (0 <? Limit (mOptions st)).
  - simpl. unfold countDown. by destruct (0 <? Limit (mOptions st)).
Qed.

End DocumentLayer.

(** * Scenarios of the further properties *)

Section FurtherScenarios.

Import Sample Scenario Further.

Lemma Sample_makeChangeEntry_Seq L s c : ceSeq (makeChangeEntry L s c) = s.
Proof. reflexivity. Qed.

Lemma planned_feeds_are_produced_witness :
  iterationFeeds VbucketSequenceBefore makeChangeEntry (quiet cacheAB)
    ["A"; "B"] 0 startAB = inr (feedsAB, oStore startAB)
  ∧ Forall (Forall produced) feedsAB
  ∧ length feedsAB = 2%nat.
Proof.
  assert (H : iterationFeeds VbucketSequenceBefore makeChangeEntry
                (quiet cacheAB) ["A"; "B"] 0 startAB
              = inr (feedsAB, oStore startAB)) by reflexivity.
  split; [exact H|].
  destruct (planned_feeds_are_produced VbucketSequenceBefore makeChangeEntry
              Sample_makeChangeEntry_Seq (quiet cacheAB) ["A"; "B"] 0 startAB
              feedsAB (oStore startAB) H) as (H1 & _ & H3).
  split; [exact H1|exact (H3 eq_refl)].
Defined.

Lemma merge_of_produced_feeds_never_panics_witness :
  Forall (Forall produced) feedsC
  ∧ (runMerge Sample.Before GetHash docLayer 2%nat None feedsC
       (resumeStore ++ [clockOf [(2, 4)]]) (options0 earlySince) []).2
    ≠ LoopPanic.
Proof.
  assert (H : Forall (Forall produced) feedsC).
  { constructor; [|constructor].
    apply feedBody_produced. exact Sample_makeChangeEntry_Seq. }
  split; [exact H|].
  exact (merge_of_produced_feeds_never_panics Sample.Before GetHash docLayer
           2%nat None feedsC (resumeStore ++ [clockOf [(2, 4)]])
           (options0 earlySince) [] H).
Defined.

Lemma drained_merge_wrote_every_entry_witness :
  Forall (Forall (λ x, Sample.Before (ceSeq x) MaxSequenceID = true)) feedsAB
  ∧ ∀ feed x, feed ∈ feedsAB → x ∈ feed →
      ∃ e, e ∈ (runMerge Sample.Before GetHash docLayer 1%nat None feedsAB
                  (emptyCursor ++ [clockOf []]) (options0 (sinceOf 0%nat)) []).1.1
           ∧ sameSequence (ceSeq e) (ceSeq x).
Proof.
  assert (H : Forall (Forall (λ x, Sample.Before (ceSeq x) MaxSequenceID = true))
                feedsAB) by (by repeat constructor).
  split; [exact H|].
  exact (proj2 (drained_merge_wrote_every_entry Sample.Before GetHash docLayer
                  1%nat None feedsAB (emptyCursor ++ [clockOf []])
                  (options0 (sinceOf 0%nat)) [] H eq_refl)).
Defined.

Lemma cumulative_clock_only_advances_witness :
  (1 < length (mStore mergeAB))%nat
  ∧ ∀ e,
      e ∈ (mergeLoop Sample.Before GetHash docLayer 3 1 None mergeAB).1.1 →
      TriggeredBy (ceSeq e) = 0 →
      Seq (ceSeq e)
      ≤ GetSequence
          (clockAt
             (mStore (mergeLoop Sample.Before GetHash docLayer 3 1 None
                        mergeAB).1.2) 1)
          (vbNo (ceSeq e)).
Proof.
  assert (H : (1 < length (mStore mergeAB))%nat) by (simpl; lia).
  split; [exact H|].
  exact (proj2 (proj2 (proj2
           (cumulative_clock_only_advances Sample.Before GetHash docLayer
              3 1 None mergeAB H)))).
Defined.

Lemma failing_hasher_is_called_for_every_entry_witness :
  (∀ c, ∃ err, hasherDown c = Failed err)
  ∧ (hashedFor 0 (mHashCalls mergeC)
     + length (filter (backfillOf 0%nat)
                 (mergeLoop Sample.Before hasherDown docLayer 5 2 None
                    mergeC).1.1)
     ≤ hashedFor 0
         (mHashCalls (mergeLoop Sample.Before hasherDown docLayer 5 2 None
                        mergeC).1.2))%nat.
Proof.
  assert (H : ∀ c, ∃ err, hasherDown c = Failed err).
  { intros c. eexists. reflexivity. }
  split; [exact H|].
  exact (proj1 (proj2 (proj2
           (failing_hasher_is_called_for_every_entry Sample.Before hasherDown
              docLayer 5 2 None mergeC H))) 0%nat eq_refl).
Defined.

Lemma one_shot_feed_makes_one_pass_witness :
  VectorMultiChangesFeed VbucketSequenceBefore makeChangeEntry Sample.Before
    GetHash docLayer VBHash emptyCursor None 0
    [quiet cacheAB; quiet cacheEmpty] ["A"; "B"] (options0 (sinceOf 0%nat))
  = VectorMultiChangesFeed VbucketSequenceBefore makeChangeEntry Sample.Before
      GetHash docLayer VBHash emptyCursor None 0
      [quiet cacheAB] ["A"; "B"] (options0 (sinceOf 0%nat)).
Proof.
  exact (proj1 (one_shot_feed_makes_one_pass VbucketSequenceBefore
                  makeChangeEntry Sample.Before GetHash docLayer VBHash
                  emptyCursor None 0 (quiet cacheAB) [quiet cacheEmpty]
                  ["A"; "B"] (options0 (sinceOf 0%nat)) eq_refl eq_refl)).
Defined.

Lemma long_poll_stream_is_sentinels_then_one_pass_witness :
  ∃ k sent,
    (VectorMultiChangesFeed VbucketSequenceBefore makeChangeEntry Sample.Before
       GetHash docLayer VBHash emptyCursor None 0
       [quiet cacheEmpty] ["A"; "B"] (longPoll (sinceOf 0%nat))).1.1
    = replicate k Idle ++ (Change <$> sent)
    ∨ (VectorMultiChangesFeed VbucketSequenceBefore makeChangeEntry
         Sample.Before GetHash docLayer VBHash emptyCursor None 0
         [quiet cacheEmpty] ["A"; "B"] (longPoll (sinceOf 0%nat))).1.1
      = replicate k Idle
        ++ [Failure (makeErrorEntry
              "User not found during reload - terminating changes feed")].
Proof.
  destruct (long_poll_stream_is_sentinels_then_one_pass VbucketSequenceBefore
              makeChangeEntry Sample.Before GetHash docLayer VBHash
              emptyCursor None 0 [quiet cacheEmpty] ["A"; "B"]
              (longPoll (sinceOf 0%nat)) eq_refl)
    as (k & sent & _ & [[H _]|[H _]] & _);
    exists k, sent; [left|right]; exact H.
Defined.

Lemma feed_never_panics_witness :
  cursorValid emptyCursor (continuousFeed (sinceOf 0%nat))
  ∧ (VectorMultiChangesFeed VbucketSequenceBefore makeChangeEntry Sample.Before
       GetHash docLayer VBHash emptyCursor None 0
       [quiet cacheAB; quiet cacheEmpty] ["A"; "B"]
       (continuousFeed (sinceOf 0%nat))).1.2 ≠ Panicked.
Proof.
  assert (H : cursorValid emptyCursor (continuousFeed (sinceOf 0%nat))).
  { exists 0%nat. split; [reflexivity|simpl; lia]. }
  split; [exact H|].
  exact (feed_never_panics VbucketSequenceBefore makeChangeEntry Sample.Before
           GetHash docLayer VBHash emptyCursor None 0
           [quiet cacheAB; quiet cacheEmpty] ["A"; "B"]
           (continuousFeed (sinceOf 0%nat)) Sample_makeChangeEntry_Seq H
           (λ _, eq_refl)).
Defined.

Lemma user_entry_is_not_sent_twice_witness :
  (∃ entry,
     appendVectorUserFeed (emptyCursor ++ [clockOf []]) alice feedsAB
       (options0 (sinceOf 0%nat)) 7 = Some (feedsAB ++ [[entry]]))
  ∧ appendVectorUserFeed
      (mStore (runMerge Sample.Before GetHash docLayer 1%nat None
                 (default [] (appendVectorUserFeed (emptyCursor ++ [clockOf []])
                                alice feedsAB (options0 (sinceOf 0%nat)) 7))
                 (emptyCursor ++ [clockOf []]) (options0 (sinceOf 0%nat)) []).1.2)
      alice []
      (mOptions (runMerge Sample.Before GetHash docLayer 1%nat None
                   (default [] (appendVectorUserFeed (emptyCursor ++ [clockOf []])
                                  alice feedsAB (options0 (sinceOf 0%nat)) 7))
                   (emptyCursor ++ [clockOf []]) (options0 (sinceOf 0%nat)) []).1.2)
      7
    = Some [].
Proof.
  split; [eexists; reflexivity|].
  refine (user_entry_is_not_sent_twice Sample.Before GetHash docLayer
            1%nat None (emptyCursor ++ [clockOf []]) alice feedsAB _
            (options0 (sinceOf 0%nat)) 7 [] _ eq_refl eq_refl _ _ eq_refl []).
  - simpl. lia.
  - intros H. apply (f_equal length) in H. discriminate H.
  - by repeat constructor.
Defined.

Lemma pass_without_principal_plans_no_backfill_witness :
  iterationFeeds VbucketSequenceBefore makeChangeEntry (quiet cacheAB)
    ["A"; "B"] 0 startAB = inr (feedsAB, oStore startAB)
  ∧ Forall (Forall (λ x, TriggeredBy (ceSeq x) = 0
                         ∧ TriggeredByClock (ceSeq x) = None)) feedsAB.
Proof.
  assert (H : iterationFeeds VbucketSequenceBefore makeChangeEntry
                (quiet cacheAB) ["A"; "B"] 0 startAB
              = inr (feedsAB, oStore startAB)) by reflexivity.
  split; [exact H|].
  exact (proj2 (proj2
           (pass_without_principal_plans_no_backfill VbucketSequenceBefore
              makeChangeEntry Sample_makeChangeEntry_Seq (quiet cacheAB)
              ["A"; "B"] 0 startAB feedsAB (oStore startAB)
              eq_refl eq_refl eq_refl H))).
Defined.

Lemma first_feed_wins_a_tie_witness :
  ∃ e t' st' stop,
    mergeStep Sample.Before GetHash docLayer 1 None mergeZ
    = StepSent e t' st' stop
    ∧ ∃ m e0,
        (fillCurrent (mCurrent mergeZ) (mFeeds mergeZ)).1 !! m = Some (Some e0)
        ∧ ID e = ID e0
        ∧ ∀ j h, (j < m)%nat →
            (fillCurrent (mCurrent mergeZ) (mFeeds mergeZ)).1 !! j
            = Some (Some h) →
            ceSeq h ≠ ceSeq e0.
Proof.
  assert (H : ∃ e t' st' stop,
            mergeStep Sample.Before GetHash docLayer 1 None mergeZ
            = StepSent e t' st' stop) by (do 4 eexists; reflexivity).
  destruct H as (e & t' & st' & stop & H). exists e, t', st', stop.
  split; [exact H|].
  destruct (first_feed_wins_a_tie Sample.Before GetHash docLayer
              Sample_Before_irrefl Sample_Before_trans 1 None mergeZ
              e t' st' stop H) as (m & e0 & H1 & H2 & _ & _ & H5).
  exists m, e0. split; [exact H1|]. split; [exact H2|exact H5].
Defined.


Lemma stamped_clocks_are_fresh_witness :
  (1 < length (mStore mergeAB))%nat
  ∧ ∀ e,
      e ∈ (mergeLoop Sample.Before GetHash docLayer 3 1 None mergeAB).1.1 →
      TriggeredBy (ceSeq e) = 0 →
      ∃ l,
        Clock (ceSeq e) = Some l
        ∧ (length (mStore mergeAB) ≤ l
           < length (mStore (mergeLoop Sample.Before GetHash docLayer 3 1 None
                               mergeAB).1.2))%nat
        ∧ l ≠ 1%nat
        ∧ ∀ vb,
            GetSequence
              (clockAt
                 (mStore (mergeLoop Sample.Before GetHash docLayer 3 1 None
                            mergeAB).1.2) l) vb = 0.
Proof.
  assert (H : (1 < length (mStore mergeAB))%nat) by (simpl; lia).
  split; [exact H|].
  exact (proj1 (stamped_clocks_are_fresh Sample.Before GetHash docLayer
                  3 1 None mergeAB H)).
Defined.

Lemma document_layer_is_consulted_only_on_request_witness :
  mergeLoop Sample.Before GetHash docLayer 3 1 None mergeAB
  = mergeLoop Sample.Before GetHash noDocs 3 1 None mergeAB.
Proof.
  exact (document_layer_is_consulted_only_on_request Sample.Before GetHash
           docLayer noDocs 3 1 None mergeAB eq_refl eq_refl).
Defined.

End FurtherScenarios.
